(** * pylabrad: the asyncore connection backend ([labrad/backend.py])

    A shallow embedding of [AsyncoreProtocol] (the protocol engine run by the
    I/O thread) and of [BaseConnection] / [AsyncoreConnection] (the facade
    used by caller threads), with the properties of the connection layer
    proved about them.

    Python values are modelled as follows: [int]/[long] as [Z], [str] as
    [string], [dict] as [gmap], [set] as [gset], [Queue.Queue] as a FIFO
    [list], a raised exception as the [Raise] case of [Result].  A [Future]
    is an object shared between the caller and the I/O thread: it is a
    handle into a store of future states that travels with the engine.
    An attribute that an object gets only later ([self.serverCache],
    [self.settingCache], [self.cxn]) is absent until then, and reading it
    raises [AttributeError]. *)

From stdpp Require Import gmap strings list fin_maps.
From Stdlib Require Import ZArith Lia.

Open Scope Z_scope.
Set Warnings "-clear-no-such-hyp".

(** ** Python values *)

(** Exceptions that the backend raises or passes on. *)
Inductive PyExc :=
| Exception (msg : string)
| TypeError (msg : string)
| IndexError (msg : string)
| AttributeError (msg : string)
| SocketError (msg : string)
| RemoteError (code : Z) (msg : string)
| LoginFailedError (arg : LoginArg)
with LoginArg :=
| ArgStr (msg : string)
| ArgExc (e : PyExc).

(** The argument of [Future.set_exception]: the engine passes exception
    objects, and in one place ([flushCommands]) a plain [str]. *)
Inductive Cause :=
| CauseExc (e : PyExc)
| CauseStr (msg : string).

(** Unflattened labrad data, as far as the backend inspects it. *)
#[warnings="-register-all"]
Inductive Data :=
| DNone
| DWord (n : Z)
| DStr (s : string)
| DCluster (items : list Data)
| DError (e : PyExc).

(** A server or setting, given by its numeric ID or by its name. *)
Inductive Ident :=
| Num (n : Z)
| Name (s : string).

Definition Context : Type := Z * Z.

(** A record of an outgoing packet, [(setting, data)] or
    [(setting, data, types)]: the first component and the rest of the tuple. *)
Definition Record_ : Type := Ident * (Data * list string).

(** A record of a decoded reply: [r[0]] is the setting ID, [r[1]] the payload. *)
Definition Reply : Type := Z * Data.

(** The outcome of a call: it returns, it raises, or it never returns (a
    [result()] or a [join()] that waits for ever). *)
Inductive Result (A : Type) :=
| Ok (a : A)
| Raise (e : PyExc)
| Hang.
Arguments Ok {A} a.
Arguments Raise {A} e.
Arguments Hang {A}.

(** ** Futures *)

Definition Fid := nat.

Inductive FutureState :=
| Pending
| Finished (result : list Reply)
| Failed (reason : Cause).

(** ** The protocol engine: [class AsyncoreProtocol] *)

(** What [self.queue] holds: [None] (put by [drop]), a raw [str], or the
    tuple [(target, context, flatrecs, future)] put by [enqueue]. *)
Inductive Command :=
| CmdNone
| CmdRaw (data : string)
| CmdPacket (target : Ident) (context : Context) (flatrecs : string)
            (future : option Fid).

Record AsyncoreProtocol := mkProtocol {
  alive : bool;
  nextRequest : Z;
  requests : gmap Z Fid;
  pool : gset Z;
  queue : list Command;
  buffer : string;
  (** [asyncore.dispatcher.close] has run: the socket is closed and removed
      from the socket map, which ends [asyncore.loop]. *)
  closed : bool;
  (** The store of the [Future] objects; a handle without an entry is a
      future on which nothing was set yet. *)
  futures : gmap Fid FutureState
}.

Definition set_alive (b : bool) (s : AsyncoreProtocol) :=
  mkProtocol b (nextRequest s) (requests s) (pool s) (queue s) (buffer s)
             (closed s) (futures s).
Definition set_nextRequest (n : Z) (s : AsyncoreProtocol) :=
  mkProtocol (alive s) n (requests s) (pool s) (queue s) (buffer s)
             (closed s) (futures s).
Definition set_requests (r : gmap Z Fid) (s : AsyncoreProtocol) :=
  mkProtocol (alive s) (nextRequest s) r (pool s) (queue s) (buffer s)
             (closed s) (futures s).
Definition set_pool (p : gset Z) (s : AsyncoreProtocol) :=
  mkProtocol (alive s) (nextRequest s) (requests s) p (queue s) (buffer s)
             (closed s) (futures s).
Definition set_queue (q : list Command) (s : AsyncoreProtocol) :=
  mkProtocol (alive s) (nextRequest s) (requests s) (pool s) q (buffer s)
             (closed s) (futures s).
Definition set_buffer (b : string) (s : AsyncoreProtocol) :=
  mkProtocol (alive s) (nextRequest s) (requests s) (pool s) (queue s) b
             (closed s) (futures s).
Definition set_futures (f : gmap Fid FutureState) (s : AsyncoreProtocol) :=
  mkProtocol (alive s) (nextRequest s) (requests s) (pool s) (queue s)
             (buffer s) (closed s) f.

(** [asyncore.dispatcher.close]. *)
Definition close (s : AsyncoreProtocol) :=
  mkProtocol (alive s) (nextRequest s) (requests s) (pool s) (queue s)
             (buffer s) true (futures s).

Definition future_state (s : AsyncoreProtocol) (d : Fid) : FutureState :=
  default Pending (futures s !! d).

(** [Future.set_result] and [Future.set_exception] of the Python 2
    [concurrent.futures] package store the outcome whatever the state of
    the future was. *)
Definition set_result (d : Fid) (result : list Reply) (s : AsyncoreProtocol) :=
  set_futures (<[d := Finished result]> (futures s)) s.
Definition set_exception (d : Fid) (reason : Cause) (s : AsyncoreProtocol) :=
  set_futures (<[d := Failed reason]> (futures s)) s.

(** [__init__]. *)
Definition init : AsyncoreProtocol :=
  mkProtocol true 1 ∅ ∅ [] "" false ∅.

(** [set.pop()] removes and returns an arbitrary element.  The choice is
    [pick]; a choice that is not an element is replaced by the first element
    of the set, so that every [pick] describes a possible [pop]. *)
Definition set_pop (pick : gset Z → Z) (p : gset Z) : Z * gset Z :=
  let n := if decide (pick p ∈ p) then pick p
           else default 0 (head (elements p)) in
  (n, p ∖ {[n]}).

(** [buffer[sent:]]. *)
Fixpoint string_from (sent : nat) (b : string) : string :=
  match sent, b with
  | O, _ => b
  | S k, String _ b' => string_from k b'
  | S _, EmptyString => EmptyString
  end.

(** [enqueue]: the test of [alive] and the [put] happen under the lock. *)
Definition enqueue (target : Ident) (context : Context) (flatrecs : string)
    (future : option Fid) (s : AsyncoreProtocol)
  : Result unit * AsyncoreProtocol :=
  if alive s
  then (Ok tt, set_queue (queue s ++ [CmdPacket target context flatrecs future]) s)
  else (Raise (Exception "not connected"), s).

Definition drop (s : AsyncoreProtocol) : AsyncoreProtocol :=
  set_queue (queue s ++ [CmdNone]) s.

(** [for d in self.requests.values(): d.set_exception(reason)]. *)
Definition values (r : gmap Z Fid) : list Fid := (map_to_list r).*2.

Definition fail_all (reason : Cause) (s : AsyncoreProtocol) : AsyncoreProtocol :=
  foldl (λ s d, set_exception d reason s) s (values (requests s)).

Definition writable (s : AsyncoreProtocol) : bool :=
  match queue s with [] => false | _ => true end.

Definition error_payloads (records : list Reply) : list PyExc :=
  omap (λ r : Reply, match r.2 with DError e => Some e | _ => None end) records.

(** [handleResponse(_source, _context, request, records)], the callback of
    the packet stream. *)
Definition handleResponse (request : Z) (records : list Reply)
    (s : AsyncoreProtocol) : AsyncoreProtocol :=
  let n := - request in
  match requests s !! n with
  | None => s
  | Some future =>
      let s := set_requests (delete n (requests s)) s in
      let s := set_pool ({[n]} ∪ pool s) s in
      match error_payloads records with
      | e :: _ => set_exception future (CauseExc e) s
      | [] => set_result future records s
      end
  end.

(** A decoded packet handed to the callback. *)
Record Packet := mkPacket {
  p_source : Z;
  p_context : Context;
  p_request : Z;
  p_records : list Reply
}.

(** [handle_read]: the bytes received complete zero or more packets, and the
    stream calls [handleResponse] on each in order. *)
Definition handle_read (pkts : list Packet) (s : AsyncoreProtocol) :=
  foldl (λ s p, handleResponse (p_request p) (p_records p) s) s pkts.

Section Engine.

(** The wire codec, [labrad.stream.flattenPacket]. *)
Variable flattenPacket : Ident → Context → Z → string → string.

(** The choice made by [self.pool.pop()]. *)
Variable pick : gset Z → Z.

Definition startRequest (future : Fid) (s : AsyncoreProtocol)
  : Z * AsyncoreProtocol :=
  let '(n, s) :=
    if decide (size (pool s) ≠ 0%nat)
    then let '(n, p) := set_pop pick (pool s) in (n, set_pool p s)
    else (nextRequest s, set_nextRequest (nextRequest s + 1) s) in
  (n, set_requests (<[n := future]> (requests s)) s).

(** The body of [terminate], over the [flushCommands] it calls.  The flush
    and the loop over the futures are in the [finally] of the [try] around
    [self.close()], so they run whether or not [close] raises. *)
Definition terminate_with (flush : AsyncoreProtocol → AsyncoreProtocol * bool)
    (reason : Cause) (s : AsyncoreProtocol) : AsyncoreProtocol :=
  let s := set_alive false s in
  let s := close s in
  let s := (flush s).1 in
  fail_all reason s.

(** The loop of [flushCommands] on the commands [q] still in the queue.
    [flushCommands] and [terminate] call each other; the recursion is on
    the queue, which [get_nowait] shortens on every turn. *)
Fixpoint drain (q : list Command) (s : AsyncoreProtocol)
  : AsyncoreProtocol * bool :=
  match q with
  | [] => (s, true)
  | command :: q' =>
      let s := set_queue q' s in
      match command with
      | CmdNone =>
          (terminate_with (drain q') (CauseStr "Connection closed") s, false)
      | CmdRaw data =>
          drain q' (set_buffer (buffer s +:+ data) s)
      | CmdPacket target context flatrecs future =>
          let '(request, s) :=
            match future with
            | None => (0, s)
            | Some d => startRequest d s
            end in
          let data := flattenPacket target context request flatrecs in
          drain q' (set_buffer (buffer s +:+ data) s)
      end
  end.

Definition flushCommands (s : AsyncoreProtocol) : AsyncoreProtocol * bool :=
  drain (queue s) s.

Definition terminate (reason : Cause) (s : AsyncoreProtocol) : AsyncoreProtocol :=
  terminate_with flushCommands reason s.

Definition handle_error (s : AsyncoreProtocol) : AsyncoreProtocol :=
  terminate (CauseExc (Exception "AsyncoreProtocol error")) s.

Definition handle_close (s : AsyncoreProtocol) : AsyncoreProtocol :=
  terminate (CauseExc (Exception "Connection lost")) s.

(** [handle_write]; [sent] is what [self.send] returns. *)
Definition handle_write (sent : nat) (s : AsyncoreProtocol) : AsyncoreProtocol :=
  let '(s, ok) := flushCommands s in
  if ok then set_buffer (string_from sent (buffer s)) s else s.

End Engine.

(** ** Runs of the engine *)

(** What happens to the engine: calls from caller threads ([enqueue],
    [drop], a raw [str] put on the queue) and the callbacks that
    [asyncore.loop] makes on the I/O thread.  A [send] or [recv] that finds
    the connection gone calls [handle_close] itself; that is the event
    [EvClose] next to the write or read.  The callbacks that may reach
    [startRequest] carry the choice of [set.pop]; within one callback the
    pool only shrinks, so no two calls of [pop] see the same set. *)
Inductive Event :=
| EvEnqueue (target : Ident) (context : Context) (flatrecs : string)
            (future : option Fid)
| EvPutRaw (data : string)
| EvDrop
| EvWrite (pick : gset Z → Z) (sent : nat)
| EvRead (pkts : list Packet)
| EvError (pick : gset Z → Z)
| EvClose (pick : gset Z → Z).

Section Runs.

Variable flattenPacket : Ident → Context → Z → string → string.

Definition step (ev : Event) (s : AsyncoreProtocol) : AsyncoreProtocol :=
  match ev with
  | EvEnqueue target context flatrecs future =>
      (enqueue target context flatrecs future s).2
  | EvPutRaw data => set_queue (queue s ++ [CmdRaw data]) s
  | EvDrop => drop s
  | EvWrite pick sent => handle_write flattenPacket pick sent s
  | EvRead pkts => handle_read pkts s
  | EvError pick => handle_error flattenPacket pick s
  | EvClose pick => handle_close flattenPacket pick s
  end.

Fixpoint run (evs : list Event) (s : AsyncoreProtocol) : AsyncoreProtocol :=
  match evs with
  | [] => s
  | ev :: evs' => run evs' (step ev s)
  end.

Inductive reachable : AsyncoreProtocol → Prop :=
| reachable_init : reachable init
| reachable_step s ev : reachable s → reachable (step ev s).

End Runs.

(** ** The facade: [class BaseConnection] and [class AsyncoreConnection] *)

(** [self.loop], the thread that runs [asyncore.loop]. *)
Inductive LoopThread :=
| NoThread
| Started
| Joined.

(** The attributes that [_connect] adds to the object, in the order in
    which it adds them: [self.serverCache] and [self.settingCache] once the
    TLS check has passed, and after them the engine [self.cxn].  No other
    line assigns these attributes, so an object has none of them, or the
    two caches, or the two caches and the engine. *)
Inductive Attrs :=
| NoCaches
| Caches (servers : gmap string Z) (settings : gmap Z (gmap string Z))
         (engine : option AsyncoreProtocol).

Record AsyncoreConnection := mkConnection {
  name : string;
  connected : bool;
  _nextContext : Z;
  host : string;
  port : option Z;
  ID : option Data;
  attrs : Attrs;
  loop : LoopThread;
  loginMessage : option Data;
  (** The identity that the next [Future()] gets. *)
  nextFuture : Fid
}.

(** [self.serverCache], [self.settingCache] and [self.cxn], where the
    object has them. *)
Definition serverCache (c : AsyncoreConnection) : option (gmap string Z) :=
  match attrs c with
  | Caches servers _ _ => Some servers
  | NoCaches => None
  end.
Definition settingCache (c : AsyncoreConnection)
  : option (gmap Z (gmap string Z)) :=
  match attrs c with
  | Caches _ settings _ => Some settings
  | NoCaches => None
  end.
Definition cxn (c : AsyncoreConnection) : option AsyncoreProtocol :=
  match attrs c with
  | Caches _ _ engine => engine
  | NoCaches => None
  end.

Definition set_connected (b : bool) (c : AsyncoreConnection) :=
  mkConnection (name c) b (_nextContext c) (host c) (port c) (ID c)
    (attrs c) (loop c) (loginMessage c) (nextFuture c).
Definition set__nextContext (n : Z) (c : AsyncoreConnection) :=
  mkConnection (name c) (connected c) n (host c) (port c) (ID c)
    (attrs c) (loop c) (loginMessage c) (nextFuture c).
Definition set_host_port (h : string) (p : option Z) (c : AsyncoreConnection) :=
  mkConnection (name c) (connected c) (_nextContext c) h p (ID c)
    (attrs c) (loop c) (loginMessage c) (nextFuture c).
Definition set_ID (i : Data) (c : AsyncoreConnection) :=
  mkConnection (name c) (connected c) (_nextContext c) (host c) (port c) (Some i)
    (attrs c) (loop c) (loginMessage c) (nextFuture c).
Definition set_attrs (a : Attrs) (c : AsyncoreConnection) :=
  mkConnection (name c) (connected c) (_nextContext c) (host c) (port c) (ID c)
    a (loop c) (loginMessage c) (nextFuture c).
(** [self.serverCache = {}; self.settingCache = {}], the two assignments of
    [_connect]: the caches are made, or made anew. *)
Definition set_caches (servers : gmap string Z)
    (settings : gmap Z (gmap string Z)) (c : AsyncoreConnection) :=
  set_attrs (Caches servers settings (cxn c)) c.
(** A change of a cache that is there ([self.serverCache[k] = v] and the
    like), and of the engine that is there or made after the caches. *)
Definition set_serverCache (m : gmap string Z) (c : AsyncoreConnection) :=
  set_attrs (match attrs c with
             | Caches _ settings engine => Caches m settings engine
             | NoCaches => NoCaches
             end) c.
Definition set_settingCache (m : gmap Z (gmap string Z)) (c : AsyncoreConnection) :=
  set_attrs (match attrs c with
             | Caches servers _ engine => Caches servers m engine
             | NoCaches => NoCaches
             end) c.
Definition set_cxn (s : AsyncoreProtocol) (c : AsyncoreConnection) :=
  set_attrs (match attrs c with
             | Caches servers settings _ => Caches servers settings (Some s)
             | NoCaches => NoCaches
             end) c.
Definition set_loop (t : LoopThread) (c : AsyncoreConnection) :=
  mkConnection (name c) (connected c) (_nextContext c) (host c) (port c) (ID c)
    (attrs c) t (loginMessage c) (nextFuture c).
Definition set_loginMessage (m : Data) (c : AsyncoreConnection) :=
  mkConnection (name c) (connected c) (_nextContext c) (host c) (port c) (ID c)
    (attrs c) (loop c) (Some m) (nextFuture c).
Definition set_nextFuture (d : Fid) (c : AsyncoreConnection) :=
  mkConnection (name c) (connected c) (_nextContext c) (host c) (port c) (ID c)
    (attrs c) (loop c) (loginMessage c) d.

(** [BaseConnection.__init__], with [name] already defaulted: it sets
    [name], [connected] and [_nextContext], and none of the attributes of
    [_connect]. *)
Definition new_connection (name : string) : AsyncoreConnection :=
  mkConnection name false 1 "" None None NoCaches NoThread None 0%nat.

(** Methods of the facade are state transformers with an outcome. *)
Definition M (A : Type) : Type :=
  AsyncoreConnection → Result A * AsyncoreConnection.

Definition ret {A} (a : A) : M A := λ c, (Ok a, c).
Definition raise {A} (e : PyExc) : M A := λ c, (Raise e, c).
Definition bind {A B} (m : M A) (k : A → M B) : M B :=
  λ c, match m c with
       | (Ok a, c') => k a c'
       | (Raise e, c') => (Raise e, c')
       | (Hang, c') => (Hang, c')
       end.
(** [try: m except Exception, e: h e]. *)
Definition try_except {A} (m : M A) (h : PyExc → M A) : M A :=
  λ c, match m c with
       | (Raise e, c') => h e c'
       | r => r
       end.
Definition modify (f : AsyncoreConnection → AsyncoreConnection) : M unit :=
  λ c, (Ok tt, f c).

Notation "'let*' x ':=' m 'in' k" := (bind m (λ x, k))
  (at level 10, x pattern, m at level 100, k at level 200).

(** [context]. *)
Definition context : M Context :=
  λ c, (Ok (0, _nextContext c), set__nextContext (_nextContext c + 1) c).

(** [resp[0][1]] on a list of records. *)
Definition first_payload (resp : list Reply) : M Data :=
  match resp with
  | r :: _ => ret r.2
  | [] => raise (IndexError "list index out of range")
  end.

(** [resp[0]] on a [Future]: the class has no [__getitem__]. *)
Definition Future_getitem {A} (resp : Fid) : M A :=
  raise (TypeError "'Future' object does not support indexing").

Definition is_Name (i : Ident) : bool :=
  match i with Name _ => true | Num _ => false end.

(** The server as it is sent in the payload of a lookup. *)
Definition Ident_data (i : Ident) : Data :=
  match i with Name s => DStr s | Num n => DWord n end.

(** Reading [self.serverCache] and [self.settingCache]: an object that
    [_connect] has not given its caches has no such attribute. *)
Definition get_serverCache : M (gmap string Z) :=
  λ c, match serverCache c with
       | Some cache => (Ok cache, c)
       | None =>
           (Raise (AttributeError
              "'AsyncoreConnection' object has no attribute 'serverCache'"), c)
       end.
Definition get_settingCache : M (gmap Z (gmap string Z)) :=
  λ c, match settingCache c with
       | Some cache => (Ok cache, c)
       | None =>
           (Raise (AttributeError
              "'AsyncoreConnection' object has no attribute 'settingCache'"), c)
       end.

(** [_lookupNames], first step: a server name found in the server cache is
    replaced by its ID. *)
Definition resolve_server (cache : gmap string Z) (server : Ident) : Ident :=
  match server with
  | Name s =>
      match cache !! s with
      | Some id => Num id
      | None => server
      end
  | Num _ => server
  end.

(** [_lookupNames], second step: with a setting cache for the server, the
    setting names found there are replaced by their IDs. *)
Definition substitute_settings (cache : gmap Z (gmap string Z))
    (server : Ident) (records : list Record_) : list Record_ :=
  match (match server with
         | Num id => cache !! id
         | Name _ => None
         end) with
  | Some settings =>
      (λ rec : Record_,
         match rec.1 with
         | Name nm =>
             match settings !! nm with
             | Some id => (Num id, rec.2)
             | None => rec
             end
         | Num _ => rec
         end) <$> records
  | None => records
  end.

(** The two steps on the caches of a facade. *)
Definition cached_server (c : AsyncoreConnection) (server : Ident) : Ident :=
  match serverCache c with
  | Some cache => resolve_server cache server
  | None => server
  end.
Definition cached_settings (c : AsyncoreConnection) (server : Ident)
    (records : list Record_) : list Record_ :=
  match settingCache c with
  | Some cache => substitute_settings cache server records
  | None => records
  end.

(** [[(i, rec[0]) for i, rec in enumerate(records) if isinstance(rec[0], str)]]. *)
Definition settingLookups (records : list Record_) : list (nat * string) :=
  omap (λ ir : nat * Record_,
          match ir.2.1 with
          | Name nm => Some (ir.1, nm)
          | Num _ => None
          end) (imap pair records).

(** The test [isinstance(server, str) or len(settingLookups)], on the
    arguments of [_lookupNames]. *)
Definition needs_lookup (c : AsyncoreConnection) (server : Ident)
    (records : list Record_) : bool :=
  let server := cached_server c server in
  let records := cached_settings c server records in
  is_Name server ||
  match settingLookups records with [] => false | _ => true end.

(** What the facade takes from outside [backend.py]: the constants and
    [check_tls_mode] of [labrad.constants], the codec of [labrad.stream],
    [getPassword] of [labrad.support], [hashlib.md5], and the outcome of
    [socket.create_connection]. *)
Record Environment := mkEnvironment {
  check_tls_mode : string → Result string;
  MANAGER_ID : Z;
  MANAGER_PORT : Z;
  MANAGER_PORT_TLS : Z;
  LOOKUP : Z;
  flattenRecords : list Record_ → string;
  flattenPacket : Ident → Context → Z → string → string;
  getPassword : string;
  md5 : string → string;
  create_connection : string → Z → Z → Result unit
}.

(** What the I/O thread and the other callers do to the engine while the
    caller of [connect] or [disconnect] waits: during each of the three
    [result()] of [login], and during the [join()] of [_disconnect]. *)
Record Schedule := mkSchedule {
  io_challenge : list Event;
  io_password : list Event;
  io_ident : list Event;
  io_join : list Event
}.

Section Facade.

Variable env : Environment.

(** [_sendPacket]. *)
Definition _sendPacket (target : Ident) (context : Context)
    (records : list Record_) (future : option Fid) : M unit :=
  λ c,
    let flatrecs := flattenRecords env records in
    match cxn c with
    | None =>
        (Raise (AttributeError "cxn"), set_connected false c)
    | Some s =>
        match enqueue target context flatrecs future s with
        | (Ok _, s') => (Ok tt, set_cxn s' c)
        | (Raise e, s') => (Raise e, set_connected false (set_cxn s' c))
        | (Hang, s') => (Hang, set_cxn s' c)
        end
    end.

(** [_sendRequestNoLookup]. *)
Definition _sendRequestNoLookup (target : Ident) (records : list Record_)
    (context : Context) (timeout : option Z) : M Fid :=
  λ c,
    let d := nextFuture c in
    let c := set_nextFuture (S d) c in
    match timeout with
    | Some _ =>
        (Raise (Exception "Timeouts not supported in asyncore backend"), c)
    | None =>
        (let* _ := _sendPacket target context records (Some d) in ret d) c
    end.

(** [settings.update(zip(names, IDs))]. *)
Definition dict_update (settings : gmap string Z) (items : list (string * Z))
  : gmap string Z :=
  foldl (λ m kv, <[kv.1 := kv.2]> m) settings items.

(** [[(C.LOOKUP, (server, names), ['w*s', 's*s'])]]. *)
Definition lookup_records (server : Ident) (names : list string) : list Record_ :=
  [(Num (LOOKUP env),
    (DCluster [Ident_data server; DCluster (DStr <$> names)], ["w*s"; "s*s"]))].

(** [_lookupNames]. *)
Definition _lookupNames (server : Ident) (records : list Record_)
  : M (Ident * list Record_) :=
  (* try to lookup server in cache *)
  let* server :=
    match server with
    | Name _ =>
        let* cache := get_serverCache in
        ret (resolve_server cache server)
    | Num _ => ret server
    end in
  (* try to lookup settings in cache *)
  let* cache := get_settingCache in
  let records := substitute_settings cache server records in
  (* check to see whether there is still anything to look up *)
  let lookups := settingLookups records in
  if is_Name server || match lookups with [] => false | _ => true end
  then
    let indices := lookups.*1 in
    let names := lookups.*2 in
    (* send the actual lookup request *)
    let recs := lookup_records server names in
    let* resp := _sendRequestNoLookup (Num (MANAGER_ID env)) recs (0, 0) None in
    let* (serverID, IDs) := Future_getitem (A := Z * list Z) resp in
    (* cache the results *)
    let* _ :=
      match server with
      | Name s =>
          let* cache := get_serverCache in
          modify (set_serverCache (<[s := serverID]> cache))
      | Num _ => ret tt
      end in
    let server := Num serverID in
    let* cache := get_settingCache in
    let settings := default ∅ (cache !! serverID) in
    let* _ := modify (set_settingCache
                        (<[serverID := dict_update settings (zip names IDs)]>
                           cache)) in
    (* update the records for the packet *)
    let records :=
      foldl (λ (recs : list Record_) (ii : nat * Z),
               match recs !! ii.1 with
               | Some rec => <[ii.1 := (Num ii.2, rec.2)]> recs
               | None => recs
               end) records (zip indices IDs) in
    ret (server, records)
  else ret (server, records).

(** [sendRequest]. *)
Definition sendRequest (target : Ident) (records : list Record_)
    (context : Context) (timeout : option Z) : M Fid :=
  let* (target, records) := _lookupNames target records in
  _sendRequestNoLookup target records context timeout.

(** [sendMessage]. *)
Definition sendMessage (target : Ident) (records : list Record_)
    (context : Context) : M unit :=
  let* (target, records) := _lookupNames target records in
  _sendPacket target context records None.

(** [Future.result()]: the caller waits while [io] happens to the engine,
    then takes the outcome; raising a [str] is a [TypeError] in Python 2. *)
Definition result (d : Fid) (io : list Event) : M (list Reply) :=
  λ c,
    match cxn c with
    | None => (Raise (AttributeError "cxn"), c)
    | Some s =>
        let s := run (flattenPacket env) io s in
        let c := set_cxn s c in
        match future_state s d with
        | Finished records => (Ok records, c)
        | Failed (CauseExc e) => (Raise e, c)
        | Failed (CauseStr _) =>
            (Raise (TypeError "exceptions must be old-style classes or derived from BaseException, not str"), c)
        | Pending => (Hang, c)
        end
    end.

(** [m.update(challenge)] takes a [str]. *)
Definition as_str (v : Data) : M string :=
  match v with
  | DStr s => ret s
  | _ => raise (TypeError "must be string or buffer")
  end.

(** [login]. *)
Definition login (password : option string) (ident : list string)
    (sched : Schedule) : M Data :=
  (* send login packet *)
  let* d := sendRequest (Num (MANAGER_ID env)) [] (0, 0) None in
  let* resp := result d (io_challenge sched) in
  let* challenge := first_payload resp in
  (* send password response *)
  let password := default (getPassword env) password in
  let* challenge := as_str challenge in
  let digest := md5 env (challenge +:+ password) in
  let* resp :=
    try_except
      (let* d := sendRequest (Num (MANAGER_ID env)) [(Num 0, (DStr digest, []))]
                   (0, 0) None in
       result d (io_password sched))
      (λ _, raise (LoginFailedError (ArgStr "Incorrect password."))) in
  let* message := first_payload resp in
  let* _ := modify (set_loginMessage message) in
  (* send identification *)
  let* resp :=
    try_except
      (let* d := sendRequest (Num (MANAGER_ID env))
                   [(Num 0, (DCluster (DWord 1 :: (DStr <$> ident)), []))]
                   (0, 0) None in
       result d (io_ident sched))
      (λ _, raise (LoginFailedError (ArgStr "Bad identification."))) in
  first_payload resp.

(** [_disconnect]: [drop], then [join], which returns once [asyncore.loop]
    has ended, that is once the socket is closed. *)
Definition _disconnect (sched : Schedule) : M unit :=
  λ c,
    match cxn c with
    | None => (Raise (AttributeError "cxn"), c)
    | Some s =>
        let s := drop s in
        let s := run (flattenPacket env) (io_join sched) s in
        if closed s then (Ok tt, set_loop Joined (set_cxn s c))
        else (Hang, set_cxn s c)
    end.

(** [BaseConnection.disconnect]. *)
Definition disconnect (sched : Schedule) : M unit :=
  λ c,
    if connected c
    then (let* _ := _disconnect sched in modify (set_connected false)) c
    else (Ok tt, c).

(** [except LoginFailedError: raise] and
    [except Exception, e: raise LoginFailedError(e)]. *)
Definition as_login_failure (e : PyExc) : PyExc :=
  match e with
  | LoginFailedError _ => e
  | _ => LoginFailedError (ArgExc e)
  end.

(** [AsyncoreConnection._connect]. *)
Definition _connect (password : option string) (timeout : option Z)
    (tls_mode : string) (sched : Schedule) : M Data :=
  let* tls_mode := (λ c, (check_tls_mode env tls_mode, c)) in
  if String.eqb tls_mode "on"
  then raise (Exception "TLS is not currently supported with the asyncore backend")
  else
    let* _ := modify (λ c, set_caches ∅ ∅ (set_connected false c)) in
    λ c,
      let port := match port c with
                  | None => if String.eqb tls_mode "on"
                            then MANAGER_PORT_TLS env else MANAGER_PORT env
                  | Some p => p
                  end in
      let timeout := match timeout with
                     | Some t => if t =? 0 then 5 else t
                     | None => 5
                     end in
      try_except
        (let* _ := (λ c, (create_connection env (host c) port timeout, c)) in
         let* _ := modify (λ c, set_loop Started (set_cxn init c)) in
         try_except
           (login password [name c] sched)
           (λ e, let* _ := disconnect sched in raise e))
        (λ e, raise (as_login_failure e)) c.

(** [BaseConnection.connect]. *)
Definition connect (host : string) (port : option Z) (timeout : option Z)
    (password : option string) (tls_mode : string) (sched : Schedule) : M unit :=
  let* _ := modify (set_host_port host port) in
  let* id := _connect password timeout tls_mode sched in
  let* _ := modify (set_ID id) in
  modify (set_connected true).

End Facade.

(** ** The vocabulary of the properties *)

(** [fail_all] along a list of futures. *)
Definition fail_list (reason : Cause) (l : list Fid) (s : AsyncoreProtocol) :=
  foldl (λ s d, set_exception d reason s) s l.

(** IDs in the pool are not keys of the table; the pool and the table
    together hold exactly the IDs below the counter; and so their sizes add
    up to the number of IDs the counter has handed out. *)
Definition inv (s : AsyncoreProtocol) : Prop :=
  (∀ n, n ∈ pool s → requests s !! n = None) ∧
  (∀ n, n ∈ pool s ∨ is_Some (requests s !! n) ↔ 1 ≤ n < nextRequest s) ∧
  Z.of_nat (size (requests s)) + Z.of_nat (size (pool s)) = nextRequest s - 1.

(** What the I/O thread's sending side may do to the table, the pool, the
    counter and the futures: entries are kept, the pool only shrinks, the
    counter only grows and stays below the size of the table unless it did
    not move, and no future goes back to pending. *)
Definition extends (s s' : AsyncoreProtocol) : Prop :=
  requests s ⊆ requests s' ∧
  pool s' ⊆ pool s ∧
  nextRequest s ≤ nextRequest s' ∧
  nextRequest s' - 1 ≤ Z.max (nextRequest s - 1) (Z.of_nat (size (requests s'))) ∧
  (∀ d, future_state s d ≠ Pending → future_state s' d ≠ Pending).

(** [inv] and [extends] look at the table, the pool, the counter and the
    futures only. *)
Definition core (s : AsyncoreProtocol) :=
  (requests s, pool s, nextRequest s, futures s).

(** The state a termination with [reason] leaves behind: the engine is
    dead, the socket closed, the queue empty, and every future held in the
    table failed with [reason]. *)
Definition terminated (reason : Cause) (s : AsyncoreProtocol) : Prop :=
  alive s = false ∧ closed s = true ∧ queue s = [] ∧
  ∀ n d, requests s !! n = Some d → future_state s d = Failed reason.

(** What the receiving side may do: entries leave the table, and then
    their ID is in the pool and their future is set; nothing else enters
    the pool; no future goes back to pending. *)
Definition releases (s s' : AsyncoreProtocol) : Prop :=
  (∀ n d, requests s' !! n = Some d → requests s !! n = Some d) ∧
  pool s ⊆ pool s' ∧
  (∀ n d, requests s !! n = Some d → requests s' !! n = None →
          n ∈ pool s' ∧ future_state s' d ≠ Pending) ∧
  (∀ n, n ∈ pool s' → n ∈ pool s ∨
        (is_Some (requests s !! n) ∧ requests s' !! n = None)) ∧
  (∀ d, future_state s d ≠ Pending → future_state s' d ≠ Pending) ∧
  nextRequest s' = nextRequest s ∧ alive s' = alive s ∧
  queue s' = queue s ∧ closed s' = closed s.

(** In the words of the specification: the first record, in record
    order, whose payload is an error.  The source takes the head of the
    list [error_payloads]. *)
Fixpoint first_error (records : list Reply) : option PyExc :=
  match records with
  | [] => None
  | r :: rest =>
      match r.2 with
      | DError e => Some e
      | _ => first_error rest
      end
  end.

(** A codec and a choice function to run the model on concrete inputs: the
    packet is rendered as its flattened records, and [pop] takes the first
    element of the set. *)
Definition sample_flattenPacket (target : Ident) (context : Context)
    (request : Z) (flatrecs : string) : string := flatrecs.
Definition sample_pick (p : gset Z) : Z := 0.

Section RunVocabulary.

Variable flattenPacket : Ident → Context → Z → string → string.

(** The largest number of entries the request table has in any state of the
    run of [evs] from [s]. *)
Fixpoint peak (evs : list Event) (s : AsyncoreProtocol) : nat :=
  match evs with
  | [] => size (requests s)
  | ev :: evs' =>
      Nat.max (size (requests s)) (peak evs' (step flattenPacket ev s))
  end.

(** The IDs given to a request during the run: the keys that entered the
    request table in some step. *)
Fixpoint ever_allocated (evs : list Event) (s : AsyncoreProtocol) : gset Z :=
  match evs with
  | [] => ∅
  | ev :: evs' =>
      (dom (requests (step flattenPacket ev s)) ∖ dom (requests s))
      ∪ ever_allocated evs' (step flattenPacket ev s)
  end.

(** The futures that a successful call of [enqueue] took during the run. *)
Fixpoint accepted (evs : list Event) (s : AsyncoreProtocol) : list Fid :=
  match evs with
  | [] => []
  | ev :: evs' =>
      match ev with
      | EvEnqueue _ _ _ (Some d) => if alive s then [d] else []
      | _ => []
      end ++ accepted evs' (step flattenPacket ev s)
  end.

(** The future that an event gives to [enqueue], and the future that
    [enqueue] takes in state [s]: it takes none when the engine is dead. *)
Definition given (ev : Event) : list Fid :=
  match ev with
  | EvEnqueue _ _ _ (Some d) => [d]
  | _ => []
  end.
Definition taken (ev : Event) (s : AsyncoreProtocol) : list Fid :=
  if alive s then given ev else [].

(** The futures given to [enqueue] during the run, accepted or not. *)
Fixpoint enqueued (evs : list Event) : list Fid :=
  match evs with
  | [] => []
  | ev :: evs' => given ev ++ enqueued evs'
  end.

Definition is_pending (f : FutureState) : bool :=
  match f with Pending => true | _ => false end.

(** The requests outstanding in state [s], among those whose futures [l]
    [enqueue] has accepted: a request is outstanding until its future is
    completed or failed.  This is what a caller sees, whatever the engine
    keeps in its table. *)
Fixpoint outstanding (s : AsyncoreProtocol) (l : list Fid) : nat :=
  match l with
  | [] => 0
  | d :: l' =>
      ((if is_pending (future_state s d) then 1 else 0) + outstanding s l')%nat
  end.

(** The largest number of requests outstanding at any moment of the run of
    [evs] from [s], where [l] are the futures accepted before. *)
Fixpoint outstanding_peak (evs : list Event) (s : AsyncoreProtocol)
    (l : list Fid) : nat :=
  match evs with
  | [] => outstanding s l
  | ev :: evs' =>
      Nat.max (outstanding s l)
        (outstanding_peak evs' (step flattenPacket ev s) (l ++ taken ev s))
  end.

Definition max_outstanding (evs : list Event) : nat :=
  outstanding_peak evs init [].

(** The requests that wait in the queue. *)
Fixpoint queued_requests (q : list Command) : nat :=
  match q with
  | [] => 0
  | CmdPacket _ _ _ (Some _) :: q' => S (queued_requests q')
  | _ :: q' => queued_requests q'
  end.

(** One request and its reply: the caller enqueues the request, the I/O
    thread flushes the queue and sends, and then reads the reply, whose
    tag is minus the ID that the flush gave the request. *)
Record Trip := mkTrip {
  t_pick : gset Z → Z;
  t_sent : nat;
  t_future : Fid;
  t_target : Ident;
  t_context : Context;
  t_flatrecs : string;
  t_source : Z;
  t_records : list Reply
}.

Definition round_trip (t : Trip) (s : AsyncoreProtocol) : AsyncoreProtocol :=
  let n := (startRequest (t_pick t) (t_future t)
              (flushCommands flattenPacket (t_pick t) s).1).1 in
  let s := (enqueue (t_target t) (t_context t) (t_flatrecs t)
              (Some (t_future t)) s).2 in
  let s := handle_write flattenPacket (t_pick t) (t_sent t) s in
  handle_read [mkPacket (t_source t) (t_context t) (- n) (t_records t)] s.

(** Round trips one after the other: each request is answered before the
    next one is made. *)
Fixpoint round_trips (trips : list Trip) (s : AsyncoreProtocol)
  : AsyncoreProtocol :=
  match trips with
  | [] => s
  | t :: trips' => round_trips trips' (round_trip t s)
  end.

End RunVocabulary.

(** A future that was taken by [enqueue] is waiting in the queue, or held in
    the request table, or set. *)
Definition tracked (d : Fid) (s : AsyncoreProtocol) : Prop :=
  (∃ target context flatrecs,
      CmdPacket target context flatrecs (Some d) ∈ queue s) ∨
  (∃ n, requests s !! n = Some d) ∨
  future_state s d ≠ Pending.

(** What [_lookupNames] raises on an object without the caches: the first
    cache it reads is the server cache for a server name, and the setting
    cache for a server ID. *)
Definition no_cache_error (server : Ident) : PyExc :=
  match server with
  | Name _ =>
      AttributeError "'AsyncoreConnection' object has no attribute 'serverCache'"
  | Num _ =>
      AttributeError "'AsyncoreConnection' object has no attribute 'settingCache'"
  end.

(** A method keeps a property of the facade. *)
Definition preserves {A} (P : AsyncoreConnection → Prop) (m : M A) : Prop :=
  ∀ c, P c → P (m c).2.

(** The facade during [_connect]: [connected] is [False], and the I/O
    thread has not been joined. *)
Definition connecting (c : AsyncoreConnection) : Prop :=
  connected c = false ∧ loop c ≠ Joined.

(** ** The vocabulary of the further properties *)

(** [buffer[:sent]]. *)
Fixpoint string_upto (sent : nat) (b : string) : string :=
  match sent, b with
  | O, _ => EmptyString
  | S k, String a b' => String a (string_upto k b')
  | S _, EmptyString => EmptyString
  end.

(** What [handleResponse] sets on the future of a reply with [records]. *)
Definition delivered (records : list Reply) : FutureState :=
  match error_payloads records with
  | e :: _ => Failed (CauseExc e)
  | [] => Finished records
  end.

(** The engine holds the future [d]: in a request that waits in the queue,
    or in the request table. *)
Definition held (d : Fid) (s : AsyncoreProtocol) : Prop :=
  (∃ target context flatrecs,
      CmdPacket target context flatrecs (Some d) ∈ queue s) ∨
  (∃ n, requests s !! n = Some d).

(** The futures [l] that [enqueue] has accepted, among the futures [given]
    to it, account for what the engine holds: no future was accepted
    twice; a future that was never given to [enqueue] is pending and not
    held; and while the engine is alive, the requests in the table and in
    the queue are not more than the outstanding ones. *)
Definition accounted (s : AsyncoreProtocol) (l given : list Fid) : Prop :=
  NoDup l ∧ (∀ d, d ∈ l → d ∈ given) ∧
  (∀ d, d ∉ given → future_state s d = Pending ∧ ¬ held d s) ∧
  (alive s = true →
   (size (requests s) + queued_requests (queue s) ≤ outstanding s l)%nat).

(** The event is a call of [enqueue] with the future [d]. *)
Definition enqueues (d : Fid) (ev : Event) : Prop :=
  ∃ target context flatrecs, ev = EvEnqueue target context flatrecs (Some d).

(** The command is a tuple put by [enqueue]. *)
Definition is_packet (command : Command) : bool :=
  match command with
  | CmdPacket _ _ _ _ => true
  | _ => false
  end.

(** [n] calls of [context], one after the other. *)
Fixpoint contexts (n : nat) : M (list Context) :=
  match n with
  | O => ret []
  | S k =>
      let* x := context in
      let* rest := contexts k in
      ret (x :: rest)
  end.

(** [_connect] after the TLS check: the state it starts from, and the port
    and the timeout it gives to [socket.create_connection]. *)
Definition fresh_caches (c : AsyncoreConnection) : AsyncoreConnection :=
  set_caches ∅ ∅ (set_connected false c).
Definition connect_port (env : Environment) (c : AsyncoreConnection) : Z :=
  default (MANAGER_PORT env) (port c).
Definition connect_timeout (timeout : option Z) : Z :=
  match timeout with
  | Some t => if t =? 0 then 5 else t
  | None => 5
  end.

(** ** Concrete inputs *)

(** An environment to run the facade on concrete inputs: every TLS mode is
    passed through, the constants are those of a LabRAD manager, records
    are flattened to ["r"], and the socket always opens. *)
Definition sample_env : Environment :=
  mkEnvironment (λ mode, Ok mode) 1 7682 7643 3 (λ _, "r")
    sample_flattenPacket "pw" (λ s, s) (λ _ _ _, Ok tt).

(** A connected facade on a fresh engine, with empty caches. *)
Definition sample_connection : AsyncoreConnection :=
  set_connected true
    (set_loop Started (set_cxn init (set_caches ∅ ∅ (new_connection "cli")))).

(** The manager answers the first request of the handshake with a
    challenge and the password digest with an error, and goes on
    listening. *)
Definition wrong_password : Schedule :=
  mkSchedule
    [EvWrite sample_pick 100;
     EvRead [mkPacket 1 (0, 0) (-1) [(0, DStr "challenge")]]]
    [EvWrite sample_pick 100;
     EvRead [mkPacket 1 (0, 0) (-1) [(0, DError (RemoteError 2 "Incorrect password"))]]]
    [] [].

(** A run of the engine: two requests are sent, the first is answered. *)
Definition sample_events : list Event :=
  [EvEnqueue (Num 5) (0, 1) "a" (Some 7%nat);
   EvEnqueue (Num 5) (0, 1) "b" (Some 8%nat);
   EvWrite sample_pick 1;
   EvRead [mkPacket 5 (0, 1) (-1) [(3, DWord 4)]]].

Definition sample_state : AsyncoreProtocol :=
  run sample_flattenPacket sample_events init.

(** The same run before the answer: both requests are in the table. *)
Definition sample_pending : AsyncoreProtocol :=
  run sample_flattenPacket
    [EvEnqueue (Num 5) (0, 1) "a" (Some 7%nat);
     EvEnqueue (Num 5) (0, 1) "b" (Some 8%nat);
     EvWrite sample_pick 1] init.

(** A facade whose engine has lost its connection. *)
Definition lost_connection : AsyncoreConnection :=
  set_cxn (handle_close sample_flattenPacket sample_pick init) sample_connection.

(** The engine after [sendRequest] of one record with numeric IDs on the
    sample connection, and a flush. *)
Definition sent_request : AsyncoreProtocol :=
  handle_write sample_flattenPacket sample_pick 1
    (default init
       (cxn (sendRequest sample_env (Num 5) [(Num 3, (DNone, []))] (0, 0) None
               sample_connection).2)).


(** The connection is lost while [login] waits for the challenge. *)
Definition connection_lost : Schedule :=
  mkSchedule [EvClose sample_pick] [] [] [].


(** The replies to the two requests of the sample run, the second first. *)
Definition sample_replies : list Packet :=
  [mkPacket 5 (0, 1) (-2) [(3, DWord 9)];
   mkPacket 5 (0, 1) (-1) [(3, DWord 4)]].

(** Three requests, each sent and answered before the next is made. *)
Definition three_round_trips : list Event :=
  [EvEnqueue (Num 5) (0, 1) "a" (Some 7%nat);
   EvWrite sample_pick 1;
   EvRead [mkPacket 5 (0, 1) (-1) [(3, DWord 4)]];
   EvEnqueue (Num 5) (0, 1) "b" (Some 8%nat);
   EvWrite sample_pick 1;
   EvRead [mkPacket 5 (0, 1) (-1) [(3, DWord 5)]];
   EvEnqueue (Num 5) (0, 1) "c" (Some 9%nat);
   EvWrite sample_pick 1;
   EvRead [mkPacket 5 (0, 1) (-1) [(3, DWord 6)]]].

(** * Proofs *)

(** ** Basic facts on the engine's operations *)

Lemma set_pop_elem pick (p : gset Z) :
  p ≠ ∅ → (set_pop pick p).1 ∈ p.
Proof.
  intros Hne. unfold set_pop. simpl.
  destruct (decide (pick p ∈ p)) as [Hin | _]; [exact Hin |].
  destruct (elements p) as [| x l] eqn:E.
  - apply elements_empty_inv in E. apply leibniz_equiv in E. contradiction.
  - simpl. apply elem_of_elements. rewrite E. left.
Qed.

Lemma set_pop_rest pick (p : gset Z) :
  (set_pop pick p).2 = p ∖ {[(set_pop pick p).1]}.
Proof. reflexivity. Qed.

Lemma fail_list_frame reason l s :
  let s' := fail_list reason l s in
  alive s' = alive s ∧ nextRequest s' = nextRequest s ∧
  requests s' = requests s ∧ pool s' = pool s ∧ queue s' = queue s ∧
  buffer s' = buffer s ∧ closed s' = closed s.
Proof.
  revert s. induction l as [| d l IH]; intros s; simpl; [tauto |].
  destruct (IH (set_exception d reason s)) as (?&?&?&?&?&?&?).
  simpl in *. tauto.
Qed.

Lemma fail_list_futures reason l s d :
  futures (fail_list reason l s) !! d =
  if decide (d ∈ l) then Some (Failed reason) else futures s !! d.
Proof.
  revert s. induction l as [| d' l IH]; intros s; simpl.
  - destruct (decide (d ∈ [])) as [H | _]; [inversion H | done].
  - rewrite IH. simpl.
    destruct (decide (d ∈ l)) as [Hl | Hl].
    + rewrite decide_True; [done | by right].
    + destruct (decide (d = d')) as [-> | Hne].
      * rewrite lookup_insert_eq. rewrite decide_True; [done | by left].
      * rewrite lookup_insert_ne by done.
        rewrite decide_False; [done |].
        intros H. apply elem_of_cons in H. tauto.
Qed.

Lemma fail_all_frame reason s :
  let s' := fail_all reason s in
  alive s' = alive s ∧ nextRequest s' = nextRequest s ∧
  requests s' = requests s ∧ pool s' = pool s ∧ queue s' = queue s ∧
  buffer s' = buffer s ∧ closed s' = closed s.
Proof. apply fail_list_frame. Qed.

Lemma elem_of_values (r : gmap Z Fid) d :
  d ∈ values r ↔ ∃ n, r !! n = Some d.
Proof.
  unfold values. rewrite list_elem_of_fmap. split.
  - intros [[n d'] [-> Hin]]. exists n. by apply elem_of_map_to_list.
  - intros [n Hn]. exists (n, d). split; [done |]. by apply elem_of_map_to_list.
Qed.

Lemma fail_all_held reason s n d :
  requests s !! n = Some d →
  future_state (fail_all reason s) d = Failed reason.
Proof.
  intros Hn. unfold future_state, fail_all.
  fold (fail_list reason (values (requests s)) s).
  rewrite fail_list_futures. rewrite decide_True; [done |].
  apply elem_of_values. eauto.
Qed.

Lemma fail_all_state reason s d :
  future_state (fail_all reason s) d = Failed reason ∨
  future_state (fail_all reason s) d = future_state s d.
Proof.
  unfold future_state, fail_all.
  fold (fail_list reason (values (requests s)) s).
  rewrite fail_list_futures. case_decide; [by left | by right].
Qed.

Lemma extends_refl s : extends s s.
Proof. repeat split; try done; lia. Qed.

Lemma extends_trans s1 s2 s3 : extends s1 s2 → extends s2 s3 → extends s1 s3.
Proof.
  intros (Hr1 & Hp1 & Hn1 & Hb1 & Hf1) (Hr2 & Hp2 & Hn2 & Hb2 & Hf2).
  repeat split.
  - by transitivity (requests s2).
  - by transitivity (pool s2).
  - lia.
  - apply map_subseteq_size in Hr2. lia.
  - auto.
Qed.

Lemma inv_init : inv init.
Proof.
  split; [| split]; simpl.
  - intros n Hn. set_solver.
  - intros n. split.
    + intros [Hn | [d Hn]]; [set_solver | by rewrite lookup_empty in Hn].
    + lia.
  - reflexivity.
Qed.

Lemma inv_core s s' : core s = core s' → inv s → inv s'.
Proof.
  unfold core, inv. intros [= Hr Hp Hn Hf]. rewrite Hr, Hp, Hn. tauto.
Qed.

Lemma extends_core s1 s1' s2 s2' :
  core s1 = core s1' → core s2 = core s2' → extends s1 s2 → extends s1' s2'.
Proof.
  unfold core, extends, future_state.
  intros [= Hr1 Hp1 Hn1 Hf1] [= Hr2 Hp2 Hn2 Hf2].
  rewrite Hr1, Hp1, Hn1, Hf1, Hr2, Hp2, Hn2, Hf2. tauto.
Qed.

(** Transport [inv] or [extends] from [H] to states with the same core. *)
Ltac core_of H :=
  first [ eapply inv_core; [| exact H]; reflexivity
        | eapply extends_core; [| | exact H]; reflexivity ].

Lemma fail_all_inv reason s : inv s → inv (fail_all reason s).
Proof.
  destruct (fail_all_frame reason s) as (_ & Hn & Hr & Hp & _).
  unfold inv. rewrite Hn, Hr, Hp. tauto.
Qed.

Lemma fail_all_extends reason s : extends s (fail_all reason s).
Proof.
  destruct (fail_all_frame reason s) as (_ & Hn & Hr & Hp & _).
  unfold extends. rewrite Hn, Hr, Hp. split_and!; try done; try lia.
  intros d Hd. destruct (fail_all_state reason s d) as [-> | ->]; done.
Qed.

Lemma handleResponse_miss request records s :
  requests s !! (- request) = None → handleResponse request records s = s.
Proof. intros H. unfold handleResponse. by rewrite H. Qed.

Lemma handleResponse_hit request records s d :
  requests s !! (- request) = Some d →
  let s' := handleResponse request records s in
  requests s' = delete (- request) (requests s) ∧
  pool s' = {[- request]} ∪ pool s ∧
  futures s' = <[d := match error_payloads records with
                      | e :: _ => Failed (CauseExc e)
                      | [] => Finished records
                      end]> (futures s) ∧
  alive s' = alive s ∧ nextRequest s' = nextRequest s ∧
  queue s' = queue s ∧ buffer s' = buffer s ∧ closed s' = closed s.
Proof.
  intros H. unfold handleResponse. rewrite H.
  by destruct (error_payloads records).
Qed.

Lemma handleResponse_inv request records s :
  inv s → inv (handleResponse request records s).
Proof.
  intros Hinv.
  destruct (requests s !! (- request)) as [d |] eqn:E;
    [| by rewrite handleResponse_miss].
  destruct (handleResponse_hit request records s d E) as (Hr & Hp & _ & _ & Hn & _).
  destruct Hinv as (Hdisj & Hrange & Hcount).
  set (n := - request) in *.
  assert (Hnp : n ∉ pool s).
  { intros Hin. apply Hdisj in Hin. congruence. }
  unfold inv. rewrite Hr, Hp, Hn. split_and!.
  - intros m Hm. destruct (decide (n = m)) as [<- | Hnm].
    + apply lookup_delete_eq.
    + rewrite lookup_delete_ne by done. apply Hdisj. set_solver.
  - intros m. rewrite <- Hrange. split.
    + intros [Hm | Hm].
      * apply elem_of_union in Hm as [Hm | Hm]; [| by left].
        apply elem_of_singleton in Hm as ->. right. eauto.
      * apply lookup_delete_is_Some in Hm as [_ Hm]. by right.
    + intros [Hm | Hm]; [left; set_solver |].
      destruct (decide (n = m)) as [<- | Hnm]; [left; set_solver |].
      right. by rewrite lookup_delete_ne.
  - rewrite map_size_delete_Some by eauto.
    rewrite size_union by set_solver. rewrite size_singleton.
    assert (size (requests s) ≠ 0%nat).
    { intros Hz. apply map_size_empty_inv in Hz. rewrite Hz in E.
      by rewrite lookup_empty in E. }
    lia.
Qed.

Lemma handle_read_inv pkts s : inv s → inv (handle_read pkts s).
Proof.
  unfold handle_read. revert s.
  induction pkts as [| p pkts IH]; intros s Hinv; [done |].
  simpl. apply IH. by apply handleResponse_inv.
Qed.

Lemma releases_refl s : releases s s.
Proof. unfold releases. split_and!; try done. - congruence. - auto. Qed.

Lemma releases_trans s1 s2 s3 : releases s1 s2 → releases s2 s3 → releases s1 s3.
Proof.
  intros (Hr1 & Hp1 & Hd1 & Hn1 & Hf1 & Hc1 & Ha1 & Hq1 & Hs1)
         (Hr2 & Hp2 & Hd2 & Hn2 & Hf2 & Hc2 & Ha2 & Hq2 & Hs2).
  unfold releases. split_and!; try congruence.
  - auto.
  - set_solver.
  - intros n d H1 H3. destruct (requests s2 !! n) as [d' |] eqn:E.
    + pose proof (Hr1 _ _ E) as E'. rewrite H1 in E'. inversion E'; subst d'.
      by apply Hd2.
    + destruct (Hd1 _ _ H1 E) as [Hp Hf]. split; [set_solver | auto].
  - intros n Hn. apply Hn2 in Hn as [Hn | [[d Hs] Hnone]].
    + apply Hn1 in Hn as [Hn | [Hs Hnone]]; [by left |].
      right. split; [done |].
      destruct (requests s3 !! n) as [d |] eqn:E; [| done].
      apply Hr2 in E. congruence.
    + right. split; [| done]. apply Hr1 in Hs. eauto.
  - auto.
Qed.

Lemma handleResponse_releases request records s :
  releases s (handleResponse request records s).
Proof.
  destruct (requests s !! (- request)) as [d |] eqn:E;
    [| rewrite handleResponse_miss by done; apply releases_refl].
  destruct (handleResponse_hit request records s d E)
    as (Hr & Hp & Hf & Ha & Hn & Hq & _ & Hc).
  assert (Hdone : future_state (handleResponse request records s) d ≠ Pending).
  { unfold future_state. rewrite Hf, lookup_insert_eq. simpl.
    by destruct (error_payloads records). }
  unfold releases. rewrite Hr, Hp. split_and!; try done.
  - intros n d' Hn'. apply lookup_delete_Some in Hn'. tauto.
  - set_solver.
  - intros n d' Hs Hnone. apply lookup_delete_None in Hnone as [<- | Hnone];
      [| congruence].
    split; [set_solver |]. congruence.
  - intros n Hn'. apply elem_of_union in Hn' as [Hn' | Hn']; [| by left].
    apply elem_of_singleton in Hn' as ->. right.
    split; [eauto | apply lookup_delete_eq].
  - intros d' Hd'. destruct (decide (d' = d)) as [-> | Hne]; [done |].
    unfold future_state in *. by rewrite Hf, lookup_insert_ne.
Qed.

Lemma handle_read_releases pkts s : releases s (handle_read pkts s).
Proof.
  unfold handle_read. revert s.
  induction pkts as [| p pkts IH]; intros s; [apply releases_refl |].
  simpl. eapply releases_trans; [apply handleResponse_releases | apply IH].
Qed.

Section EngineFacts.

Variable flattenPacket : Ident → Context → Z → string → string.
Variable pick : gset Z → Z.

Lemma startRequest_frame d s :
  let s' := (startRequest pick d s).2 in
  alive s' = alive s ∧ queue s' = queue s ∧ buffer s' = buffer s ∧
  closed s' = closed s ∧ futures s' = futures s.
Proof.
  unfold startRequest.
  destruct (decide (size (pool s) ≠ 0%nat)); [| done].
  by destruct (set_pop pick (pool s)).
Qed.

Lemma startRequest_entry d s :
  requests (startRequest pick d s).2 =
  <[(startRequest pick d s).1 := d]> (requests s).
Proof.
  unfold startRequest.
  destruct (decide (size (pool s) ≠ 0%nat)); [| done].
  by destruct (set_pop pick (pool s)).
Qed.

(** The ID depends on the pool and the counter only. *)
Lemma startRequest_id d s s' :
  pool s = pool s' → nextRequest s = nextRequest s' →
  (startRequest pick d s).1 = (startRequest pick d s').1.
Proof.
  intros Hp Hn. unfold startRequest. rewrite Hp, Hn.
  destruct (decide (size (pool s') ≠ 0%nat)); [| done].
  by destruct (set_pop pick (pool s')).
Qed.

Lemma startRequest_spec d s :
  inv s →
  let n := (startRequest pick d s).1 in
  let s' := (startRequest pick d s).2 in
  requests s !! n = None ∧ 1 ≤ n ∧
  requests s' = <[n := d]> (requests s) ∧
  pool s' = pool s ∖ {[n]} ∧
  inv s' ∧ extends s s' ∧
  alive s' = alive s ∧ queue s' = queue s ∧ buffer s' = buffer s ∧
  closed s' = closed s ∧ futures s' = futures s.
Proof.
  intros (Hdisj & Hrange & Hcount). unfold startRequest.
  destruct (decide (size (pool s) ≠ 0%nat)) as [Hne | He].
  - (* an ID is taken from the pool *)
    assert (Hin : (set_pop pick (pool s)).1 ∈ pool s).
    { apply set_pop_elem. intros E. rewrite E in Hne. by rewrite size_empty in Hne. }
    destruct (set_pop pick (pool s)) as [n p] eqn:E.
    assert (Hp : p = pool s ∖ {[n]}).
    { pose proof (set_pop_rest pick (pool s)) as R. by rewrite E in R. }
    simpl in *. subst p.
    assert (Hn : requests s !! n = None) by auto.
    assert (Hsz : size (pool s ∖ {[n]}) = (size (pool s) - 1)%nat).
    { rewrite size_difference by set_solver. by rewrite size_singleton. }
    assert (Hpos : (0 < size (pool s))%nat) by lia.
    assert (H1n : 1 ≤ n) by (apply Hrange; auto).
    split_and!; try done.
    + split; [| split]; simpl.
      * intros m Hm. rewrite lookup_insert_ne by set_solver.
        apply Hdisj. set_solver.
      * intros m. rewrite <- Hrange. split.
        -- intros [Hm | Hm]; [left; set_solver |].
           destruct (decide (n = m)) as [<- | Hnm]; [by left |].
           rewrite lookup_insert_ne in Hm by done. by right.
        -- intros [Hm | Hm].
           ++ destruct (decide (n = m)) as [<- | Hnm].
              ** right. rewrite lookup_insert_eq. eauto.
              ** left. set_solver.
           ++ right. destruct (decide (n = m)) as [<- | Hnm].
              ** rewrite lookup_insert_eq. eauto.
              ** by rewrite lookup_insert_ne.
      * rewrite map_size_insert_None by done. rewrite Hsz. lia.
    + split_and!; simpl; try lia; try done.
      * by apply insert_subseteq.
      * set_solver.
  - (* the counter hands out a new ID *)
    assert (Hemp : pool s = ∅).
    { apply leibniz_equiv, size_empty_inv. lia. }
    simpl.
    assert (Hn : requests s !! nextRequest s = None).
    { destruct (requests s !! nextRequest s) eqn:E; [| done].
      assert (1 ≤ nextRequest s < nextRequest s) by (apply Hrange; eauto). lia. }
    assert (H1n : 1 ≤ nextRequest s).
    { rewrite Hemp, size_empty in Hcount. lia. }
    split_and!; try done.
    + rewrite Hemp. set_solver.
    + split; [| split]; simpl.
      * intros m Hm. rewrite Hemp in Hm. set_solver.
      * intros m. split.
        -- intros [Hm | Hm]; [rewrite Hemp in Hm; set_solver |].
           destruct (decide (nextRequest s = m)) as [<- | Hnm]; [lia |].
           rewrite lookup_insert_ne in Hm by done.
           assert (1 ≤ m < nextRequest s) by (apply Hrange; auto). lia.
        -- intros Hm. right.
           destruct (decide (nextRequest s = m)) as [<- | Hnm].
           ++ rewrite lookup_insert_eq. eauto.
           ++ rewrite lookup_insert_ne by done.
              assert (Hr : 1 ≤ m < nextRequest s) by lia.
              apply Hrange in Hr as [Hr | Hr]; [| done].
              rewrite Hemp in Hr. set_solver.
      * rewrite map_size_insert_None by done.
        rewrite Hemp, size_empty in *. lia.
    + split_and!; simpl; try lia; try done.
      * by apply insert_subseteq.
      * rewrite map_size_insert_None by done.
        rewrite Hemp, size_empty in Hcount. lia.
Qed.

(** *** [flushCommands] and [terminate] *)

(** The equations of [flushCommands] and [terminate] as the source has
    them: [flushCommands] takes the next command off [self.queue], and on
    the sentinel calls [terminate], which calls [flushCommands] again. *)
Lemma flushCommands_unfold s :
  flushCommands flattenPacket pick s =
  match queue s with
  | [] => (s, true)
  | command :: q' =>
      let s := set_queue q' s in
      match command with
      | CmdNone =>
          (terminate flattenPacket pick (CauseStr "Connection closed") s, false)
      | CmdRaw data =>
          flushCommands flattenPacket pick (set_buffer (buffer s +:+ data) s)
      | CmdPacket target context flatrecs future =>
          let '(request, s) :=
            match future with
            | None => (0, s)
            | Some d => startRequest pick d s
            end in
          let data := flattenPacket target context request flatrecs in
          flushCommands flattenPacket pick (set_buffer (buffer s +:+ data) s)
      end
  end.
Proof.
  unfold flushCommands, terminate.
  destruct (queue s) as [| command q'] eqn:E; [reflexivity |].
  destruct command as [| data | target context flatrecs [d |]];
    cbn [drain]; try reflexivity.
  pose proof (startRequest_frame d (set_queue q' s)) as (_ & Hq & _).
  destruct (startRequest pick d (set_queue q' s)) as [n s1].
  simpl in Hq. simpl. by rewrite Hq.
Qed.

Local Abbreviation drain := (drain flattenPacket pick).

Lemma drain_queue q s : queue s = q → queue (drain q s).1 = [].
Proof.
  revert s. induction q as [| command q IH]; intros s Hq; [done |].
  simpl. destruct command as [| data | target context flatrecs future].
  - simpl. unfold terminate_with.
    destruct (fail_all_frame (CauseStr "Connection closed")
                (drain q (close (set_alive false (set_queue q s)))).1)
      as (_&_&_&_&->&_). by apply IH.
  - by apply IH.
  - destruct future as [d |].
    + destruct (startRequest pick d (set_queue q s)) as [n s1] eqn:E.
      apply IH. simpl.
      pose proof (startRequest_frame d (set_queue q s)) as (_ & Hq1 & _).
      by rewrite E in Hq1.
    + by apply IH.
Qed.

(** Once dead (or closed), always dead (closed). *)
Lemma drain_dead q s :
  (alive s = false → alive (drain q s).1 = false) ∧
  (closed s = true → closed (drain q s).1 = true).
Proof.
  revert s. induction q as [| command q IH]; intros s; [done |].
  simpl. destruct command as [| data | target context flatrecs future].
  - simpl. unfold terminate_with.
    destruct (fail_all_frame (CauseStr "Connection closed")
                (drain q (close (set_alive false (set_queue q s)))).1)
      as (->&_&_&_&_&_&->).
    split; intros _; by apply IH.
  - exact (IH (set_buffer (buffer s +:+ data) (set_queue q s))).
  - destruct future as [d |];
      [| exact (IH (set_buffer (buffer s +:+ flattenPacket target context 0 flatrecs)
                      (set_queue q s)))].
    destruct (startRequest pick d (set_queue q s)) as [n s1] eqn:E.
    assert (alive s1 = alive s ∧ closed s1 = closed s) as [Ha Hc].
    { pose proof (startRequest_frame d (set_queue q s)) as (? & _ & _ & ? & _).
      by rewrite E in *. }
    destruct (IH (set_buffer (buffer s1 +:+ flattenPacket target context n flatrecs) s1))
      as [IHa IHc].
    simpl in *. split; intros H; [apply IHa | apply IHc]; congruence.
Qed.

Lemma terminate_with_terminated reason q s :
  queue s = q → terminated reason (terminate_with (drain q) reason s).
Proof.
  intros Hq. unfold terminate_with, terminated.
  set (s1 := (drain q (close (set_alive false s))).1).
  destruct (fail_all_frame reason s1) as (->&_&Hr&_&->&_&->).
  split_and!.
  - by apply drain_dead.
  - by apply drain_dead.
  - by apply drain_queue.
  - intros n d Hn. rewrite Hr in Hn. by eapply fail_all_held.
Qed.

Lemma terminate_terminated reason s :
  terminated reason (terminate flattenPacket pick reason s).
Proof. by apply terminate_with_terminated. Qed.

(** [flushCommands] returns [False] exactly when it met the sentinel, and
    then it has terminated the engine. *)
Lemma drain_sentinel q s :
  queue s = q → CmdNone ∈ q →
  (drain q s).2 = false ∧
  terminated (CauseStr "Connection closed") (drain q s).1.
Proof.
  revert s. induction q as [| command q IH]; intros s Hq Hin.
  { inversion Hin. }
  simpl. destruct command as [| data | target context flatrecs future].
  - simpl. split; [done |]. by apply terminate_with_terminated.
  - apply IH; [done |]. apply elem_of_cons in Hin as [? | ?]; done.
  - assert (Hin' : CmdNone ∈ q) by (apply elem_of_cons in Hin as [? | ?]; done).
    destruct future as [d |]; [| by apply IH].
    destruct (startRequest pick d (set_queue q s)) as [n s1] eqn:E.
    apply IH; [| done]. simpl.
    pose proof (startRequest_frame d (set_queue q s)) as (_ & Hq1 & _).
    by rewrite E in Hq1.
Qed.

Lemma drain_no_sentinel q s :
  CmdNone ∉ q →
  (drain q s).2 = true ∧ alive (drain q s).1 = alive s ∧
  closed (drain q s).1 = closed s ∧ futures (drain q s).1 = futures s.
Proof.
  revert s. induction q as [| command q IH]; intros s Hin; [done |].
  assert (Hin' : CmdNone ∉ q) by (intros H; apply Hin; by right).
  simpl. destruct command as [| data | target context flatrecs future].
  - exfalso. apply Hin. by left.
  - destruct (IH (set_buffer (buffer s +:+ data) (set_queue q s)) Hin')
      as (?&?&?&?). done.
  - destruct future as [d |].
    + destruct (startRequest pick d (set_queue q s)) as [n s1] eqn:E.
      assert (alive s1 = alive s ∧ closed s1 = closed s ∧ futures s1 = futures s)
        as (Ha & Hc & Hf).
      { pose proof (startRequest_frame d (set_queue q s)) as (? & _ & _ & ? & ?).
        by rewrite E in *. }
      destruct (IH (set_buffer (buffer s1 +:+ flattenPacket target context n flatrecs) s1) Hin')
        as (?&?&?&?). simpl in *. split_and!; congruence.
    + destruct (IH (set_buffer (buffer s +:+ flattenPacket target context 0 flatrecs)
                      (set_queue q s)) Hin') as (?&?&?&?). done.
Qed.

(** *** The invariant along [flushCommands] and [terminate] *)

Lemma drain_spec q s :
  inv s → inv (drain q s).1 ∧ extends s (drain q s).1.
Proof.
  revert s. induction q as [| command q IH]; intros s Hinv.
  { split; [done | apply extends_refl]. }
  simpl. destruct command as [| data | target context flatrecs future].
  - simpl. unfold terminate_with.
    destruct (IH (close (set_alive false (set_queue q s)))) as [Hi He];
      [core_of Hinv |].
    split; [by apply fail_all_inv |].
    eapply extends_trans; [| apply fail_all_extends]. core_of He.
  - destruct (IH (set_buffer (buffer s +:+ data) (set_queue q s))) as [Hi He];
      [core_of Hinv |].
    split; [done | core_of He].
  - destruct future as [d |].
    + pose proof (startRequest_spec d (set_queue q s)) as Hs.
      destruct (startRequest pick d (set_queue q s)) as [n s1].
      destruct Hs as (_ & _ & _ & _ & Hi1 & He1 & _); [core_of Hinv |].
      simpl in Hi1, He1.
      destruct (IH (set_buffer (buffer s1 +:+ flattenPacket target context n flatrecs) s1))
        as [Hi He]; [core_of Hi1 |].
      split; [done |].
      eapply extends_trans; [core_of He1 | core_of He].
    + destruct (IH (set_buffer (buffer s +:+ flattenPacket target context 0 flatrecs)
                      (set_queue q s))) as [Hi He]; [core_of Hinv |].
      split; [done | core_of He].
Qed.

Lemma terminate_spec reason s :
  inv s →
  inv (terminate flattenPacket pick reason s) ∧
  extends s (terminate flattenPacket pick reason s).
Proof.
  intros Hinv. unfold terminate, terminate_with, flushCommands.
  destruct (drain_spec (queue (close (set_alive false s)))
              (close (set_alive false s))) as [Hi He]; [core_of Hinv |].
  split; [by apply fail_all_inv |].
  eapply extends_trans; [| apply fail_all_extends]. core_of He.
Qed.

Lemma handle_write_spec sent s :
  inv s →
  inv (handle_write flattenPacket pick sent s) ∧
  extends s (handle_write flattenPacket pick sent s).
Proof.
  intros Hinv. unfold handle_write, flushCommands.
  destruct (drain_spec (queue s) s Hinv) as [Hi He].
  destruct (drain (queue s) s) as [s1 [|]]; simpl in *; [| done].
  split; [core_of Hi | core_of He].
Qed.

(** A request waiting in the queue has its future in the table once the
    queue is flushed. *)
Lemma drain_registers q s target context flatrecs d :
  inv s → CmdPacket target context flatrecs (Some d) ∈ q →
  ∃ n, requests (drain q s).1 !! n = Some d.
Proof.
  revert s. induction q as [| command q IH]; intros s Hinv Hin.
  { inversion Hin. }
  apply elem_of_cons in Hin as [<- | Hin].
  - cbn [drain].
    pose proof (startRequest_spec d (set_queue q s)) as Hs.
    destruct (startRequest pick d (set_queue q s)) as [n s1].
    destruct Hs as (_ & _ & Hr & _ & Hi1 & _); [core_of Hinv |].
    simpl in Hr, Hi1.
    destruct (drain_spec q
                (set_buffer (buffer s1 +:+ flattenPacket target context n flatrecs) s1))
      as (_ & Hsub & _); [core_of Hi1 |].
    exists n. eapply lookup_weaken; [| exact Hsub].
    simpl. rewrite Hr. apply lookup_insert_eq.
  - simpl. destruct command as [| data | target' context' flatrecs' future].
    + simpl. unfold terminate_with.
      destruct (fail_all_frame (CauseStr "Connection closed")
                  (drain q (close (set_alive false (set_queue q s)))).1)
        as (_ & _ & -> & _).
      apply IH; [core_of Hinv | done].
    + apply IH; [core_of Hinv | done].
    + destruct future as [d' |].
      * pose proof (startRequest_spec d' (set_queue q s)) as Hs.
        destruct (startRequest pick d' (set_queue q s)) as [n s1].
        destruct Hs as (_ & _ & _ & _ & Hi1 & _); [core_of Hinv |].
        apply IH; [core_of Hi1 | done].
      * apply IH; [core_of Hinv | done].
Qed.

Lemma startRequest_set_queue q d s :
  startRequest pick d (set_queue q s) =
  ((startRequest pick d s).1, set_queue q (startRequest pick d s).2).
Proof.
  unfold startRequest. simpl.
  destruct (decide (size (pool s) ≠ 0%nat)); [| reflexivity].
  by destruct (set_pop pick (pool s)).
Qed.

(** What one more command at the end of the queue adds to a flush: a
    message adds its packet with tag 0; a request adds the entry and the
    packet for the ID that [startRequest] gives it after the rest. *)
Lemma drain_snoc_message q q0 s target context flat :
  let a := (drain q s).1 in
  let b := (drain (q ++ [CmdPacket target context flat None]) (set_queue q0 s)).1 in
  requests b = requests a ∧ pool b = pool a ∧
  nextRequest b = nextRequest a ∧
  buffer b = buffer a +:+ flattenPacket target context 0 flat.
Proof.
  revert s q0. induction q as [| command q IH]; intros s q0; [done |].
  simpl. destruct command as [| data | target' context' flat' future].
  - simpl. unfold terminate_with.
    pose proof (IH (close (set_alive false (set_queue q s)))
                  (q ++ [CmdPacket target context flat None])) as IH'.
    simpl in IH'. destruct IH' as (Hr & Hp & Hn & Hb).
    pose proof (fail_all_frame (CauseStr "Connection closed")
                  (drain q (close (set_alive false (set_queue q s)))).1)
      as (_ & -> & -> & -> & _ & -> & _).
    match goal with |- context [fail_all ?r ?x] =>
      pose proof (fail_all_frame r x) as (_ & -> & -> & -> & _ & -> & _)
    end.
    done.
  - exact (IH (set_buffer (buffer s +:+ data) (set_queue q s))
              (q ++ [CmdPacket target context flat None])).
  - destruct future as [d' |].
    + rewrite !startRequest_set_queue. simpl.
      exact (IH (set_buffer (buffer (startRequest pick d' s).2 +:+
                               flattenPacket target' context'
                                 (startRequest pick d' s).1 flat')
                   (set_queue q (startRequest pick d' s).2))
                (q ++ [CmdPacket target context flat None])).
    + exact (IH (set_buffer (buffer s +:+ flattenPacket target' context' 0 flat')
                   (set_queue q s))
                (q ++ [CmdPacket target context flat None])).
Qed.

Lemma drain_snoc_request q q0 s target context flat d :
  let a := (drain q s).1 in
  let b := (drain (q ++ [CmdPacket target context flat (Some d)])
              (set_queue q0 s)).1 in
  let n := (startRequest pick d a).1 in
  requests b = <[n := d]> (requests a) ∧
  buffer b = buffer a +:+ flattenPacket target context n flat.
Proof.
  revert s q0. induction q as [| command q IH]; intros s q0.
  - simpl. rewrite !startRequest_set_queue. simpl.
    destruct (startRequest_frame d s) as (_ & _ & -> & _).
    split; [apply startRequest_entry | done].
  - simpl. destruct command as [| data | target' context' flat' future].
    + simpl. unfold terminate_with.
      set (a' := (drain q (close (set_alive false (set_queue q s)))).1).
      pose proof (fail_all_frame (CauseStr "Connection closed") a')
        as (_ & Hn1 & Hr1 & Hp1 & _ & Hb1 & _).
      match goal with |- context [requests (fail_all ?r ?x) = _] =>
        pose proof (fail_all_frame r x) as (_ & _ & -> & _ & _ & -> & _);
        assert (IH' : requests x = <[(startRequest pick d a').1 := d]> (requests a') ∧
                      buffer x = buffer a' +:+
                        flattenPacket target context (startRequest pick d a').1 flat)
          by exact (IH (close (set_alive false (set_queue q s)))
                       (q ++ [CmdPacket target context flat (Some d)]))
      end.
      destruct IH' as (-> & ->).
      rewrite Hr1, Hb1.
      by rewrite (startRequest_id d _ _ Hp1 Hn1).
    + exact (IH (set_buffer (buffer s +:+ data) (set_queue q s))
                (q ++ [CmdPacket target context flat (Some d)])).
    + destruct future as [d' |].
      * rewrite !startRequest_set_queue. simpl.
        exact (IH (set_buffer (buffer (startRequest pick d' s).2 +:+
                                 flattenPacket target' context'
                                   (startRequest pick d' s).1 flat')
                     (set_queue q (startRequest pick d' s).2))
                  (q ++ [CmdPacket target context flat (Some d)])).
      * exact (IH (set_buffer (buffer s +:+ flattenPacket target' context' 0 flat')
                     (set_queue q s))
                  (q ++ [CmdPacket target context flat (Some d)])).
Qed.

End EngineFacts.

(** ** The invariant on every reachable state *)

Section RunFacts.

Variable flattenPacket : Ident → Context → Z → string → string.

Local Abbreviation step := (step flattenPacket).
Local Abbreviation run := (run flattenPacket).
Local Abbreviation reachable := (reachable flattenPacket).

(** Every event either leaves the table, pool, counter and futures as
    they are, or is a step of the sending side, or of the receiving side. *)
Lemma step_cases ev s :
  inv s →
  core (step ev s) = core s ∨ extends s (step ev s) ∨ releases s (step ev s).
Proof.
  intros Hinv. destruct ev as [t c r f | data | | pick sent | pkts | pick | pick];
    simpl.
  - left. unfold enqueue. by destruct (alive s).
  - by left.
  - by left.
  - right. left. by apply handle_write_spec.
  - right. right. apply handle_read_releases.
  - right. left. by apply terminate_spec.
  - right. left. by apply terminate_spec.
Qed.

Lemma step_inv ev s : inv s → inv (step ev s).
Proof.
  intros Hinv. destruct ev as [t c r f | data | | pick sent | pkts | pick | pick];
    simpl.
  - unfold enqueue. destruct (alive s); simpl; [core_of Hinv | done].
  - core_of Hinv.
  - core_of Hinv.
  - by apply handle_write_spec.
  - by apply handle_read_inv.
  - by apply terminate_spec.
  - by apply terminate_spec.
Qed.

Lemma run_inv evs s : inv s → inv (run evs s).
Proof.
  revert s.
  induction evs as [| ev evs IH]; intros s Hinv; [done |].
  simpl. apply IH. by apply step_inv.
Qed.

Lemma reachable_inv s : reachable s → inv s.
Proof.
  induction 1 as [| s ev _ IH]; [apply inv_init | by apply step_inv].
Qed.

Lemma reachable_run evs s : reachable s → reachable (run evs s).
Proof.
  revert s.
  induction evs as [| ev evs IH]; intros s Hs; [done |].
  simpl. apply IH. by constructor.
Qed.

(** The counter never goes down. *)
Lemma step_counter ev s :
  inv s →
  nextRequest s ≤ nextRequest (step ev s) ∧
  nextRequest (step ev s) - 1 ≤
    Z.max (nextRequest s - 1) (Z.of_nat (size (requests (step ev s)))).
Proof.
  intros Hinv. destruct (step_cases ev s Hinv) as [Hc | [He | Hr]].
  - unfold core in Hc. inversion Hc as [[Hr Hp Hn Hf]]. rewrite Hn. lia.
  - destruct He as (_ & _ & ? & ? & _). lia.
  - destruct Hr as (_ & _ & _ & _ & _ & Hn & _). rewrite Hn. lia.
Qed.

(** Once dead, always dead. *)
Lemma step_dead ev s : alive s = false → alive (step ev s) = false.
Proof.
  intros Hd. destruct ev as [t c r f | data | | pick sent | pkts | pick | pick];
    simpl; try done.
  - unfold enqueue. by rewrite Hd.
  - unfold handle_write, flushCommands.
    pose proof (drain_dead flattenPacket pick (queue s) s) as [Ha _].
    destruct (drain flattenPacket pick (queue s) s) as [s1 [|]]; simpl in *; auto.
  - by destruct (handle_read_releases pkts s) as (_&_&_&_&_&_&->&_).
  - apply terminate_terminated.
  - apply terminate_terminated.
Qed.


End RunFacts.


(** * The properties of the protocol engine *)

Section EngineClaims.

Variable flattenPacket : Ident → Context → Z → string → string.

Local Abbreviation step := (step flattenPacket).
Local Abbreviation run := (run flattenPacket).
Local Abbreviation reachable := (reachable flattenPacket).

(** What one event does to a held entry and to the pool. *)
Lemma step_entry ev s :
  inv s →
  (∀ n d, requests s !! n = Some d →
     requests (step ev s) !! n = Some d ∨
     (requests (step ev s) !! n = None ∧ n ∈ pool (step ev s) ∧
      future_state (step ev s) d ≠ Pending)) ∧
  (∀ n, n ∈ pool (step ev s) → n ∉ pool s →
     is_Some (requests s !! n) ∧ requests (step ev s) !! n = None).
Proof.
  intros Hinv. destruct (step_cases flattenPacket ev s Hinv) as [Hc | [He | Hr]].
  - unfold core in Hc. inversion Hc as [[Hr Hp Hn Hf]]. split.
    + intros n d Hs. left. congruence.
    + intros n Hin Hout. congruence.
  - destruct He as (Hsub & Hp & _). split.
    + intros n d Hs. left. by eapply lookup_weaken.
    + intros n Hin Hout. set_solver.
  - destruct Hr as (Hr & _ & Hd & Hn & _). split.
    + intros n d Hs. destruct (requests (step ev s) !! n) as [d' |] eqn:E.
      * left. apply Hr in E. congruence.
      * right. split; [done |]. by apply Hd.
    + intros n Hin Hout. apply Hn in Hin as [Hin | Hin]; [done | exact Hin].
Qed.

(** C1. In every reachable state of the engine no request ID is both a key
    of the request table and a member of the pool; the ID that
    [startRequest] takes is not a key of the table; whatever happens next,
    an entry of the table either stays as it is, or it is gone, its ID is
    in the pool and its future is set; and an ID that enters the pool was
    a key of the table and has just been removed from it. *)
Theorem C1_pending_and_free_disjoint s :
  reachable s →
  (∀ n, ¬ (is_Some (requests s !! n) ∧ n ∈ pool s)) ∧
  (∀ pick d, requests s !! (startRequest pick d s).1 = None) ∧
  (∀ ev n d, requests s !! n = Some d →
     requests (step ev s) !! n = Some d ∨
     (requests (step ev s) !! n = None ∧ n ∈ pool (step ev s) ∧
      future_state (step ev s) d ≠ Pending)) ∧
  (∀ ev n, n ∈ pool (step ev s) → n ∉ pool s →
     is_Some (requests s !! n) ∧ requests (step ev s) !! n = None).
Proof.
  intros Hreach. pose proof (reachable_inv flattenPacket s Hreach) as Hinv.
  split_and!.
  - intros n [[d Hs] Hp]. destruct Hinv as (Hdisj & _). apply Hdisj in Hp. congruence.
  - intros pick d. by apply startRequest_spec.
  - intros ev. by apply step_entry.
  - intros ev. by apply step_entry.
Qed.

Lemma head_error_payloads records :
  head (error_payloads records) = first_error records.
Proof.
  induction records as [| [setting payload] rest IH]; [done |].
  unfold error_payloads in *. simpl. by destruct payload.
Qed.

(** C4. For a decoded packet with a negative request tag, [handleResponse]
    takes [n = - request].  Without an entry for [n] the state stays as it
    is.  With an entry holding future [d], the entry is removed, [n] is
    added to the pool, and [d] is failed with the first error payload of
    the records, in record order, or, when no record carries an error,
    completed with all the records; every other entry and every other
    future stay as they are, and so does the rest of the engine. *)
Theorem C4_demultiplex request records s :
  request < 0 →
  let n := - request in
  let s' := handleResponse request records s in
  match requests s !! n with
  | None => s' = s
  | Some d =>
      requests s' = delete n (requests s) ∧
      requests s' !! n = None ∧
      pool s' = {[n]} ∪ pool s ∧
      future_state s' d =
        match first_error records with
        | Some e => Failed (CauseExc e)
        | None => Finished records
        end ∧
      (∀ m, m ≠ n → requests s' !! m = requests s !! m) ∧
      (∀ d', d' ≠ d → future_state s' d' = future_state s d') ∧
      alive s' = alive s ∧ nextRequest s' = nextRequest s ∧
      queue s' = queue s ∧ buffer s' = buffer s ∧ closed s' = closed s
  end.
Proof.
  intros _ n s'. subst n s'.
  destruct (requests s !! (- request)) as [d |] eqn:E;
    [| by apply handleResponse_miss].
  destruct (handleResponse_hit request records s d E)
    as (Hr & Hp & Hf & Ha & Hn & Hq & Hb & Hc).
  split_and!; try done.
  - rewrite Hr. apply lookup_delete_eq.
  - unfold future_state. rewrite Hf, lookup_insert_eq. simpl.
    rewrite <- head_error_payloads. by destruct (error_payloads records).
  - intros m Hm. rewrite Hr. by apply lookup_delete_ne.
  - intros d' Hd'. unfold future_state. rewrite Hf. by rewrite lookup_insert_ne.
Qed.

Lemma peak_ge evs s : (size (requests s) ≤ peak flattenPacket evs s)%nat.
Proof. destruct evs; simpl; lia. Qed.

Lemma run_counter_peak evs s :
  inv s →
  nextRequest s ≤ nextRequest (run evs s) ∧
  nextRequest (run evs s) - 1 ≤
    Z.max (nextRequest s - 1) (Z.of_nat (peak flattenPacket evs s)).
Proof.
  revert s.
  induction evs as [| ev evs IH]; intros s Hinv; simpl; [lia |].
  destruct (IH (step ev s)) as [IH1 IH2]; [by apply step_inv |].
  destruct (step_counter flattenPacket ev s Hinv) as [H1 H2].
  pose proof (peak_ge evs (step ev s)). lia.
Qed.

Lemma ever_allocated_range evs s n :
  inv s → n ∈ ever_allocated flattenPacket evs s →
  1 ≤ n < nextRequest (run evs s).
Proof.
  revert s. induction evs as [| ev evs IH]; intros s Hinv Hin; simpl in Hin.
  { set_solver. }
  pose proof (step_inv flattenPacket ev s Hinv) as Hinv'.
  change (run (ev :: evs) s) with (run evs (step ev s)).
  apply elem_of_union in Hin as [Hin | Hin]; [| by apply IH].
  apply elem_of_difference in Hin as [Hin _]. apply elem_of_dom in Hin.
  destruct Hinv' as (_ & Hrange & _).
  assert (1 ≤ n < nextRequest (step ev s)) by (apply Hrange; auto).
  destruct (run_counter_peak evs (step ev s)) as [Hle _];
    [by apply step_inv |]. lia.
Qed.

Lemma inv_range_size (X : gset Z) s :
  inv s → (∀ n, n ∈ X → 1 ≤ n < nextRequest s) →
  Z.of_nat (size X) ≤ nextRequest s - 1.
Proof.
  intros (Hdisj & Hrange & Hcount) HX.
  assert (Hsub : X ⊆ dom (requests s) ∪ pool s).
  { intros n Hn. apply HX, Hrange in Hn as [Hn | Hn].
    - apply elem_of_union_r, Hn.
    - apply elem_of_union_l, elem_of_dom, Hn. }
  apply subseteq_size in Hsub.
  rewrite size_union in Hsub.
  - rewrite size_dom in Hsub. lia.
  - intros n Hd Hp. apply elem_of_dom in Hd as [d Hd].
    apply Hdisj in Hp. congruence.
Qed.

(** Flushing the queue moves every waiting future into the table, and
    keeps those that are there or set. *)
Lemma drain_tracked pick q s d :
  inv s →
  (∃ target context flatrecs, CmdPacket target context flatrecs (Some d) ∈ q) ∨
  (∃ n, requests s !! n = Some d) ∨ future_state s d ≠ Pending →
  (∃ n, requests (drain flattenPacket pick q s).1 !! n = Some d) ∨
  future_state (drain flattenPacket pick q s).1 d ≠ Pending.
Proof.
  intros Hinv [(t & c & r & Hin) | [[n Hn] | Hd]].
  - left. by eapply drain_registers.
  - left. exists n.
    destruct (drain_spec flattenPacket pick q s Hinv) as (_ & Hsub & _).
    by eapply lookup_weaken.
  - right.
    destruct (drain_spec flattenPacket pick q s Hinv) as (_ & _ & _ & _ & _ & Hf).
    by apply Hf.
Qed.

Lemma terminate_entries pick reason s :
  requests (terminate flattenPacket pick reason s) =
  requests (drain flattenPacket pick (queue s) (close (set_alive false s))).1.
Proof.
  unfold terminate, terminate_with, flushCommands.
  by destruct (fail_all_frame reason
                 (drain flattenPacket pick (queue (close (set_alive false s)))
                    (close (set_alive false s))).1) as (_ & _ & -> & _).
Qed.

Lemma terminate_resolves pick reason s d :
  inv s → tracked d s →
  future_state (terminate flattenPacket pick reason s) d ≠ Pending.
Proof.
  intros Hinv Ht.
  assert (Hinv1 : inv (close (set_alive false s))) by core_of Hinv.
  destruct (drain_tracked pick (queue s) (close (set_alive false s)) d Hinv1)
    as [[n Hn] | Hd].
  { destruct Ht as [Ht | [Ht | Ht]]; [by left | right; by left | right; by right]. }
  - rewrite <- terminate_entries with (reason := reason) in Hn.
    destruct (terminate_terminated flattenPacket pick reason s) as (_ & _ & _ & Hf).
    by rewrite (Hf n d Hn).
  - unfold terminate, terminate_with, flushCommands. simpl.
    match goal with |- future_state (fail_all _ ?x) _ ≠ _ =>
      destruct (fail_all_state reason x d) as [-> | ->] end; done.
Qed.

Lemma step_tracked ev s d : inv s → tracked d s → tracked d (step ev s).
Proof.
  intros Hinv Ht.
  destruct ev as [t c r f | data | | pick sent | pkts | pick | pick]; simpl.
  - unfold enqueue. destruct (alive s); [| done]. simpl.
    destruct Ht as [(t' & c' & r' & Hin) | Ht]; [left | by right].
    exists t', c', r'. simpl. apply elem_of_app. by left.
  - destruct Ht as [(t' & c' & r' & Hin) | Ht]; [left | by right].
    exists t', c', r'. simpl. apply elem_of_app. by left.
  - destruct Ht as [(t' & c' & r' & Hin) | Ht]; [left | by right].
    exists t', c', r'. simpl. apply elem_of_app. by left.
  - right. unfold handle_write, flushCommands.
    pose proof (drain_tracked pick (queue s) s d Hinv Ht) as Hd.
    by destruct (drain flattenPacket pick (queue s) s) as [s1 [|]].
  - destruct (handle_read_releases pkts s) as (Hr & _ & Hd & _ & Hf & _ & _ & Hq & _).
    destruct Ht as [Ht | [[n Hn] | Ht]].
    + left. by rewrite Hq.
    + right. destruct (requests (handle_read pkts s) !! n) as [d' |] eqn:E.
      * left. exists n. pose proof (Hr _ _ E) as E'. congruence.
      * right. by apply (Hd n d).
    + right. right. by apply Hf.
  - right. right. by apply terminate_resolves.
  - right. right. by apply terminate_resolves.
Qed.

Lemma run_tracked evs s d :
  inv s → tracked d s ∨ d ∈ accepted flattenPacket evs s →
  tracked d (run evs s).
Proof.
  revert s.
  induction evs as [| ev evs IH]; intros s Hinv Hd; simpl in *.
  { destruct Hd as [Hd | Hd]; [done | inversion Hd]. }
  apply IH; [by apply step_inv |].
  destruct Hd as [Hd | Hd]; [left; by apply step_tracked |].
  apply elem_of_app in Hd as [Hd | Hd]; [left | by right].
  destruct ev as [t c r [d' |] | | | | | |]; try by inversion Hd.
  destruct (alive s) eqn:Ha; [| by inversion Hd].
  apply list_elem_of_singleton in Hd as ->.
  left. exists t, c, r. simpl. unfold enqueue. rewrite Ha. simpl.
  apply elem_of_app. right. by left.
Qed.

(** C9. When the engine terminates, in whatever state a run has brought it,
    the queue is emptied; the future of every request that was waiting in
    the queue is entered in the request table and failed with the reason
    of the termination, as are the futures that were in the table
    already; and so no future that a successful [enqueue] took during the
    run is still pending afterwards. *)
Theorem C9_queued_requests_failed pick reason evs :
  let s := run evs init in
  let s' := terminate flattenPacket pick reason s in
  queue s' = [] ∧
  (∀ target context flatrecs d,
     CmdPacket target context flatrecs (Some d) ∈ queue s →
     (∃ n, requests s' !! n = Some d) ∧ future_state s' d = Failed reason) ∧
  (∀ n d, requests s !! n = Some d →
     requests s' !! n = Some d ∧ future_state s' d = Failed reason) ∧
  (∀ d, d ∈ accepted flattenPacket evs init → future_state s' d ≠ Pending).
Proof.
  intros s s'.
  assert (Hinv : inv s) by apply run_inv, inv_init.
  assert (Hinv1 : inv (close (set_alive false s))) by core_of Hinv.
  destruct (terminate_terminated flattenPacket pick reason s) as (_ & _ & Hq & Hf).
  fold s' in Hq, Hf.
  split_and!.
  - exact Hq.
  - intros target context flatrecs d Hin.
    destruct (drain_registers flattenPacket pick (queue s) (close (set_alive false s))
                target context flatrecs d Hinv1 Hin) as [n Hn].
    rewrite <- terminate_entries with (reason := reason) in Hn.
    split; [by exists n | by apply (Hf n)].
  - intros n d Hn.
    assert (Hn' : requests s' !! n = Some d).
    { unfold s'. rewrite terminate_entries.
      destruct (drain_spec flattenPacket pick (queue s) (close (set_alive false s)) Hinv1)
        as (_ & Hsub & _).
      by eapply lookup_weaken. }
    split; [done | by apply (Hf n)].
  - intros d Hd. apply terminate_resolves; [done |].
    apply run_tracked; [apply inv_init | by right].
Qed.

End EngineClaims.

(** * The properties of the facade *)

Section FacadeClaims.

Variable env : Environment.

(** An object that has the engine has the caches. *)
Lemma cxn_attrs c s :
  cxn c = Some s →
  ∃ servers settings, attrs c = Caches servers settings (Some s).
Proof.
  unfold cxn. destruct (attrs c) as [| servers settings e]; [done |].
  intros ->. eauto.
Qed.

Lemma caches_attrs c :
  is_Some (settingCache c) →
  ∃ servers settings e, attrs c = Caches servers settings e.
Proof.
  unfold settingCache. destruct (attrs c) as [| servers settings e].
  - by intros [x Hx].
  - eauto.
Qed.

Lemma cxn_caches c s : cxn c = Some s → is_Some (settingCache c).
Proof.
  intros H. apply cxn_attrs in H as (servers & settings & H).
  unfold settingCache. rewrite H. eauto.
Qed.

(** The engine of an object that has one is replaced in place. *)
Lemma cxn_set_cxn c c' s s' :
  cxn c = Some s → attrs c' = attrs c → cxn (set_cxn s' c') = Some s'.
Proof.
  intros Hc Ha. apply cxn_attrs in Hc as (servers & settings & Hc).
  unfold cxn. simpl. by rewrite Ha, Hc.
Qed.

(** Without the caches, [_lookupNames] fails on the first cache it reads
    and does nothing else. *)
Lemma _lookupNames_no_caches server records c :
  settingCache c = None →
  _lookupNames env server records c = (Raise (no_cache_error server), c).
Proof.
  intros H.
  assert (Ha : attrs c = NoCaches).
  { unfold settingCache in H. by destruct (attrs c). }
  unfold _lookupNames, no_cache_error. unfold bind at 1.
  destruct server as [n | nm].
  - unfold ret at 1. unfold bind at 1.
    unfold get_settingCache, settingCache. by rewrite Ha.
  - unfold bind at 1. unfold get_serverCache, serverCache. by rewrite Ha.
Qed.

Lemma get_caches c servers settings e :
  attrs c = Caches servers settings e →
  get_serverCache c = (Ok servers, c) ∧ get_settingCache c = (Ok settings, c) ∧
  serverCache c = Some servers ∧ settingCache c = Some settings.
Proof.
  intros Ha.
  unfold get_serverCache, get_settingCache, serverCache, settingCache.
  by rewrite Ha.
Qed.

(** [_lookupNames] on an object that has the caches. *)
Lemma _lookupNames_start server records c servers settings e :
  attrs c = Caches servers settings e →
  _lookupNames env server records c =
  (let server := resolve_server servers server in
   let records := substitute_settings settings server records in
   let lookups := settingLookups records in
   if is_Name server || match lookups with [] => false | _ => true end
   then
     match _sendRequestNoLookup env (Num (MANAGER_ID env))
             (lookup_records env server lookups.*2) (0, 0) None c with
     | (Ok _, c') =>
         (Raise (TypeError "'Future' object does not support indexing"), c')
     | (Raise e, c') => (Raise e, c')
     | (Hang, c') => (Hang, c')
     end
   else (Ok (server, records), c)).
Proof.
  intros Ha. destruct (get_caches c servers settings e Ha) as (H1 & H2 & _).
  unfold _lookupNames. unfold bind at 1.
  assert (Hs : (match server with
                | Name _ => let* cache := get_serverCache in
                            ret (resolve_server cache server)
                | Num _ => ret server
                end) c = (Ok (resolve_server servers server), c)).
  { destruct server as [n | nm]; [done |]. unfold bind. by rewrite H1. }
  rewrite Hs. unfold bind at 1. rewrite H2. cbv zeta.
  destruct (is_Name (resolve_server servers server) || _); [| done].
  unfold bind at 1.
  match goal with
  | |- context [_sendRequestNoLookup env ?t ?r ?x ?o c] =>
      destruct (_sendRequestNoLookup env t r x o c) as [[d | e0 |] c']
  end; reflexivity.
Qed.

(** The fast path of [_lookupNames]: nothing is left to look up, and the
    cached values are returned without touching the connection. *)
Lemma _lookupNames_cached server records c :
  is_Some (settingCache c) →
  needs_lookup c server records = false →
  _lookupNames env server records c =
  (Ok (cached_server c server,
       cached_settings c (cached_server c server) records), c).
Proof.
  intros Hs H. apply caches_attrs in Hs as (servers & settings & e & Ha).
  destruct (get_caches c servers settings e Ha) as (_ & _ & H1 & H2).
  rewrite (_lookupNames_start _ _ _ _ _ _ Ha).
  unfold needs_lookup, cached_server, cached_settings in *.
  rewrite H1, H2 in *. cbv zeta. by rewrite H.
Qed.

(** The slow path of [_lookupNames], as far as the lookup request. *)
Lemma _lookupNames_lookup server records c :
  is_Some (settingCache c) →
  needs_lookup c server records = true →
  let server' := cached_server c server in
  let names := (settingLookups (cached_settings c server' records)).*2 in
  _lookupNames env server records c =
  match _sendRequestNoLookup env (Num (MANAGER_ID env))
          (lookup_records env server' names) (0, 0) None c with
  | (Ok _, c') => (Raise (TypeError "'Future' object does not support indexing"), c')
  | (Raise e, c') => (Raise e, c')
  | (Hang, c') => (Hang, c')
  end.
Proof.
  intros Hs H. apply caches_attrs in Hs as (servers & settings & e & Ha).
  destruct (get_caches c servers settings e Ha) as (_ & _ & H1 & H2).
  rewrite (_lookupNames_start _ _ _ _ _ _ Ha).
  unfold needs_lookup, cached_server, cached_settings in *.
  rewrite H1, H2 in *. cbv zeta. by rewrite H.
Qed.

Lemma _sendPacket_alive target context records future c s :
  cxn c = Some s → alive s = true →
  _sendPacket env target context records future c =
  (Ok tt, set_cxn (set_queue (queue s ++
             [CmdPacket target context (flattenRecords env records) future]) s) c).
Proof.
  intros Hc Ha. unfold _sendPacket, enqueue. by rewrite Hc, Ha.
Qed.

Lemma _sendPacket_dead target context records future c s :
  cxn c = Some s → alive s = false →
  _sendPacket env target context records future c =
  (Raise (Exception "not connected"), set_connected false (set_cxn s c)).
Proof.
  intros Hc Ha. unfold _sendPacket, enqueue. by rewrite Hc, Ha.
Qed.

Lemma preserves_ret {A} P (a : A) : preserves P (ret a).
Proof. by intros c H. Qed.

Lemma preserves_raise {A} P e : preserves P (raise (A := A) e).
Proof. by intros c H. Qed.

Lemma preserves_bind {A B} P (m : M A) (k : A → M B) :
  preserves P m → (∀ a, preserves P (k a)) → preserves P (bind m k).
Proof.
  intros Hm Hk c H. unfold bind. specialize (Hm c H).
  destruct (m c) as [[a | e |] c']; simpl in *; [by apply Hk | done | done].
Qed.

Lemma preserves_try_except {A} P (m : M A) (h : PyExc → M A) :
  preserves P m → (∀ e, preserves P (h e)) → preserves P (try_except m h).
Proof.
  intros Hm Hh c H. unfold try_except. specialize (Hm c H).
  destruct (m c) as [[a | e |] c']; simpl in *; [done | by apply Hh | done].
Qed.

Lemma preserves_modify P f :
  (∀ c, P c → P (f c)) → preserves P (modify f).
Proof. intros Hf c H. by apply Hf. Qed.

Lemma _sendPacket_connecting target context records future :
  preserves connecting (_sendPacket env target context records future).
Proof.
  intros c [Hc Hl]. unfold _sendPacket.
  destruct (cxn c) as [s |]; [| done].
  by destruct (enqueue target context (flattenRecords env records) future s)
    as [[[] | e |] s'].
Qed.

Lemma _sendRequestNoLookup_connecting target records context timeout :
  preserves connecting (_sendRequestNoLookup env target records context timeout).
Proof.
  intros c H. unfold _sendRequestNoLookup.
  destruct timeout as [t |]; [exact H |].
  apply (preserves_bind connecting); [| intros; apply preserves_ret | exact H].
  apply _sendPacket_connecting.
Qed.

Lemma _lookupNames_connecting server records :
  preserves connecting (_lookupNames env server records).
Proof.
  intros c H. destruct (settingCache c) as [cache |] eqn:Hc;
    [| by rewrite (_lookupNames_no_caches server records c Hc)].
  assert (Hc' : is_Some (settingCache c)) by eauto.
  destruct (needs_lookup c server records) eqn:Hn.
  - rewrite (_lookupNames_lookup server records c Hc' Hn).
    match goal with
    | |- context [_sendRequestNoLookup env ?t ?r ?x ?o c] =>
        pose proof (_sendRequestNoLookup_connecting t r x o c H) as Hs;
        destruct (_sendRequestNoLookup env t r x o c) as [[d | e |] c']
    end; exact Hs.
  - by rewrite (_lookupNames_cached server records c Hc' Hn).
Qed.

Lemma sendRequest_connecting target records context timeout :
  preserves connecting (sendRequest env target records context timeout).
Proof.
  apply preserves_bind; [apply _lookupNames_connecting |].
  intros [t r]. apply _sendRequestNoLookup_connecting.
Qed.

Lemma result_connecting d io : preserves connecting (result env d io).
Proof.
  intros c H. unfold result. destruct (cxn c) as [s |]; [| done].
  by destruct (future_state (run (flattenPacket env) io s) d) as [| r | [e | m]].
Qed.

Lemma first_payload_connecting resp : preserves connecting (first_payload resp).
Proof. destruct resp; [apply preserves_raise | apply preserves_ret]. Qed.

Lemma login_connecting password ident sched :
  preserves connecting (login env password ident sched).
Proof.
  unfold login.
  apply preserves_bind; [apply sendRequest_connecting | intros d].
  apply preserves_bind; [apply result_connecting | intros resp].
  apply preserves_bind; [apply first_payload_connecting | intros challenge].
  apply preserves_bind.
  { destruct challenge; first [apply preserves_ret | apply preserves_raise]. }
  intros challenge'.
  apply preserves_bind.
  { apply preserves_try_except; [| intros; apply preserves_raise].
    apply preserves_bind; [apply sendRequest_connecting |].
    intros d'. apply result_connecting. }
  intros resp'.
  apply preserves_bind; [apply first_payload_connecting | intros message].
  apply preserves_bind; [apply preserves_modify; by intros c H | intros _].
  apply preserves_bind.
  { apply preserves_try_except; [| intros; apply preserves_raise].
    apply preserves_bind; [apply sendRequest_connecting |].
    intros d'. apply result_connecting. }
  intros resp''. apply first_payload_connecting.
Qed.

(** The [disconnect] in the handler of [_connect] does nothing. *)
Lemma disconnect_connecting sched c :
  connecting c → disconnect env sched c = (Ok tt, c).
Proof. intros [H _]. unfold disconnect. by rewrite H. Qed.

(** [_connect] never joins the I/O thread. *)
Lemma _connect_never_joins password timeout tls_mode sched c :
  loop c ≠ Joined →
  loop (_connect env password timeout tls_mode sched c).2 ≠ Joined.
Proof.
  intros Hl. unfold _connect. unfold bind at 1.
  destruct (check_tls_mode env tls_mode) as [mode | e |]; [| done | done].
  destruct (String.eqb mode "on"); [done |].
  unfold bind at 1. simpl.
  match goal with |- loop (try_except ?m ?h ?c).2 ≠ Joined =>
    cut (connecting (try_except m h c).2); [by intros [_ ?] |];
    apply (preserves_try_except connecting m h)
  end.
  - apply preserves_bind; [by intros c' H |]. intros _.
    apply preserves_bind.
    { apply preserves_modify. by intros c' [H1 H2]. }
    intros _. apply preserves_try_except.
    + intros c' H. by apply login_connecting.
    + intros e. apply preserves_bind; [| intros; apply preserves_raise].
      intros c' H. by rewrite disconnect_connecting.
  - intros e. apply preserves_raise.
  - by split.
Qed.

(** C3. When a name is left to look up and the engine is alive,
    [_lookupNames] puts exactly one lookup request for the manager on the
    queue, carrying the server (name or known ID) and the unresolved
    setting names, and then raises a [TypeError], because it subscripts
    the future of the request instead of its result; the caches stay as
    they were, so the same call needs a lookup again. *)
Theorem C3_lookup_miss_raises server records c s :
  cxn c = Some s → alive s = true →
  needs_lookup c server records = true →
  let server' := cached_server c server in
  let names := (settingLookups (cached_settings c server' records)).*2 in
  let r := _lookupNames env server records c in
  r.1 = Raise (TypeError "'Future' object does not support indexing") ∧
  cxn r.2 =
    Some (set_queue (queue s ++
            [CmdPacket (Num (MANAGER_ID env)) (0, 0)
               (flattenRecords env (lookup_records env server' names))
               (Some (nextFuture c))]) s) ∧
  serverCache r.2 = serverCache c ∧
  settingCache r.2 = settingCache c ∧
  needs_lookup r.2 server records = true.
Proof.
  intros Hc Ha Hn. simpl.
  rewrite (_lookupNames_lookup server records c (cxn_caches c s Hc) Hn).
  unfold _sendRequestNoLookup, bind.
  erewrite _sendPacket_alive; [| exact Hc | exact Ha].
  destruct (cxn_attrs c s Hc) as (servers & settings & Hattrs).
  simpl.
  unfold needs_lookup, cached_server, cached_settings, cxn, serverCache,
    settingCache in *.
  simpl. rewrite Hattrs in *. simpl.
  split_and!; try done.
Qed.

(** C7. With a TLS mode that [check_tls_mode] gives back as ["on"],
    [_connect] raises before it opens a socket or changes the connection,
    and [connect] has only recorded the host and the port.  On an object
    that has its lookup caches (they are made by [_connect] once the TLS
    check has passed), [sendRequest] with a timeout, on a target and
    settings that need no lookup, raises the unsupported-timeout
    exception; a future object was made, and nothing else changed:
    nothing was put on the queue.  On an object without the caches,
    [sendRequest] raises the [AttributeError] of the first cache it reads,
    with or without a timeout, and changes nothing. *)
Theorem C7_unsupported_features :
  (∀ password timeout tls_mode sched c,
     check_tls_mode env tls_mode = Ok "on" →
     _connect env password timeout tls_mode sched c =
     (Raise (Exception "TLS is not currently supported with the asyncore backend"), c)) ∧
  (∀ host port timeout password tls_mode sched c,
     check_tls_mode env tls_mode = Ok "on" →
     connect env host port timeout password tls_mode sched c =
     (Raise (Exception "TLS is not currently supported with the asyncore backend"),
      set_host_port host port c)) ∧
  (∀ target records context t c,
     is_Some (settingCache c) →
     needs_lookup c target records = false →
     sendRequest env target records context (Some t) c =
     (Raise (Exception "Timeouts not supported in asyncore backend"),
      set_nextFuture (S (nextFuture c)) c)) ∧
  (∀ target records context timeout c,
     settingCache c = None →
     sendRequest env target records context timeout c =
     (Raise (no_cache_error target), c)).
Proof.
  split_and!.
  - intros password timeout tls_mode sched c H.
    unfold _connect, bind. by rewrite H.
  - intros host port timeout password tls_mode sched c H.
    unfold connect, _connect, bind, modify. simpl. by rewrite H.
  - intros target records context t c Hs H.
    unfold sendRequest, bind. by rewrite (_lookupNames_cached _ _ _ Hs H).
  - intros target records context timeout c Hs.
    unfold sendRequest, bind. by rewrite (_lookupNames_no_caches _ _ _ Hs).
Qed.

(** C10. On a dead engine [sendRequest] (without timeout) and [sendMessage]
    raise the "not connected" of [enqueue] with the facade's [connected]
    set to [False] and the engine as it was; [disconnect] then returns
    at once and leaves everything as it is: no [drop], no [join]. *)
Theorem C10_enqueue_failure_marks_disconnected target records context c s :
  cxn c = Some s → alive s = false →
  let r1 := sendRequest env target records context None c in
  let r2 := sendMessage env target records context c in
  r1.1 = Raise (Exception "not connected") ∧ connected r1.2 = false ∧
  cxn r1.2 = Some s ∧ loop r1.2 = loop c ∧
  r2.1 = Raise (Exception "not connected") ∧ connected r2.2 = false ∧
  cxn r2.2 = Some s ∧ loop r2.2 = loop c ∧
  (∀ sched, disconnect env sched r1.2 = (Ok tt, r1.2)) ∧
  (∀ sched, disconnect env sched r2.2 = (Ok tt, r2.2)).
Proof.
  intros Hc Ha r1 r2. subst r1 r2.
  assert (Hd : ∀ c' : AsyncoreConnection, connected c' = false →
                 ∀ sched, disconnect env sched c' = (Ok tt, c')).
  { intros c' H sched. unfold disconnect. by rewrite H. }
  assert (Hx : ∀ c' : AsyncoreConnection, attrs c' = attrs c →
                 cxn (set_connected false (set_cxn s c')) = Some s).
  { intros c' Hc'. destruct (cxn_attrs c s Hc) as (servers & settings & Hattrs).
    unfold cxn. simpl. by rewrite Hc', Hattrs. }
  unfold sendRequest, sendMessage, bind.
  destruct (needs_lookup c target records) eqn:Hn.
  - rewrite (_lookupNames_lookup target records c (cxn_caches c s Hc) Hn).
    unfold _sendRequestNoLookup, bind.
    erewrite _sendPacket_dead; [| exact Hc | exact Ha].
    simpl. split_and!; try done; first [by apply Hx | by apply Hd].
  - rewrite (_lookupNames_cached _ _ _ (cxn_caches c s Hc) Hn).
    unfold _sendRequestNoLookup, bind.
    erewrite !_sendPacket_dead; [| exact Hc | exact Ha | exact Hc | exact Ha].
    simpl. split_and!; try done; first [by apply Hx | by apply Hd].
Qed.

(** C5. On a live engine, for a target and settings that need no lookup,
    and whatever else is waiting in the queue: [sendMessage] returns with
    the request table as it was, and the next flush adds to what it does
    anyway the packet of the message, with request tag 0, and no entry.
    [sendRequest] returns its future with the table as it was; the next
    flush gives the request an ID [n > 0] that is not in the table, adds
    the one entry from [n] to the future, and adds the packet with tag
    [n].  A reply with tag [- n] removes that entry again.  A termination
    fails the future with its reason and leaves the entry in the table. *)
Theorem C5_message_and_request_framing pick target records context c s :
  cxn c = Some s → alive s = true → inv s →
  needs_lookup c target records = false →
  let target' := cached_server c target in
  let flat := flattenRecords env (cached_settings c target' records) in
  let d := nextFuture c in
  let s0 := (flushCommands (flattenPacket env) pick s).1 in
  (∃ c1 s1,
     sendMessage env target records context c = (Ok tt, c1) ∧
     cxn c1 = Some s1 ∧ requests s1 = requests s ∧
     let s2 := (flushCommands (flattenPacket env) pick s1).1 in
     requests s2 = requests s0 ∧
     buffer s2 = buffer s0 +:+ flattenPacket env target' context 0 flat) ∧
  (∃ c1 s1 n,
     sendRequest env target records context None c = (Ok d, c1) ∧
     cxn c1 = Some s1 ∧ requests s1 = requests s ∧
     let s2 := (flushCommands (flattenPacket env) pick s1).1 in
     0 < n ∧ requests s0 !! n = None ∧
     requests s2 = <[n := d]> (requests s0) ∧
     size (requests s2) = S (size (requests s0)) ∧
     buffer s2 = buffer s0 +:+ flattenPacket env target' context n flat ∧
     (∀ replies, requests (handleResponse (- n) replies s2) = requests s0) ∧
     (∀ pick' reason,
        let s3 := terminate (flattenPacket env) pick' reason s2 in
        requests s3 !! n = Some d ∧ future_state s3 d = Failed reason)).
Proof.
  intros Hc Ha Hinv Hn target' flat d s0. split.
  - exists (set_cxn (set_queue (queue s ++ [CmdPacket target' context flat None]) s) c),
           (set_queue (queue s ++ [CmdPacket target' context flat None]) s).
    unfold sendMessage, bind.
    rewrite (_lookupNames_cached _ _ _ (cxn_caches c s Hc) Hn).
    erewrite _sendPacket_alive; [| exact Hc | exact Ha].
    destruct (drain_snoc_message (flattenPacket env) pick (queue s)
                (queue s ++ [CmdPacket target' context flat None]) s
                target' context flat) as (Hr & _ & _ & Hb).
    split_and!; try reflexivity;
      [by eapply cxn_set_cxn | exact Hr | exact Hb].
  - destruct (drain_spec (flattenPacket env) pick (queue s) s Hinv) as [Hinv0 _].
    fold (flushCommands (flattenPacket env) pick s) in Hinv0. fold s0 in Hinv0.
    destruct (startRequest_spec pick d s0 Hinv0) as (Hfree & Hpos & _).
    simpl in Hfree, Hpos.
    destruct (drain_snoc_request (flattenPacket env) pick (queue s)
                (queue s ++ [CmdPacket target' context flat (Some d)]) s
                target' context flat d) as (Hr & Hb).
    fold (flushCommands (flattenPacket env) pick s) in Hr, Hb.
    fold s0 in Hr, Hb.
    set (s1 := set_queue (queue s ++ [CmdPacket target' context flat (Some d)]) s) in *.
    change (drain (flattenPacket env) pick
              (queue s ++ [CmdPacket target' context flat (Some d)]) s1)
      with (flushCommands (flattenPacket env) pick s1) in Hr, Hb.
    set (s2 := (flushCommands (flattenPacket env) pick s1).1) in *.
    set (n := (startRequest pick d s0).1) in *.
    exists (set_cxn s1 (set_nextFuture (S d) c)), s1, n.
    unfold sendRequest, bind.
    rewrite (_lookupNames_cached _ _ _ (cxn_caches c s Hc) Hn).
    unfold _sendRequestNoLookup, bind.
    erewrite _sendPacket_alive; [| exact Hc | exact Ha].
    assert (Hs2 : requests s2 !! n = Some d).
    { rewrite Hr. apply lookup_insert_eq. }
    split_and!; fold s2; try done.
    + by eapply cxn_set_cxn.
    + lia.
    + rewrite Hr. by apply map_size_insert_None.
    + intros replies.
      destruct (handleResponse_hit (- n) replies s2 d) as (-> & _).
      * by rewrite Z.opp_involutive.
      * rewrite Z.opp_involutive, Hr, delete_insert_eq. by apply delete_id.
    + intros pick' reason.
      assert (Ht : requests (terminate (flattenPacket env) pick' reason s2) !! n = Some d).
      { rewrite terminate_entries.
        assert (Hq : queue s2 = []) by by apply drain_queue.
        rewrite Hq. exact Hs2. }
      split; [exact Ht |].
      eapply terminate_terminated. exact Ht.
Qed.


End FacadeClaims.


(** * The properties on concrete inputs *)

(** C1 on the sample run: ID 1 has been answered and is in the pool only. *)
Lemma C1_witness :
  reachable sample_flattenPacket sample_state ∧
  ¬ (is_Some (requests sample_state !! 1) ∧ 1 ∈ pool sample_state).
Proof.
  assert (H : reachable sample_flattenPacket sample_state).
  { apply reachable_run, reachable_init. }
  split; [exact H |].
  apply (C1_pending_and_free_disjoint sample_flattenPacket sample_state H).
Defined.



(** C4 on the answer to request 1 of the sample run. *)
Lemma C4_witness :
  -1 < 0 ∧
  requests (handleResponse (-1) [(3, DWord 4)] sample_pending) !! 1 = None ∧
  future_state (handleResponse (-1) [(3, DWord 4)] sample_pending) 7%nat =
    Finished [(3, DWord 4)].
Proof.
  assert (H : -1 < 0) by lia.
  split; [exact H |].
  pose proof (C4_demultiplex (-1) [(3, DWord 4)] sample_pending H) as C.
  change (requests sample_pending !! (- (-1))) with (Some 7%nat) in C.
  destruct C as (_ & P1 & _ & P2 & _). split; [exact P1 | exact P2].
Defined.

(** C9 on a request that is still in the queue when the connection is lost. *)
Lemma C9_witness :
  7%nat ∈ accepted sample_flattenPacket
            [EvEnqueue (Num 5) (0, 1) "a" (Some 7%nat)] init ∧
  future_state
    (terminate sample_flattenPacket sample_pick
       (CauseExc (Exception "Connection lost"))
       (run sample_flattenPacket [EvEnqueue (Num 5) (0, 1) "a" (Some 7%nat)] init))
    7%nat ≠ Pending.
Proof.
  assert (H : 7%nat ∈ accepted sample_flattenPacket
                [EvEnqueue (Num 5) (0, 1) "a" (Some 7%nat)] init).
  { simpl. apply list_elem_of_here. }
  split; [exact H |].
  apply (C9_queued_requests_failed sample_flattenPacket sample_pick
           (CauseExc (Exception "Connection lost"))
           [EvEnqueue (Num 5) (0, 1) "a" (Some 7%nat)]).
  exact H.
Defined.

(** C3 on the names of an instrument server, with empty caches: one lookup
    request is queued, the call raises, and the names are as unknown as
    before. *)
Lemma C3_witness :
  cxn sample_connection = Some init ∧ alive init = true ∧
  needs_lookup sample_connection (Name "Lakeshore 218")
    [(Name "temperatures", (DNone, []))] = true ∧
  (_lookupNames sample_env (Name "Lakeshore 218")
     [(Name "temperatures", (DNone, []))] sample_connection).1 =
    Raise (TypeError "'Future' object does not support indexing") ∧
  needs_lookup
    (_lookupNames sample_env (Name "Lakeshore 218")
       [(Name "temperatures", (DNone, []))] sample_connection).2
    (Name "Lakeshore 218") [(Name "temperatures", (DNone, []))] = true.
Proof.
  assert (H1 : cxn sample_connection = Some init) by reflexivity.
  assert (H2 : alive init = true) by reflexivity.
  assert (H3 : needs_lookup sample_connection (Name "Lakeshore 218")
                 [(Name "temperatures", (DNone, []))] = true) by reflexivity.
  split_and!; [exact H1 | exact H2 | exact H3 | |];
    apply (C3_lookup_miss_raises sample_env (Name "Lakeshore 218")
             [(Name "temperatures", (DNone, []))] sample_connection init H1 H2 H3).
Defined.

(** C5 on one record with numeric IDs sent on the sample connection. *)
Lemma C5_witness :
  cxn sample_connection = Some init ∧ alive init = true ∧ inv init ∧
  needs_lookup sample_connection (Num 5) [(Num 3, (DNone, []))] = false ∧
  ∃ c1 s1,
    sendMessage sample_env (Num 5) [(Num 3, (DNone, []))] (0, 0) sample_connection =
      (Ok tt, c1) ∧
    cxn c1 = Some s1 ∧ requests s1 = requests init ∧
    let s2 := (flushCommands sample_flattenPacket sample_pick s1).1 in
    requests s2 = requests (flushCommands sample_flattenPacket sample_pick init).1 ∧
    buffer s2 =
      buffer (flushCommands sample_flattenPacket sample_pick init).1 +:+
      sample_flattenPacket (Num 5) (0, 0) 0 "r".
Proof.
  assert (H1 : cxn sample_connection = Some init) by reflexivity.
  assert (H2 : alive init = true) by reflexivity.
  assert (H5 : needs_lookup sample_connection (Num 5) [(Num 3, (DNone, []))] = false)
    by reflexivity.
  split_and!; [exact H1 | exact H2 | exact inv_init | exact H5 |].
  apply (C5_message_and_request_framing sample_env sample_pick (Num 5)
           [(Num 3, (DNone, []))] (0, 0) sample_connection init
           H1 H2 inv_init H5).
Defined.

(** The entry of a request is still in the table after the connection is
    lost: the request got ID 1, and ID 1 still maps to its future once
    [handle_close] has terminated the engine. *)
Lemma C5_counterexample :
  (sendRequest sample_env (Num 5) [(Num 3, (DNone, []))] (0, 0) None
     sample_connection).1 = Ok 0%nat ∧
  requests sent_request !! 1 = Some 0%nat ∧
  requests (handle_close sample_flattenPacket sample_pick sent_request) !! 1 =
    Some 0%nat ∧
  future_state (handle_close sample_flattenPacket sample_pick sent_request) 0%nat =
    Failed (CauseExc (Exception "Connection lost")).
Proof. split_and!; vm_compute; reflexivity. Qed.

(** C6. Whatever the environment and the schedule, [_connect] never joins
    the I/O thread: the [disconnect] in its handler finds [connected]
    false.  So for a connect with a wrong password, to a manager that
    answers the digest with an error record, [connect] raises the login
    failure "Incorrect password." and leaves the engine alive with its
    socket open, nothing dropped and the I/O thread not joined. *)
Theorem C6_wrong_password_no_teardown :
  (∀ env password timeout tls_mode sched c,
     loop c ≠ Joined →
     loop (_connect env password timeout tls_mode sched c).2 ≠ Joined) ∧
  (connect sample_env "localhost" None None (Some "bad") "off" wrong_password
     (new_connection "cli")).1 =
    Raise (LoginFailedError (ArgStr "Incorrect password.")) ∧
  (closed <$> cxn (connect sample_env "localhost" None None (Some "bad") "off"
                     wrong_password (new_connection "cli")).2) = Some false ∧
  (alive <$> cxn (connect sample_env "localhost" None None (Some "bad") "off"
                    wrong_password (new_connection "cli")).2) = Some true ∧
  (queue <$> cxn (connect sample_env "localhost" None None (Some "bad") "off"
                    wrong_password (new_connection "cli")).2) = Some [] ∧
  loop (connect sample_env "localhost" None None (Some "bad") "off"
          wrong_password (new_connection "cli")).2 = Started.
Proof.
  split; [exact _connect_never_joins |].
  split_and!; vm_compute; reflexivity.
Qed.

(** C6 on the wrong password of the sample schedule. *)
Lemma C6_witness :
  loop (new_connection "cli") ≠ Joined ∧
  loop (_connect sample_env (Some "bad") None "off" wrong_password
          (new_connection "cli")).2 ≠ Joined.
Proof.
  assert (H : loop (new_connection "cli") ≠ Joined) by (simpl; discriminate).
  split; [exact H |].
  destruct C6_wrong_password_no_teardown as [P _].
  exact (P sample_env (Some "bad") None "off" wrong_password (new_connection "cli") H).
Defined.

(** C7 with the sample environment, and a numeric target and setting: on
    the sample connection, and on an object that was never connected. *)
Lemma C7_witness :
  check_tls_mode sample_env "on" = Ok "on" ∧
  _connect sample_env None None "on" wrong_password (new_connection "cli") =
    (Raise (Exception "TLS is not currently supported with the asyncore backend"),
     new_connection "cli") ∧
  is_Some (settingCache sample_connection) ∧
  needs_lookup sample_connection (Num 5) [(Num 3, (DNone, []))] = false ∧
  sendRequest sample_env (Num 5) [(Num 3, (DNone, []))] (0, 0) (Some 5)
    sample_connection =
    (Raise (Exception "Timeouts not supported in asyncore backend"),
     set_nextFuture 1%nat sample_connection) ∧
  settingCache (new_connection "cli") = None ∧
  sendRequest sample_env (Num 5) [(Num 3, (DNone, []))] (0, 0) (Some 5)
    (new_connection "cli") =
    (Raise (AttributeError
       "'AsyncoreConnection' object has no attribute 'settingCache'"),
     new_connection "cli").
Proof.
  assert (H1 : check_tls_mode sample_env "on" = Ok "on") by reflexivity.
  assert (H2 : is_Some (settingCache sample_connection)) by (simpl; eauto).
  assert (H3 : needs_lookup sample_connection (Num 5) [(Num 3, (DNone, []))] = false)
    by reflexivity.
  assert (H4 : settingCache (new_connection "cli") = None) by reflexivity.
  destruct (C7_unsupported_features sample_env) as (P1 & _ & P3 & P4).
  split_and!; [exact H1 | | exact H2 | exact H3 | | exact H4 |].
  - exact (P1 None None "on" wrong_password (new_connection "cli") H1).
  - exact (P3 (Num 5) [(Num 3, (DNone, []))] (0, 0) 5 sample_connection H2 H3).
  - exact (P4 (Num 5) [(Num 3, (DNone, []))] (0, 0) (Some 5)
             (new_connection "cli") H4).
Defined.

(** A timeout on a request by name: the lookup request is queued before
    the timeout is looked at, and the call raises a [TypeError]. *)
Lemma C7_counterexample :
  (sendRequest sample_env (Name "Lakeshore 218") [] (0, 0) (Some 5)
     sample_connection).1 =
    Raise (TypeError "'Future' object does not support indexing") ∧
  (queue <$> cxn (sendRequest sample_env (Name "Lakeshore 218") [] (0, 0) (Some 5)
                    sample_connection).2) =
    Some [CmdPacket (Num 1) (0, 0) "r" (Some 0%nat)].
Proof. split_and!; vm_compute; reflexivity. Qed.

(** C10 on a facade whose engine lost its connection. *)
Lemma C10_witness :
  cxn lost_connection =
    Some (handle_close sample_flattenPacket sample_pick init) ∧
  alive (handle_close sample_flattenPacket sample_pick init) = false ∧
  (sendMessage sample_env (Num 5) [(Num 3, (DNone, []))] (0, 0)
     lost_connection).1 = Raise (Exception "not connected") ∧
  connected (sendMessage sample_env (Num 5) [(Num 3, (DNone, []))] (0, 0)
               lost_connection).2 = false ∧
  disconnect sample_env wrong_password
    (sendMessage sample_env (Num 5) [(Num 3, (DNone, []))] (0, 0)
       lost_connection).2 =
  (Ok tt, (sendMessage sample_env (Num 5) [(Num 3, (DNone, []))] (0, 0)
             lost_connection).2).
Proof.
  assert (H1 : cxn lost_connection =
               Some (handle_close sample_flattenPacket sample_pick init))
    by reflexivity.
  assert (H2 : alive (handle_close sample_flattenPacket sample_pick init) = false)
    by reflexivity.
  destruct (C10_enqueue_failure_marks_disconnected sample_env (Num 5)
              [(Num 3, (DNone, []))] (0, 0) lost_connection
              (handle_close sample_flattenPacket sample_pick init) H1 H2)
    as (_ & _ & _ & _ & P5 & P6 & _ & _ & _ & P10).
  split_and!; [exact H1 | exact H2 | exact P5 | exact P6 | exact (P10 wrong_password)].
Defined.


(** * Further properties of the protocol engine *)

Lemma string_append_cons x (a b : string) :
  String x a +:+ b = String x (a +:+ b).
Proof. reflexivity. Qed.

Lemma string_append_assoc (a b c : string) : (a +:+ b) +:+ c = a +:+ (b +:+ c).
Proof.
  induction a as [| x a IH]; [done |].
  by rewrite !string_append_cons, IH.
Qed.

Lemma string_append_empty (a : string) : a +:+ "" = a.
Proof.
  induction a as [| x a IH]; [done |].
  by rewrite string_append_cons, IH.
Qed.

Lemma string_upto_from sent b : string_upto sent b +:+ string_from sent b = b.
Proof.
  revert b. induction sent as [| k IH]; intros [| a b]; simpl; try done.
  by rewrite string_append_cons, IH.
Qed.

Lemma string_upto_length sent b :
  String.length (string_upto sent b) = Nat.min sent (String.length b).
Proof.
  revert b. induction sent as [| k IH]; intros [| a b]; simpl; try done.
  by rewrite IH.
Qed.

Section EngineExtras.

Variable flattenPacket : Ident → Context → Z → string → string.

(** X1. On every reachable state a packet whose request tag is zero or
    positive (a message or a request from the other side) is ignored:
    [handleResponse] leaves the engine as it is. *)
Theorem handleResponse_ignores_nonnegative request records s :
  reachable flattenPacket s → 0 ≤ request →
  handleResponse request records s = s.
Proof.
  intros Hreach Hpos. apply handleResponse_miss.
  destruct (reachable_inv flattenPacket s Hreach) as (_ & Hrange & _).
  destruct (requests s !! (- request)) as [d |] eqn:E; [| done].
  assert (1 ≤ - request < nextRequest s) by (apply Hrange; eauto). lia.
Qed.

(** X2. A second reply with the same request tag is ignored: once
    [handleResponse] has handled a tag, handling it again, with whatever
    records, changes nothing. *)
Theorem handleResponse_duplicate request records records' s :
  handleResponse request records' (handleResponse request records s) =
  handleResponse request records s.
Proof.
  apply handleResponse_miss.
  destruct (requests s !! (- request)) as [d |] eqn:E.
  - destruct (handleResponse_hit request records s d E) as (-> & _).
    apply lookup_delete_eq.
  - by rewrite handleResponse_miss.
Qed.

(** X3. With an empty pool, the ID that a reply releases is the ID that
    the next request gets, and the counter stays where it was. *)
Theorem released_id_is_reused pick n d d' records s :
  pool s = ∅ → requests s !! n = Some d →
  let s' := handleResponse (- n) records s in
  (startRequest pick d' s').1 = n ∧
  nextRequest (startRequest pick d' s').2 = nextRequest s ∧
  requests (startRequest pick d' s').2 = <[n := d']> (delete n (requests s)).
Proof.
  intros Hp Hn s'.
  destruct (handleResponse_hit (- n) records s d) as (Hr & Hpool & _ & _ & Hnext & _).
  { by rewrite Z.opp_involutive. }
  rewrite Z.opp_involutive in Hr, Hpool. fold s' in Hr, Hpool, Hnext.
  assert (Hs : pool s' = {[n]}) by (rewrite Hpool, Hp; set_solver).
  assert (Hid : (startRequest pick d' s').1 = n).
  { unfold startRequest. rewrite decide_True by (rewrite Hs, size_singleton; lia).
    pose proof (set_pop_elem pick (pool s')) as Hin.
    destruct (set_pop pick (pool s')) as [m p]. simpl in *.
    rewrite Hs in Hin.
    assert (Hm : m ∈ ({[n]} : gset Z)) by (apply Hin; set_solver).
    set_solver. }
  split_and!.
  - exact Hid.
  - unfold startRequest. rewrite decide_True by (rewrite Hs, size_singleton; lia).
    destruct (set_pop pick (pool s')). simpl. exact Hnext.
  - rewrite startRequest_entry, Hid, Hr. reflexivity.
Qed.

Lemma drain_alive_closed pick q s :
  alive s = negb (closed s) →
  alive (drain flattenPacket pick q s).1 =
  negb (closed (drain flattenPacket pick q s).1).
Proof.
  revert s. induction q as [| command q IH]; intros s H; [done |].
  simpl. destruct command as [| data | target context flat future].
  - simpl. unfold terminate_with.
    match goal with |- context [fail_all ?r ?x] =>
      destruct (fail_all_frame r x) as (-> & _ & _ & _ & _ & _ & ->)
    end.
    by apply IH.
  - by apply IH.
  - destruct future as [d |]; [| by apply IH].
    rewrite startRequest_set_queue. simpl. apply IH. simpl.
    by destruct (startRequest_frame pick d s) as (-> & _ & _ & -> & _).
Qed.

(** X4. On every reachable state the engine is alive exactly while its
    socket is open. *)
Theorem alive_iff_open s :
  reachable flattenPacket s → alive s = negb (closed s).
Proof.
  induction 1 as [| s ev _ IH]; [reflexivity |].
  destruct ev as [t c r f | data | | pick sent | pkts | pick | pick];
    unfold step.
  - unfold enqueue. destruct (alive s) eqn:E; simpl; congruence.
  - exact IH.
  - exact IH.
  - unfold handle_write, flushCommands.
    pose proof (drain_alive_closed pick (queue s) s IH) as H.
    by destruct (drain flattenPacket pick (queue s) s) as [s1 [|]].
  - by destruct (handle_read_releases pkts s) as (_&_&_&_&_&_&->&_&->).
  - unfold handle_error.
    by destruct (terminate_terminated flattenPacket pick
                   (CauseExc (Exception "AsyncoreProtocol error")) s) as (-> & -> & _).
  - unfold handle_close.
    by destruct (terminate_terminated flattenPacket pick
                   (CauseExc (Exception "Connection lost")) s) as (-> & -> & _).
Qed.

(** X5. [handle_write] and [terminate] always leave the queue empty, so
    that [writable] is false after them, and [drop] and a successful
    [enqueue] always make the engine writable again. *)
Theorem writable_after pick sent reason target context flatrecs future s :
  writable (handle_write flattenPacket pick sent s) = false ∧
  writable (terminate flattenPacket pick reason s) = false ∧
  writable (drop s) = true ∧
  (alive s = true →
   writable (enqueue target context flatrecs future s).2 = true).
Proof.
  unfold writable. split_and!.
  - unfold handle_write, flushCommands.
    pose proof (drain_queue flattenPacket pick (queue s) s eq_refl) as H.
    destruct (drain flattenPacket pick (queue s) s) as [s1 [|]]; simpl in *;
      by rewrite H.
  - by destruct (terminate_terminated flattenPacket pick reason s) as (_ & _ & -> & _).
  - simpl. by destruct (queue s).
  - intros Ha. unfold enqueue. rewrite Ha. simpl. by destruct (queue s).
Qed.

Lemma drain_set_queue pick q q0 s :
  q ≠ [] →
  drain flattenPacket pick q (set_queue q0 s) = drain flattenPacket pick q s.
Proof. destruct q as [| command q]; [done | reflexivity]. Qed.

Lemma drain_app pick q1 q2 q0 s :
  q2 ≠ [] → CmdNone ∉ q1 →
  drain flattenPacket pick (q1 ++ q2) (set_queue q0 s) =
  drain flattenPacket pick q2 (drain flattenPacket pick q1 s).1.
Proof.
  intros Hq2. revert s q0. induction q1 as [| command q1 IH]; intros s q0 Hno.
  { simpl. by apply drain_set_queue. }
  assert (Hno' : CmdNone ∉ q1) by (intros H; apply Hno; by right).
  destruct command as [| data | target context flat future].
  - exfalso. apply Hno. by left.
  - exact (IH (set_buffer (buffer s +:+ data) (set_queue q1 s)) (q1 ++ q2) Hno').
  - destruct future as [d |].
    + simpl. rewrite !startRequest_set_queue. simpl.
      exact (IH (set_buffer (buffer (startRequest pick d s).2 +:+
                               flattenPacket target context
                                 (startRequest pick d s).1 flat)
                   (set_queue q1 (startRequest pick d s).2))
                (q1 ++ q2) Hno').
    + exact (IH (set_buffer (buffer s +:+ flattenPacket target context 0 flat)
                   (set_queue q1 s)) (q1 ++ q2) Hno').
Qed.

Lemma set_queue_id s : queue s = [] → set_queue [] s = s.
Proof. destruct s. simpl. by intros ->. Qed.

(** X6. Flushing in batches: when the commands [q1] hold no sentinel,
    flushing [q1] and then [q2] gives the same engine (the same packets in
    the same order, the same IDs) as flushing them in one go. *)
Theorem flush_in_batches pick q1 q2 s :
  CmdNone ∉ q1 →
  flushCommands flattenPacket pick (set_queue (q1 ++ q2) s) =
  flushCommands flattenPacket pick
    (set_queue q2 (flushCommands flattenPacket pick (set_queue q1 s)).1).
Proof.
  intros Hno. unfold flushCommands.
  change (queue (set_queue (q1 ++ q2) s)) with (q1 ++ q2).
  change (queue (set_queue q1 s)) with q1.
  match goal with |- _ = drain _ _ (queue (set_queue q2 ?x)) _ =>
    change (queue (set_queue q2 x)) with q2
  end.
  destruct q2 as [| command q2].
  - rewrite app_nil_r.
    pose proof (drain_queue flattenPacket pick q1 (set_queue q1 s) eq_refl) as Hq.
    destruct (drain_no_sentinel flattenPacket pick q1 (set_queue q1 s) Hno)
      as (Hok & _).
    destruct (drain flattenPacket pick q1 (set_queue q1 s)) as [x ok].
    simpl in *. subst ok. by rewrite set_queue_id.
  - rewrite drain_app by done.
    rewrite (drain_set_queue pick (command :: q2)) by done.
    destruct q1 as [| command1 q1].
    + symmetry. by apply drain_set_queue.
    + by rewrite (drain_set_queue pick (command1 :: q1)).
Qed.

Lemma drain_buffer pick q s :
  ∃ added, buffer (drain flattenPacket pick q s).1 = buffer s +:+ added.
Proof.
  revert s. induction q as [| command q IH]; intros s.
  { exists "". by rewrite string_append_empty. }
  simpl. destruct command as [| data | target context flat future].
  - simpl. unfold terminate_with.
    match goal with |- context [fail_all ?r ?x] =>
      destruct (fail_all_frame r x) as (_ & _ & _ & _ & _ & -> & _)
    end.
    exact (IH (close (set_alive false (set_queue q s)))).
  - match goal with |- context [drain _ _ q ?x] =>
      destruct (IH x) as [added ->]
    end.
    exists (data +:+ added). simpl. apply string_append_assoc.
  - destruct future as [d |].
    + rewrite startRequest_set_queue. simpl.
      match goal with |- context [drain _ _ q ?x] =>
        destruct (IH x) as [added ->]
      end.
      simpl. destruct (startRequest_frame pick d s) as (_ & _ & -> & _).
      eexists. apply string_append_assoc.
    + match goal with |- context [drain _ _ q ?x] =>
        destruct (IH x) as [added ->]
      end.
      eexists. simpl. apply string_append_assoc.
Qed.

(** X7. Without a sentinel in the queue, [handle_write] appends the new
    packets to the buffer and takes away only a prefix of at most [sent]
    bytes: every byte that is not sent is kept, in order. *)
Theorem handle_write_keeps_unsent pick sent s :
  CmdNone ∉ queue s →
  let flushed := buffer (flushCommands flattenPacket pick s).1 in
  (∃ added, flushed = buffer s +:+ added) ∧
  string_upto sent flushed +:+ buffer (handle_write flattenPacket pick sent s) =
    flushed ∧
  String.length (string_upto sent flushed) =
    Nat.min sent (String.length flushed).
Proof.
  intros Hno flushed. subst flushed. unfold handle_write, flushCommands.
  destruct (drain_no_sentinel flattenPacket pick (queue s) s Hno) as (Hok & _).
  pose proof (drain_buffer pick (queue s) s) as Hb.
  destruct (drain flattenPacket pick (queue s) s) as [s1 ok].
  simpl in *. subst ok. simpl. split_and!.
  - exact Hb.
  - apply string_upto_from.
  - apply string_upto_length.
Qed.

(** X8. With a sentinel in the queue, [handle_write] sends nothing,
    whatever the socket would take: the commands queued with the sentinel
    are put in the buffer, and the buffer is left as it is. *)
Theorem handle_write_sentinel_sends_nothing pick sent s :
  CmdNone ∈ queue s →
  handle_write flattenPacket pick sent s = (flushCommands flattenPacket pick s).1 ∧
  ∃ added, buffer (handle_write flattenPacket pick sent s) = buffer s +:+ added.
Proof.
  intros Hin. unfold handle_write, flushCommands.
  destruct (drain_sentinel flattenPacket pick (queue s) s eq_refl Hin) as (Hok & _).
  pose proof (drain_buffer pick (queue s) s) as Hb.
  destruct (drain flattenPacket pick (queue s) s) as [s1 ok].
  simpl in *. subst ok. by split.
Qed.

Lemma handleResponse_untouched request records s d :
  requests s !! (- request) ≠ Some d →
  future_state (handleResponse request records s) d = future_state s d.
Proof.
  intros Hne. destruct (requests s !! (- request)) as [d' |] eqn:E;
    [| by rewrite handleResponse_miss].
  destruct (handleResponse_hit request records s d' E) as (_ & _ & Hf & _).
  unfold future_state. rewrite Hf, lookup_insert_ne; [done | congruence].
Qed.

Lemma handle_read_untouched pkts s d :
  (∀ p, p ∈ pkts → requests s !! (- p_request p) ≠ Some d) →
  future_state (handle_read pkts s) d = future_state s d.
Proof.
  unfold handle_read. revert s.
  induction pkts as [| p0 pkts IH]; intros s Hno; [done |].
  simpl. rewrite IH.
  - apply handleResponse_untouched, Hno. by left.
  - intros p Hp Hd.
    destruct (handleResponse_releases (p_request p0) (p_records p0) s) as (Hr & _).
    apply Hr in Hd. by apply (Hno p); [right |].
Qed.

(** X9. Replies reach their own futures in whatever order they arrive: when
    one read delivers packets with different request tags, for requests
    that hold different futures, the future of each is set from the
    records of its own reply, its entry is removed and its ID is in the
    pool. *)
Theorem replies_reach_their_futures pkts s p d :
  NoDup (p_request <$> pkts) → p ∈ pkts →
  requests s !! (- p_request p) = Some d →
  (∀ p' d', p' ∈ pkts → p_request p' ≠ p_request p →
     requests s !! (- p_request p') = Some d' → d' ≠ d) →
  future_state (handle_read pkts s) d = delivered (p_records p) ∧
  requests (handle_read pkts s) !! (- p_request p) = None ∧
  - p_request p ∈ pool (handle_read pkts s).
Proof.
  revert s. induction pkts as [| p0 pkts IH]; intros s Hnd Hin Hd Hother.
  { inversion Hin. }
  rewrite fmap_cons in Hnd. apply NoDup_cons in Hnd as [Hfresh Hnd].
  assert (Htags : ∀ p', p' ∈ pkts → p_request p' ≠ p_request p0).
  { intros p' Hp' Heq. apply Hfresh. rewrite <- Heq.
    apply list_elem_of_fmap. by exists p'. }
  change (handle_read (p0 :: pkts) s)
    with (handle_read pkts (handleResponse (p_request p0) (p_records p0) s)).
  set (s' := handleResponse (p_request p0) (p_records p0) s).
  assert (Hrel : releases s s') by apply handleResponse_releases.
  apply elem_of_cons in Hin as [-> | Hin].
  - destruct (handleResponse_hit (p_request p0) (p_records p0) s d Hd)
      as (Hr & Hp & Hf & _). fold s' in Hr, Hp, Hf.
    destruct (handle_read_releases pkts s') as (Hr' & Hp' & _).
    split_and!.
    + rewrite handle_read_untouched.
      * unfold future_state, delivered. rewrite Hf, lookup_insert_eq. reflexivity.
      * intros p' Hp'' Hd'. destruct Hrel as (Hsub & _). apply Hsub in Hd'.
        apply (Hother p' d); [by right | by apply Htags | done | done].
    + destruct (requests (handle_read pkts s') !! (- p_request p0)) as [d' |] eqn:E;
        [| done].
      apply Hr' in E. rewrite Hr, lookup_delete_eq in E. done.
    + apply Hp'. rewrite Hp. set_solver.
  - apply IH; try done.
    + assert (Hne : p_request p ≠ p_request p0) by by apply Htags.
      destruct (requests s !! (- p_request p0)) as [d0 |] eqn:E.
      * destruct (handleResponse_hit (p_request p0) (p_records p0) s d0 E) as (Hr & _).
        fold s' in Hr. rewrite Hr, lookup_delete_ne; [done | lia].
      * unfold s'. by rewrite handleResponse_miss.
    + intros p' d' Hp' Hne Hd'. destruct Hrel as (Hsub & _). apply Hsub in Hd'.
      apply (Hother p' d'); [by right | done | done].
Qed.

Lemma drain_unheld pick q s d :
  (∀ n, requests s !! n ≠ Some d) →
  (∀ target context flatrecs, CmdPacket target context flatrecs (Some d) ∉ q) →
  future_state (drain flattenPacket pick q s).1 d = future_state s d ∧
  ∀ n, requests (drain flattenPacket pick q s).1 !! n ≠ Some d.
Proof.
  revert s. induction q as [| command q IH]; intros s Hno Hq; [done |].
  assert (Hq' : ∀ target context flatrecs,
            CmdPacket target context flatrecs (Some d) ∉ q).
  { intros t c r H. apply (Hq t c r). by right. }
  simpl. destruct command as [| data | target context flat future].
  - simpl. unfold terminate_with.
    destruct (IH (close (set_alive false (set_queue q s))) Hno Hq') as [Hf Hr].
    match goal with |- context [fail_all ?r ?x] =>
      pose proof (fail_all_frame r x) as (_ & _ & Hreq & _);
      pose proof (fail_list_futures r (values (requests x)) x d) as Hfl
    end.
    rewrite decide_False in Hfl.
    + split; [| intros n; rewrite Hreq; apply Hr].
      unfold future_state at 1. unfold fail_all.
      unfold fail_list in Hfl. rewrite Hfl. exact Hf.
    + intros Hin. apply elem_of_values in Hin as [n Hn]. by apply (Hr n).
  - exact (IH (set_buffer (buffer s +:+ data) (set_queue q s)) Hno Hq').
  - destruct future as [d' |].
    + rewrite startRequest_set_queue. simpl.
      assert (Hne : d' ≠ d).
      { intros ->. apply (Hq target context flat). by left. }
      match goal with |- context [drain _ _ q ?x] =>
        destruct (IH x) as [Hf Hr]; [| exact Hq' |]
      end.
      * intros n. simpl. rewrite startRequest_entry.
        destruct (decide ((startRequest pick d' s).1 = n)) as [<- | Hn].
        -- rewrite lookup_insert_eq. congruence.
        -- rewrite lookup_insert_ne by done. apply Hno.
      * split; [| exact Hr]. rewrite Hf. unfold future_state. simpl.
        by destruct (startRequest_frame pick d' s) as (_ & _ & _ & _ & ->).
    + exact (IH (set_buffer (buffer s +:+ flattenPacket target context 0 flat)
                   (set_queue q s)) Hno Hq').
Qed.

Lemma terminate_unheld pick reason s d :
  ¬ held d s →
  future_state (terminate flattenPacket pick reason s) d = future_state s d ∧
  ¬ held d (terminate flattenPacket pick reason s).
Proof.
  intros Hh.
  assert (Hno : ∀ n, requests s !! n ≠ Some d).
  { intros n Hn. apply Hh. right. eauto. }
  assert (Hq : ∀ target context flatrecs,
            CmdPacket target context flatrecs (Some d) ∉ queue s).
  { intros t c r Hin. apply Hh. left. eauto. }
  destruct (drain_unheld pick (queue s) (close (set_alive false s)) d Hno Hq)
    as [Hf Hr].
  destruct (terminate_terminated flattenPacket pick reason s) as (_ & _ & Hempty & _).
  split.
  - unfold terminate, terminate_with, flushCommands.
    match goal with |- context [fail_all ?r ?x] =>
      pose proof (fail_list_futures r (values (requests x)) x d) as Hfl
    end.
    rewrite decide_False in Hfl.
    + unfold future_state at 1. unfold fail_all. unfold fail_list in Hfl.
      rewrite Hfl. exact Hf.
    + intros Hin. apply elem_of_values in Hin as [n Hn]. by apply (Hr n).
  - intros [(t & c & r & Hin) | [n Hn]].
    + rewrite Hempty in Hin. inversion Hin.
    + rewrite terminate_entries in Hn. by apply (Hr n).
Qed.

Lemma step_unheld ev s d :
  ¬ held d s → ¬ enqueues d ev →
  future_state (step flattenPacket ev s) d = future_state s d ∧
  ¬ held d (step flattenPacket ev s).
Proof.
  intros Hh Hev.
  assert (Hno : ∀ n, requests s !! n ≠ Some d).
  { intros n Hn. apply Hh. right. eauto. }
  assert (Hq : ∀ target context flatrecs,
            CmdPacket target context flatrecs (Some d) ∉ queue s).
  { intros t c r Hin. apply Hh. left. eauto. }
  destruct ev as [t c r f | data | | pick sent | pkts | pick | pick];
    unfold step.
  - unfold enqueue. destruct (alive s); [| done]. simpl. split; [done |].
    intros [(t' & c' & r' & Hin) | [n Hn]]; [| by apply (Hno n)].
    simpl in Hin. apply elem_of_app in Hin as [Hin | Hin]; [by apply (Hq t' c' r') |].
    apply list_elem_of_singleton in Hin. inversion Hin; subst.
    apply Hev. by exists t, c, r.
  - split; [done |].
    intros [(t' & c' & r' & Hin) | [n Hn]]; [| by apply (Hno n)].
    simpl in Hin. apply elem_of_app in Hin as [Hin | Hin]; [by apply (Hq t' c' r') |].
    apply list_elem_of_singleton in Hin. inversion Hin.
  - split; [done |].
    intros [(t' & c' & r' & Hin) | [n Hn]]; [| by apply (Hno n)].
    simpl in Hin. apply elem_of_app in Hin as [Hin | Hin]; [by apply (Hq t' c' r') |].
    apply list_elem_of_singleton in Hin. inversion Hin.
  - unfold handle_write, flushCommands.
    destruct (drain_unheld pick (queue s) s d Hno Hq) as [Hf Hr].
    pose proof (drain_queue flattenPacket pick (queue s) s eq_refl) as Hempty.
    destruct (drain flattenPacket pick (queue s) s) as [s1 [|]]; simpl in *.
    + split; [exact Hf |].
      intros [(t' & c' & r' & Hin) | [n Hn]]; [| by apply (Hr n)].
      simpl in Hin. rewrite Hempty in Hin. inversion Hin.
    + split; [exact Hf |].
      intros [(t' & c' & r' & Hin) | [n Hn]]; [| by apply (Hr n)].
      rewrite Hempty in Hin. inversion Hin.
  - destruct (handle_read_releases pkts s) as (Hr & _ & _ & _ & _ & _ & _ & Hqs & _).
    split.
    + apply handle_read_untouched. intros p _. apply Hno.
    + intros [(t' & c' & r' & Hin) | [n Hn]].
      * rewrite Hqs in Hin. by apply (Hq t' c' r').
      * apply Hr in Hn. by apply (Hno n).
  - by apply terminate_unheld.
  - by apply terminate_unheld.
Qed.

(** X10. The engine touches only the futures it holds: a future that is
    neither in a queued request nor in the request table keeps its state
    and stays out of the engine over every run in which it is not given to
    [enqueue] again.  So the outcome that a reply sets on the future of
    its request, whose one entry [handleResponse] removes, is never
    replaced by a later reply or by a termination.  A future that a
    termination has failed is still in the table, and a later termination
    replaces its cause. *)
Theorem unheld_future_untouched evs s d :
  Forall (λ ev, ¬ enqueues d ev) evs →
  (¬ held d s →
   future_state (run flattenPacket evs s) d = future_state s d ∧
   ¬ held d (run flattenPacket evs s)) ∧
  (∀ n records,
     requests s !! n = Some d →
     (∀ m, m ≠ n → requests s !! m ≠ Some d) →
     (∀ target context flatrecs,
        CmdPacket target context flatrecs (Some d) ∉ queue s) →
     future_state (run flattenPacket evs (handleResponse (- n) records s)) d =
     delivered records) ∧
  (∀ n pick pick',
     inv s → requests s !! n = Some d →
     future_state (handle_close flattenPacket pick s) d =
       Failed (CauseExc (Exception "Connection lost")) ∧
     requests (handle_close flattenPacket pick s) !! n = Some d ∧
     future_state
       (handle_error flattenPacket pick' (handle_close flattenPacket pick s)) d =
       Failed (CauseExc (Exception "AsyncoreProtocol error"))).
Proof.
  intros Hevs.
  assert (Hrun : ∀ s, ¬ held d s →
            future_state (run flattenPacket evs s) d = future_state s d ∧
            ¬ held d (run flattenPacket evs s)).
  { clear s. induction evs as [| ev evs' IH]; intros s Hh; [done |].
    apply Forall_cons in Hevs as [Hev Hevs].
    destruct (step_unheld ev s d Hh Hev) as [Hf Hh'].
    simpl. destruct (IH Hevs (step flattenPacket ev s) Hh') as [Hf' Hh''].
    split; [congruence | done]. }
  split_and!.
  - apply Hrun.
  - intros n records Hn Huniq Hq.
    destruct (handleResponse_hit (- n) records s d) as (Hr & _ & Hf & _ & _ & Hqs & _).
    { by rewrite Z.opp_involutive. }
    rewrite Z.opp_involutive in Hr.
    destruct (Hrun (handleResponse (- n) records s)) as [-> _].
    + intros [(t & c & r & Hin) | [m Hm]].
      * rewrite Hqs in Hin. by apply (Hq t c r).
      * rewrite Hr in Hm. destruct (decide (m = n)) as [-> | Hne].
        -- by rewrite lookup_delete_eq in Hm.
        -- rewrite lookup_delete_ne in Hm by done. by apply (Huniq m).
    + unfold future_state, delivered. rewrite Hf, lookup_insert_eq. simpl.
      by destruct (error_payloads records).
  - intros n pick pick' Hinv Hn.
    assert (Ht : ∀ pick reason s, inv s → requests s !! n = Some d →
              requests (terminate flattenPacket pick reason s) !! n = Some d ∧
              future_state (terminate flattenPacket pick reason s) d =
              Failed reason).
    { intros pick0 reason s0 Hinv0 Hn0.
      destruct (terminate_spec flattenPacket pick0 reason s0 Hinv0)
        as [_ (Hsub & _)].
      destruct (terminate_terminated flattenPacket pick0 reason s0)
        as (_ & _ & _ & Hf).
      assert (Hn' : requests (terminate flattenPacket pick0 reason s0) !! n = Some d)
        by by eapply lookup_weaken.
      split; [exact Hn' | by apply (Hf n)]. }
    destruct (Ht pick (CauseExc (Exception "Connection lost")) s Hinv Hn)
      as [Hn1 Hf1].
    split_and!; [exact Hf1 | exact Hn1 |].
    apply Ht; [| exact Hn1].
    by apply terminate_spec.
Qed.

Lemma drain_no_packets pick q s :
  (∀ command, command ∈ q → is_packet command = false) →
  requests (drain flattenPacket pick q s).1 = requests s ∧
  pool (drain flattenPacket pick q s).1 = pool s ∧
  nextRequest (drain flattenPacket pick q s).1 = nextRequest s.
Proof.
  revert s. induction q as [| command q IH]; intros s Hq; [done |].
  assert (Hq' : ∀ command, command ∈ q → is_packet command = false).
  { intros c Hc. apply Hq. by right. }
  simpl. destruct command as [| data | target context flat future].
  - simpl. unfold terminate_with.
    match goal with |- context [fail_all ?r ?x] =>
      destruct (fail_all_frame r x) as (_ & -> & -> & -> & _)
    end.
    exact (IH (close (set_alive false (set_queue q s))) Hq').
  - exact (IH (set_buffer (buffer s +:+ data) (set_queue q s)) Hq').
  - specialize (Hq (CmdPacket target context flat future)). simpl in Hq.
    discriminate Hq. by left.
Qed.

Lemma reachable_dead_queue s command :
  reachable flattenPacket s → alive s = false →
  command ∈ queue s → is_packet command = false.
Proof.
  intros Hreach. revert command.
  induction Hreach as [| s ev Hreach IH]; intros command; [discriminate |].
  destruct ev as [t c r f | data | | pick sent | pkts | pick | pick];
    unfold step.
  - unfold enqueue. destruct (alive s) eqn:Ha; simpl.
    + intros Ha'. congruence.
    + intros _ Hin. by apply IH.
  - simpl. intros Ha Hin. apply elem_of_app in Hin as [Hin | Hin]; [by apply IH |].
    by apply list_elem_of_singleton in Hin as ->.
  - simpl. intros Ha Hin. apply elem_of_app in Hin as [Hin | Hin]; [by apply IH |].
    by apply list_elem_of_singleton in Hin as ->.
  - intros _ Hin.
    assert (Hq : queue (handle_write flattenPacket pick sent s) = []).
    { unfold handle_write, flushCommands.
      pose proof (drain_queue flattenPacket pick (queue s) s eq_refl) as H.
      by destruct (drain flattenPacket pick (queue s) s) as [s1 [|]]. }
    rewrite Hq in Hin. inversion Hin.
  - destruct (handle_read_releases pkts s) as (_&_&_&_&_&_& -> & -> & _).
    apply IH.
  - intros _ Hin. unfold handle_error in Hin.
    destruct (terminate_terminated flattenPacket pick
                (CauseExc (Exception "AsyncoreProtocol error")) s) as (_ & _ & Hq & _).
    rewrite Hq in Hin. inversion Hin.
  - intros _ Hin. unfold handle_close in Hin.
    destruct (terminate_terminated flattenPacket pick
                (CauseExc (Exception "Connection lost")) s) as (_ & _ & Hq & _).
    rewrite Hq in Hin. inversion Hin.
Qed.

Lemma dead_step ev s :
  reachable flattenPacket s → alive s = false →
  nextRequest (step flattenPacket ev s) = nextRequest s ∧
  requests (step flattenPacket ev s) ⊆ requests s ∧
  pool s ⊆ pool (step flattenPacket ev s).
Proof.
  intros Hreach Ha.
  assert (Hq : ∀ command, command ∈ queue s → is_packet command = false).
  { intros command. by apply reachable_dead_queue. }
  destruct ev as [t c r f | data | | pick sent | pkts | pick | pick];
    unfold step.
  - unfold enqueue. by rewrite Ha.
  - done.
  - done.
  - unfold handle_write, flushCommands.
    destruct (drain_no_packets pick (queue s) s Hq) as (Hr & Hp & Hn).
    destruct (drain flattenPacket pick (queue s) s) as [s1 [|]]; simpl in *;
      by rewrite Hr, Hp, Hn.
  - destruct (handle_read_releases pkts s) as (Hr & Hp & _ & _ & _ & Hn & _).
    split_and!; [done | | done].
    apply map_subseteq_spec. intros n d. apply Hr.
  - unfold handle_error, terminate, terminate_with, flushCommands.
    match goal with |- context [fail_all ?r ?x] =>
      destruct (fail_all_frame r x) as (_ & -> & -> & -> & _)
    end.
    destruct (drain_no_packets pick (queue s) (close (set_alive false s)) Hq)
      as (Hr & Hp & Hn).
    simpl in *. by rewrite Hr, Hp, Hn.
  - unfold handle_close, terminate, terminate_with, flushCommands.
    match goal with |- context [fail_all ?r ?x] =>
      destruct (fail_all_frame r x) as (_ & -> & -> & -> & _)
    end.
    destruct (drain_no_packets pick (queue s) (close (set_alive false s)) Hq)
      as (Hr & Hp & Hn).
    simpl in *. by rewrite Hr, Hp, Hn.
Qed.

(** X11. A dead engine starts no request: from a reachable state in which
    [alive] is false, whatever happens, the counter stays where it is, the
    request table gets no new entry and the pool loses no ID. *)
Theorem dead_engine_starts_nothing evs s :
  reachable flattenPacket s → alive s = false →
  nextRequest (run flattenPacket evs s) = nextRequest s ∧
  requests (run flattenPacket evs s) ⊆ requests s ∧
  pool s ⊆ pool (run flattenPacket evs s).
Proof.
  revert s. induction evs as [| ev evs IH]; intros s Hreach Ha; [done |].
  destruct (dead_step ev s Hreach Ha) as (Hn & Hr & Hp).
  simpl. destruct (IH (step flattenPacket ev s)) as (Hn' & Hr' & Hp').
  - by constructor.
  - by apply step_dead.
  - split_and!; [congruence | by transitivity (requests (step flattenPacket ev s))
                 | by transitivity (pool (step flattenPacket ev s))].
Qed.

End EngineExtras.


(** * The bound on the request IDs *)

Section IdBound.

Variable flattenPacket : Ident → Context → Z → string → string.

Local Abbreviation step := (step flattenPacket).
Local Abbreviation run := (run flattenPacket).
Local Abbreviation reachable := (reachable flattenPacket).

Lemma outstanding_futures s s' l :
  (∀ d, d ∈ l → future_state s' d = future_state s d) →
  outstanding s' l = outstanding s l.
Proof.
  induction l as [| d l IH]; intros H; [done |].
  simpl. rewrite H by left. rewrite IH; [done |].
  intros d' Hd'. apply H. by right.
Qed.

Lemma outstanding_app s l1 l2 :
  outstanding s (l1 ++ l2) = (outstanding s l1 + outstanding s l2)%nat.
Proof. induction l1 as [| d l1 IH]; simpl; [done | rewrite IH; lia]. Qed.

(** Setting one future takes at most one request off the outstanding ones. *)
Lemma outstanding_set s s' l d v :
  NoDup l → futures s' = <[d := v]> (futures s) →
  (outstanding s l ≤ S (outstanding s' l))%nat.
Proof.
  intros Hnd Hf.
  assert (Hother : ∀ d', d' ≠ d → future_state s' d' = future_state s d').
  { intros d' Hne. unfold future_state. rewrite Hf. by rewrite lookup_insert_ne. }
  induction Hnd as [| a l Ha Hnd IH]; simpl; [lia |].
  destruct (decide (a = d)) as [-> | Hne].
  - rewrite (outstanding_futures s s' l).
    + destruct (is_pending (future_state s d)), (is_pending (future_state s' d)); lia.
    + intros d' Hd'. apply Hother. intros ->. contradiction.
  - rewrite (Hother a Hne). lia.
Qed.

Lemma size_insert_le (m : gmap Z Fid) n d :
  (size (<[n := d]> m) ≤ S (size m))%nat.
Proof.
  destruct (m !! n) as [d' |] eqn:E.
  - rewrite map_size_insert_Some by eauto. lia.
  - by rewrite map_size_insert_None.
Qed.

(** A flush adds at most one entry for each request that waits. *)
Lemma drain_size pick q s :
  (size (requests (drain flattenPacket pick q s).1) ≤
   size (requests s) + queued_requests q)%nat.
Proof.
  revert s. induction q as [| command q IH]; intros s; simpl; [lia |].
  destruct command as [| data | target context flat [d |]].
  - simpl. unfold terminate_with.
    match goal with |- context [fail_all ?r ?x] =>
      destruct (fail_all_frame r x) as (_ & _ & -> & _)
    end.
    exact (IH (close (set_alive false (set_queue q s)))).
  - exact (IH (set_buffer (buffer s +:+ data) (set_queue q s))).
  - rewrite startRequest_set_queue. simpl.
    match goal with |- context [drain _ _ q ?x] =>
      pose proof (IH x) as H
    end.
    simpl in H. rewrite startRequest_entry in H.
    pose proof (size_insert_le (requests s) (startRequest pick d s).1 d). lia.
  - exact (IH (set_buffer (buffer s +:+ flattenPacket target context 0 flat)
                 (set_queue q s))).
Qed.

Lemma queued_requests_app q1 q2 :
  queued_requests (q1 ++ q2) = (queued_requests q1 + queued_requests q2)%nat.
Proof.
  induction q1 as [| [| data | t c r [d |]] q1 IH]; simpl; lia.
Qed.

(** One event adds at most the waiting requests to the table. *)
Lemma step_size ev s :
  reachable s →
  (size (requests (step ev s)) ≤
   size (requests s) +
   (if alive s then queued_requests (queue s) else 0))%nat.
Proof.
  intros Hreach. destruct (alive s) eqn:Ha.
  - destruct ev as [t c r f | data | | pick sent | pkts | pick | pick];
      unfold step.
    + unfold enqueue. rewrite Ha. simpl. lia.
    + simpl. lia.
    + simpl. lia.
    + unfold handle_write, flushCommands.
      pose proof (drain_size pick (queue s) s) as H.
      by destruct (drain flattenPacket pick (queue s) s) as [s1 [|]].
    + destruct (handle_read_releases pkts s) as (Hr & _).
      assert (Hsub : requests (handle_read pkts s) ⊆ requests s).
      { apply map_subseteq_spec. exact Hr. }
      apply map_subseteq_size in Hsub. lia.
    + unfold handle_error. rewrite terminate_entries.
      apply (drain_size pick (queue s) (close (set_alive false s))).
    + unfold handle_close. rewrite terminate_entries.
      apply (drain_size pick (queue s) (close (set_alive false s))).
  - destruct (dead_step flattenPacket ev s Hreach Ha) as (_ & Hsub & _).
    apply map_subseteq_size in Hsub. lia.
Qed.

(** A reply takes one entry off the table and at most one request off the
    outstanding ones. *)
Lemma handleResponse_outstanding request records s l k :
  NoDup l →
  (size (requests s) + k ≤ outstanding s l)%nat →
  (size (requests (handleResponse request records s)) + k ≤
   outstanding (handleResponse request records s) l)%nat.
Proof.
  intros Hnd H. destruct (requests s !! (- request)) as [d |] eqn:E.
  - destruct (handleResponse_hit request records s d E) as (Hr & _ & Hf & _).
    pose proof (outstanding_set s _ l d _ Hnd Hf) as Ho.
    rewrite Hr.
    assert (Hs : size (requests s) = S (size (delete (- request) (requests s)))).
    { rewrite (map_size_delete_Some (- request) (requests s)) by eauto.
      assert (size (requests s) ≠ 0%nat); [| lia].
      intros Hz. apply map_size_empty_inv in Hz. rewrite Hz in E.
      by rewrite lookup_empty in E. }
    lia.
  - by rewrite handleResponse_miss.
Qed.

Lemma handle_read_outstanding pkts s l k :
  NoDup l →
  (size (requests s) + k ≤ outstanding s l)%nat →
  (size (requests (handle_read pkts s)) + k ≤
   outstanding (handle_read pkts s) l)%nat.
Proof.
  intros Hnd. revert s. unfold handle_read.
  induction pkts as [| p pkts IH]; intros s H; [done |].
  simpl. apply IH. by apply handleResponse_outstanding.
Qed.

Lemma given_enqueues d ev : d ∈ given ev ↔ enqueues d ev.
Proof.
  unfold enqueues, given. split.
  - destruct ev as [t c r [d' |] | | | | | |]; intros H; try by inversion H.
    apply list_elem_of_singleton in H as ->. eauto.
  - intros (t & c & r & ->). left.
Qed.

Lemma sentinel_or_not (q : list Command) : CmdNone ∈ q ∨ CmdNone ∉ q.
Proof.
  induction q as [| command q [IH | IH]].
  - right. by inversion 1.
  - left. by right.
  - destruct command as [| data | t c r f].
    + left. by left.
    + right. intros H. apply elem_of_cons in H as [H | H]; [discriminate | done].
    + right. intros H. apply elem_of_cons in H as [H | H]; [discriminate | done].
Qed.

Lemma accounted_init : accounted init [] [].
Proof.
  split_and!.
  - constructor.
  - intros d H. inversion H.
  - intros d _. split; [done |].
    intros [(t & c & r & H) | [n H]]; [inversion H | done].
  - intros _. simpl. rewrite map_size_empty. lia.
Qed.

Lemma step_accounted ev s l E :
  reachable s → accounted s l E → NoDup (E ++ given ev) →
  accounted (step ev s) (l ++ taken ev s) (E ++ given ev).
Proof.
  intros Hreach (Hnd & Hsub & Hfresh & Hcount) HE.
  assert (Hnew : ∀ d, d ∈ given ev → d ∉ E).
  { intros d Hd Hin. apply NoDup_app in HE as (_ & HE & _). by apply (HE d). }
  assert (Htaken : ∀ d, d ∈ taken ev s → d ∈ given ev).
  { intros d. unfold taken. destruct (alive s); [done | by inversion 1]. }
  split_and!.
  - apply NoDup_app. split_and!; [done | |].
    + intros d Hd Ht. apply (Hnew d); [by apply Htaken | by apply Hsub].
    + unfold taken. destruct (alive s); [| constructor].
      by apply NoDup_app in HE as (_ & _ & HE).
  - intros d Hd. apply elem_of_app in Hd as [Hd | Hd]; apply elem_of_app.
    + left. by apply Hsub.
    + right. by apply Htaken.
  - intros d Hd.
    assert (HdE : d ∉ E) by (intros H; apply Hd, elem_of_app; by left).
    assert (Hdg : ¬ enqueues d ev).
    { intros H. apply Hd, elem_of_app. right. by apply given_enqueues. }
    destruct (Hfresh d HdE) as [Hp Hh].
    destruct (step_unheld flattenPacket ev s d Hh Hdg) as [Hf Hh'].
    split; [congruence | done].
  - intros Ha'.
    assert (Ha : alive s = true).
    { destruct (alive s) eqn:Ha; [done |].
      by rewrite (step_dead flattenPacket ev s Ha) in Ha'. }
    specialize (Hcount Ha). unfold taken. rewrite Ha.
    destruct ev as [t c r [d |] | data | | pick sent | pkts | pick | pick];
      unfold step in *; simpl given; rewrite ?app_nil_r.
    + unfold enqueue. rewrite Ha. simpl.
      rewrite (outstanding_futures s _ (l ++ [d])) by done.
      rewrite queued_requests_app, outstanding_app. simpl.
      assert (Hd : d ∉ E) by (apply Hnew; left).
      destruct (Hfresh d Hd) as [-> _]. simpl. lia.
    + unfold enqueue. rewrite Ha. simpl.
      rewrite queued_requests_app. simpl.
      rewrite (outstanding_futures s _ l) by done. lia.
    + simpl. rewrite queued_requests_app. simpl.
      rewrite (outstanding_futures s _ l) by done. lia.
    + unfold drop. simpl. rewrite queued_requests_app. simpl.
      rewrite (outstanding_futures s _ l) by done. lia.
    + unfold handle_write, flushCommands in *.
      destruct (sentinel_or_not (queue s)) as [Hin | Hout].
      * destruct (drain_sentinel flattenPacket pick (queue s) s eq_refl Hin)
          as [Hok (Hdead & _)].
        destruct (drain flattenPacket pick (queue s) s) as [s1 ok].
        simpl in *. subst ok. congruence.
      * destruct (drain_no_sentinel flattenPacket pick (queue s) s Hout)
          as (Hok & _ & _ & Hf).
        pose proof (drain_size pick (queue s) s) as Hs.
        pose proof (drain_queue flattenPacket pick (queue s) s eq_refl) as Hq.
        destruct (drain flattenPacket pick (queue s) s) as [s1 ok].
        simpl in *. subst ok. simpl. rewrite Hq. simpl.
        rewrite (outstanding_futures s _ l).
        -- lia.
        -- intros d _. unfold future_state. simpl. by rewrite Hf.
    + destruct (handle_read_releases pkts s) as (_ & _ & _ & _ & _ & _ & _ & -> & _).
      by apply handle_read_outstanding.
    + unfold handle_error in Ha'.
      destruct (terminate_terminated flattenPacket pick
                  (CauseExc (Exception "AsyncoreProtocol error")) s) as (Hd & _).
      congruence.
    + unfold handle_close in Ha'.
      destruct (terminate_terminated flattenPacket pick
                  (CauseExc (Exception "Connection lost")) s) as (Hd & _).
      congruence.
Qed.

(** The table never holds more entries than requests were outstanding at
    some moment. *)
Lemma peak_outstanding evs s l E K :
  reachable s → accounted s l E → NoDup (E ++ enqueued evs) →
  (size (requests s) ≤ K)%nat →
  (outstanding_peak flattenPacket evs s l ≤ K)%nat →
  (peak flattenPacket evs s ≤ K)%nat.
Proof.
  revert s l E.
  induction evs as [| ev evs IH]; intros s l E Hreach Hacc HE Hs Ho;
    simpl in *; [done |].
  assert (HE' : NoDup (E ++ given ev)).
  { rewrite app_assoc in HE. by apply NoDup_app in HE as (HE & _). }
  apply Nat.max_lub; [done |].
  apply (IH (step ev s) (l ++ taken ev s) (E ++ given ev)).
  - by constructor.
  - by apply step_accounted.
  - by rewrite <- app_assoc.
  - pose proof (step_size ev s Hreach) as Hsize.
    destruct Hacc as (_ & _ & _ & Hcount).
    destruct (alive s); [specialize (Hcount eq_refl) |]; lia.
  - lia.
Qed.

(** The engine between two round trips: nothing waits, nothing is
    pending, and all the IDs handed out so far are in the pool. *)
Lemma startRequest_idle pick d s :
  requests s = ∅ →
  (nextRequest s = 1 ∧ pool s = ∅) ∨ (nextRequest s = 2 ∧ pool s = {[1]}) →
  (startRequest pick d s).1 = 1 ∧
  requests (startRequest pick d s).2 = {[1 := d]} ∧
  pool (startRequest pick d s).2 = ∅ ∧
  nextRequest (startRequest pick d s).2 = 2.
Proof.
  intros Hr [[Hn Hp] | [Hn Hp]]; unfold startRequest; rewrite Hp.
  - rewrite decide_False by (rewrite size_empty; lia).
    simpl. rewrite Hn, Hr. by split_and!.
  - rewrite decide_True by (rewrite size_singleton; lia).
    pose proof (set_pop_elem pick {[1]}) as Hin.
    pose proof (set_pop_rest pick {[1]}) as Hrest.
    destruct (set_pop pick {[1]}) as [n p]. simpl in *.
    assert (n = 1) as ->.
    { assert (Hne : ({[1]} : gset Z) ≠ ∅) by set_solver.
      apply Hin in Hne. set_solver. }
    rewrite Hr, Hrest. split_and!; try done; set_solver.
Qed.

Lemma round_trip_idle t s :
  alive s = true → queue s = [] → requests s = ∅ →
  (nextRequest s = 1 ∧ pool s = ∅) ∨ (nextRequest s = 2 ∧ pool s = {[1]}) →
  let s' := round_trip flattenPacket t s in
  alive s' = true ∧ queue s' = [] ∧ requests s' = ∅ ∧
  nextRequest s' = 2 ∧ pool s' = {[1]}.
Proof.
  intros Ha Hq Hr Hnp.
  destruct (startRequest_idle (t_pick t) (t_future t) s Hr Hnp)
    as (Hn & Hr1 & Hp1 & Hn1).
  destruct (startRequest_frame (t_pick t) (t_future t) s)
    as (Ha1 & Hq1 & _ & _ & _).
  unfold round_trip, flushCommands, enqueue. rewrite Ha, Hq. simpl.
  rewrite Hn.
  set (s1 := set_queue [CmdPacket (t_target t) (t_context t) (t_flatrecs t)
                          (Some (t_future t))] s).
  set (x := handle_write flattenPacket (t_pick t) (t_sent t) s1).
  assert (Hx : alive x = true ∧ queue x = [] ∧
               requests x = {[1 := t_future t]} ∧ nextRequest x = 2 ∧
               pool x = ∅).
  { unfold x, handle_write, flushCommands, s1. simpl.
    rewrite startRequest_set_queue. simpl.
    rewrite ?startRequest_set_queue. simpl.
    rewrite Hr1, Hp1, Ha1, Hn1. by split_and!. }
  destruct Hx as (Hxa & Hxq & Hxr & Hxn & Hxp).
  destruct (handleResponse_hit (Z.opp 1) (t_records t) x (t_future t))
    as (Hr2 & Hp2 & _ & Ha2 & Hn2 & Hq2 & _).
  { change (- - 1) with 1. rewrite Hxr. apply lookup_singleton_eq. }
  change (- - 1) with 1 in Hr2, Hp2.
  rewrite Hr2, Hp2, Ha2, Hn2, Hq2, Hxr, Hxp, Hxa, Hxn, Hxq.
  split_and!; first [done | apply delete_singleton_eq | set_solver].
Qed.

Lemma round_trips_idle trips s :
  alive s = true → queue s = [] → requests s = ∅ →
  (nextRequest s = 1 ∧ pool s = ∅) ∨ (nextRequest s = 2 ∧ pool s = {[1]}) →
  let s' := round_trips flattenPacket trips s in
  requests s' = ∅ ∧ nextRequest s' ≤ 2 ∧ pool s' ⊆ {[1]}.
Proof.
  revert s. induction trips as [| t trips IH]; intros s Ha Hq Hr Hnp; simpl.
  - split; [done |]. destruct Hnp as [[-> ->] | [-> ->]]; split; (lia || set_solver).
  - destruct (round_trip_idle t s Ha Hq Hr Hnp) as (Ha' & Hq' & Hr' & Hn' & Hp').
    apply IH; auto.
Qed.

(** C8. A request is outstanding from the moment [enqueue] accepts it
    until its future is completed or failed.  Over any run from the
    initial state in which every request has a future of its own and at
    no moment more than [K] requests are outstanding, the counter ends at
    most at [K + 1] and the IDs that were ever given to a request are at
    most [K], all within [1..K], however long the run is.  The reason is
    that [startRequest] takes an ID from the pool whenever the pool is not
    empty and then leaves the counter alone, and that a reply puts the ID
    of its request into the pool.  So any number of round trips made one
    after the other use the one ID 1. *)
Theorem C8_id_pool_bound evs K :
  NoDup (enqueued evs) →
  (max_outstanding flattenPacket evs ≤ K)%nat →
  nextRequest (run evs init) ≤ Z.of_nat K + 1 ∧
  (size (ever_allocated flattenPacket evs init) ≤ K)%nat ∧
  (∀ n, n ∈ ever_allocated flattenPacket evs init → 1 ≤ n ≤ Z.of_nat K) ∧
  (∀ pick d s, pool s ≠ ∅ →
     (startRequest pick d s).1 ∈ pool s ∧
     nextRequest (startRequest pick d s).2 = nextRequest s) ∧
  (∀ pick d d' n records s,
     requests s !! n = Some d →
     let s' := handleResponse (- n) records s in
     n ∈ pool s' ∧ (startRequest pick d' s').1 ∈ pool s' ∧
     nextRequest (startRequest pick d' s').2 = nextRequest s) ∧
  (∀ trips,
     let s := round_trips flattenPacket trips init in
     requests s = ∅ ∧ nextRequest s ≤ 2 ∧ pool s ⊆ {[1]}).
Proof.
  intros Hnd HK.
  assert (Hpeak : (peak flattenPacket evs init ≤ K)%nat).
  { apply (peak_outstanding evs init [] []).
    - constructor.
    - apply accounted_init.
    - exact Hnd.
    - simpl. rewrite map_size_empty. lia.
    - exact HK. }
  destruct (run_counter_peak flattenPacket evs init inv_init) as [_ Hc].
  simpl in Hc.
  assert (Hn : nextRequest (run evs init) ≤ Z.of_nat K + 1) by lia.
  assert (Hpool : ∀ pick d s, pool s ≠ ∅ →
            (startRequest pick d s).1 ∈ pool s ∧
            nextRequest (startRequest pick d s).2 = nextRequest s).
  { intros pick d s Hne. unfold startRequest.
    rewrite decide_True.
    + pose proof (set_pop_elem pick (pool s) Hne) as Hin.
      by destruct (set_pop pick (pool s)).
    + intros Hz. apply size_empty_inv, leibniz_equiv in Hz. contradiction. }
  split_and!.
  - exact Hn.
  - pose proof (inv_range_size (ever_allocated flattenPacket evs init)
                  (run evs init) (run_inv flattenPacket evs init inv_init)) as Hs.
    cut (Z.of_nat (size (ever_allocated flattenPacket evs init)) ≤ Z.of_nat K); [lia |].
    etransitivity; [apply Hs |]; [| lia].
    intros n Hin. by apply ever_allocated_range; [apply inv_init |].
  - intros n Hin. apply ever_allocated_range in Hin; [lia | apply inv_init].
  - exact Hpool.
  - intros pick d d' n records s Hs s'.
    destruct (handleResponse_hit (- n) records s d) as (_ & Hp & _ & _ & Hnext & _).
    { by rewrite Z.opp_involutive. }
    rewrite Z.opp_involutive in Hp. fold s' in Hp, Hnext.
    assert (Hin : n ∈ pool s') by (rewrite Hp; set_solver).
    destruct (Hpool pick d' s') as [H1 H2]; [set_solver |].
    split_and!; [done | done | congruence].
  - intros trips. apply round_trips_idle; try done. by left.
Qed.

End IdBound.


(** * Further properties of the facade *)

Lemma contexts_S n c :
  contexts (S n) c =
  let r := contexts n (set__nextContext (_nextContext c + 1) c) in
  (match r.1 with
   | Ok rest => Ok ((0, _nextContext c) :: rest)
   | Raise e => Raise e
   | Hang => Hang
   end, r.2).
Proof.
  cbn [contexts]. unfold bind, context, ret. simpl.
  by destruct (contexts n (set__nextContext (_nextContext c + 1) c))
    as [[rest | e |] c'].
Qed.

(** X12. [context] hands out fresh contexts: [n] calls in a row return [n]
    different contexts, all with high word 0 and low words from the
    counter on, and move the counter on by [n]. *)
Theorem contexts_fresh n c :
  ∃ l, (contexts n c).1 = Ok l ∧ length l = n ∧ NoDup l ∧
       (∀ x, x ∈ l →
          x.1 = 0 ∧ _nextContext c ≤ x.2 < _nextContext c + Z.of_nat n) ∧
       _nextContext (contexts n c).2 = _nextContext c + Z.of_nat n.
Proof.
  revert c. induction n as [| n IH]; intros c.
  { exists []. simpl. split_and!; try done; [constructor | | lia].
    intros x Hx. inversion Hx. }
  destruct (IH (set__nextContext (_nextContext c + 1) c))
    as (l & Hl & Hlen & Hnd & Hin & Hnext).
  rewrite Nat2Z.inj_succ, contexts_S.
  exists ((0, _nextContext c) :: l).
  cbv zeta. rewrite Hl. cbn [fst snd]. rewrite Hnext.
  cbn [_nextContext set__nextContext] in *.
  split_and!.
  - reflexivity.
  - cbn [length]. by rewrite Hlen.
  - constructor; [| done]. intros Hx. apply Hin in Hx. cbn [snd] in Hx. lia.
  - intros x Hx. apply elem_of_cons in Hx as [-> | Hx]; cbn [fst snd]; [lia |].
    apply Hin in Hx. lia.
  - lia.
Qed.

Lemma substitute_settings_numeric cache server records :
  Forall (λ r : Record_, is_Name r.1 = false) records →
  substitute_settings cache server records = records.
Proof.
  intros H. unfold substitute_settings.
  destruct (match server with Num id => cache !! id | Name _ => None end)
    as [settings |]; [| done].
  induction H as [| r records Hr _ IH]; [done |].
  rewrite fmap_cons, IH.
  destruct r as [[n | nm] rest]; simpl in *; [done | discriminate Hr].
Qed.

Lemma cached_settings_numeric c server records :
  Forall (λ r : Record_, is_Name r.1 = false) records →
  cached_settings c server records = records.
Proof.
  intros H. unfold cached_settings.
  destruct (settingCache c) as [cache |]; [| done].
  by apply substitute_settings_numeric.
Qed.

Lemma settingLookups_numeric records :
  Forall (λ r : Record_, is_Name r.1 = false) records →
  settingLookups records = [].
Proof.
  intros H. unfold settingLookups.
  destruct (omap _ (imap pair records)) as [| [i nm] l] eqn:E; [done |].
  assert (Hin : (i, nm) ∈ omap (λ ir : nat * Record_,
                   match ir.2.1 with
                   | Name nm => Some (ir.1, nm)
                   | Num _ => None
                   end) (imap pair records)) by (rewrite E; left).
  apply list_elem_of_omap in Hin as ([j r] & Hr & Hf).
  apply elem_of_lookup_imap in Hr as (j' & r' & Heq & Hl).
  inversion Heq; subst j' r'. simpl in Hf.
  rewrite Forall_forall in H.
  assert (Hn : is_Name r.1 = false).
  { apply H. by eapply list_elem_of_lookup_2. }
  destruct r.1; [done | discriminate Hn].
Qed.

Lemma needs_lookup_numeric c t records :
  Forall (λ r : Record_, is_Name r.1 = false) records →
  needs_lookup c (Num t) records = false.
Proof.
  intros H. unfold needs_lookup.
  assert (Hs : cached_server c (Num t) = Num t).
  { unfold cached_server. by destruct (serverCache c). }
  rewrite Hs. simpl.
  by rewrite cached_settings_numeric, settingLookups_numeric.
Qed.

(** X13. Numeric IDs pass through [_lookupNames]: with a numeric target
    and only numeric settings, on an object that has its caches and
    whatever they hold, it returns the target and the records as they
    are, and does nothing else.  On an object without the caches (one on
    which [_connect] has not passed the TLS check) it raises the
    [AttributeError] of the setting cache, and does nothing else. *)
Theorem _lookupNames_numeric env t records c :
  Forall (λ r : Record_, is_Name r.1 = false) records →
  (is_Some (settingCache c) →
   _lookupNames env (Num t) records c = (Ok (Num t, records), c)) ∧
  (settingCache c = None →
   _lookupNames env (Num t) records c =
   (Raise (AttributeError
      "'AsyncoreConnection' object has no attribute 'settingCache'"), c)).
Proof.
  intros H. split.
  - intros Hs.
    rewrite (_lookupNames_cached env _ _ _ Hs (needs_lookup_numeric c t _ H)).
    rewrite cached_settings_numeric by done.
    unfold cached_server. by destruct (serverCache c).
  - intros Hs. by rewrite (_lookupNames_no_caches env _ _ _ Hs).
Qed.

(** X14. Names are never resolved: when a name is left to look up,
    [sendRequest] and [sendMessage] raise, whatever the state of the
    engine, and leave the caches as they were, so that the same call
    needs the lookup again. *)
Theorem names_are_never_resolved env target records context timeout c :
  needs_lookup c target records = true →
  (∃ e, (sendRequest env target records context timeout c).1 = Raise e) ∧
  (∃ e, (sendMessage env target records context c).1 = Raise e) ∧
  serverCache (sendRequest env target records context timeout c).2 = serverCache c ∧
  settingCache (sendRequest env target records context timeout c).2 = settingCache c ∧
  serverCache (sendMessage env target records context c).2 = serverCache c ∧
  settingCache (sendMessage env target records context c).2 = settingCache c.
Proof.
  intros Hn. unfold sendRequest, sendMessage, bind.
  destruct (settingCache c) as [cache |] eqn:Hs.
  - assert (Hs' : is_Some (settingCache c)) by eauto.
    rewrite (_lookupNames_lookup env target records c Hs' Hn).
    unfold _sendRequestNoLookup, bind, _sendPacket, enqueue, ret.
    apply caches_attrs in Hs' as (servers & settings & e & Hattrs).
    unfold cxn, serverCache, settingCache in *. simpl. rewrite Hattrs in *.
    destruct e as [s |]; simpl.
    + destruct (alive s); simpl; rewrite ?Hattrs; split_and!; eauto.
    + rewrite ?Hattrs. split_and!; eauto.
  - rewrite (_lookupNames_no_caches env target records c Hs).
    simpl. split_and!; eauto.
Qed.

(** Properties of the facade that the steps of the handshake keep. *)
Section Stable.

Variable env : Environment.
Variable P : AsyncoreConnection → Prop.
Hypothesis P_cxn : ∀ s c, P c → P (set_cxn s c).
Hypothesis P_connected : ∀ c, P c → P (set_connected false c).
Hypothesis P_future : ∀ d c, P c → P (set_nextFuture d c).
Hypothesis P_message : ∀ m c, P c → P (set_loginMessage m c).

Lemma stable_sendPacket target context records future :
  preserves P (_sendPacket env target context records future).
Proof.
  intros c H. unfold _sendPacket.
  destruct (cxn c) as [s |]; [| by apply P_connected].
  destruct (enqueue target context (flattenRecords env records) future s)
    as [[[] | e |] s']; simpl; auto.
Qed.

Lemma stable_sendRequestNoLookup target records context timeout :
  preserves P (_sendRequestNoLookup env target records context timeout).
Proof.
  intros c H. unfold _sendRequestNoLookup.
  destruct timeout as [t |]; [by apply P_future |].
  apply (preserves_bind P); [| intros; apply preserves_ret | by apply P_future].
  apply stable_sendPacket.
Qed.

Lemma stable_lookupNames server records :
  preserves P (_lookupNames env server records).
Proof.
  intros c H. destruct (settingCache c) as [cache |] eqn:Hc;
    [| by rewrite (_lookupNames_no_caches env server records c Hc)].
  assert (Hc' : is_Some (settingCache c)) by eauto.
  destruct (needs_lookup c server records) eqn:Hn.
  - rewrite (_lookupNames_lookup env server records c Hc' Hn).
    match goal with
    | |- context [_sendRequestNoLookup env ?t ?r ?x ?o c] =>
        pose proof (stable_sendRequestNoLookup t r x o c H) as Hs;
        destruct (_sendRequestNoLookup env t r x o c) as [[d | e |] c']
    end; exact Hs.
  - by rewrite (_lookupNames_cached env server records c Hc' Hn).
Qed.

Lemma stable_sendRequest target records context timeout :
  preserves P (sendRequest env target records context timeout).
Proof.
  apply preserves_bind; [apply stable_lookupNames |].
  intros [t r]. apply stable_sendRequestNoLookup.
Qed.

Lemma stable_result d io : preserves P (result env d io).
Proof.
  intros c H. unfold result. destruct (cxn c) as [s |]; [| done].
  destruct (future_state (run (flattenPacket env) io s) d) as [| r | [e | m]];
    simpl; by apply P_cxn.
Qed.

Lemma stable_login password ident sched :
  preserves P (login env password ident sched).
Proof.
  unfold login.
  apply preserves_bind; [apply stable_sendRequest | intros d].
  apply preserves_bind; [apply stable_result | intros resp].
  apply preserves_bind.
  { destruct resp; [apply preserves_raise | apply preserves_ret]. }
  intros challenge.
  apply preserves_bind.
  { destruct challenge; first [apply preserves_ret | apply preserves_raise]. }
  intros challenge'.
  apply preserves_bind.
  { apply preserves_try_except; [| intros; apply preserves_raise].
    apply preserves_bind; [apply stable_sendRequest |].
    intros d'. apply stable_result. }
  intros resp'.
  apply preserves_bind.
  { destruct resp'; [apply preserves_raise | apply preserves_ret]. }
  intros message.
  apply preserves_bind; [apply preserves_modify; by intros c H; apply P_message |].
  intros _.
  apply preserves_bind.
  { apply preserves_try_except; [| intros; apply preserves_raise].
    apply preserves_bind; [apply stable_sendRequest |].
    intros d'. apply stable_result. }
  intros resp''. destruct resp''; [apply preserves_raise | apply preserves_ret].
Qed.

End Stable.

(** [_connect] after a TLS check that passes: the socket is opened, the
    engine and its thread are made, [login] runs, and a failure of [login]
    goes through [disconnect]; whatever is raised is made a login
    failure. *)
Lemma _connect_unfold env password timeout tls_mode mode sched c :
  check_tls_mode env tls_mode = Ok mode → String.eqb mode "on" = false →
  _connect env password timeout tls_mode sched c =
  let c1 := fresh_caches c in
  match create_connection env (host c1) (connect_port env c1)
          (connect_timeout timeout) with
  | Raise e => (Raise (as_login_failure e), c1)
  | Hang => (Hang, c1)
  | Ok _ =>
      let c2 := set_loop Started (set_cxn init c1) in
      match login env password [name c1] sched c2 with
      | (Ok id, c3) => (Ok id, c3)
      | (Hang, c3) => (Hang, c3)
      | (Raise e, c3) =>
          match disconnect env sched c3 with
          | (Ok _, c4) => (Raise (as_login_failure e), c4)
          | (Raise e', c4) => (Raise (as_login_failure e'), c4)
          | (Hang, c4) => (Hang, c4)
          end
      end
  end.
Proof.
  intros Hc Hm. unfold _connect. unfold bind at 1. rewrite Hc.
  cbv beta iota. rewrite Hm.
  unfold bind at 1. unfold modify at 1. cbv zeta.
  fold (fresh_caches c).
  unfold try_except at 1. unfold bind at 1.
  unfold connect_port, connect_timeout.
  destruct (port (fresh_caches c)) as [p |];
    (destruct (create_connection env _ _ _) as [[] | e |]; [| done | done];
     unfold bind at 1; unfold modify at 1;
     unfold try_except at 1;
     destruct (login env password [name (fresh_caches c)] sched _) as [[id | e |] c3];
       [done | | done];
     unfold bind at 1;
     by destruct (disconnect env sched c3) as [[[] | e' |] c4]).
Qed.

Lemma as_login_failure_is_login_failure e :
  ∃ a, as_login_failure e = LoginFailedError a.
Proof. destruct e; simpl; eauto. Qed.


(** X16. The outcome of [connect] after a TLS check that passes: when it
    returns, the facade is connected, has its ID, and has an engine with
    a started thread; when it raises, the exception is a login failure
    and the facade is not connected; when it waits for ever, the facade
    is not connected either. *)
Theorem connect_outcome env h p timeout password tls_mode mode sched c :
  check_tls_mode env tls_mode = Ok mode → String.eqb mode "on" = false →
  let r := connect env h p timeout password tls_mode sched c in
  match r.1 with
  | Ok _ =>
      connected r.2 = true ∧ is_Some (ID r.2) ∧ is_Some (cxn r.2) ∧
      loop r.2 = Started
  | Raise e => connected r.2 = false ∧ ∃ a, e = LoginFailedError a
  | Hang => connected r.2 = false
  end.
Proof.
  intros Hc Hm r.
  assert (Hr : r =
    match _connect env password timeout tls_mode sched (set_host_port h p c) with
    | (Ok id, c') => (Ok tt, set_connected true (set_ID id c'))
    | (Raise e, c') => (Raise e, c')
    | (Hang, c') => (Hang, c')
    end).
  { subst r. unfold connect, bind, modify.
    by destruct (_connect env password timeout tls_mode sched (set_host_port h p c))
      as [[id | e |] c']. }
  clearbody r. subst r.
  rewrite (_connect_unfold env password timeout tls_mode mode sched _ Hc Hm).
  cbv zeta.
  set (c1 := fresh_caches (set_host_port h p c)).
  destruct (create_connection env (host c1) (connect_port env c1)
              (connect_timeout timeout)) as [[] | e |];
    [| simpl; split; [done | apply as_login_failure_is_login_failure]
     | simpl; reflexivity].
  set (c2 := set_loop Started (set_cxn init c1)).
  pose proof (stable_login env
                (λ c, connected c = false ∧ is_Some (cxn c) ∧ loop c = Started)
                ltac:(intros s c' (? & [s' Hs'] & ?); split_and!; try done;
                      exists s; by eapply cxn_set_cxn)
                ltac:(by intros c' (? & ? & ?))
                ltac:(by intros d c' (? & ? & ?))
                ltac:(by intros m c' (? & ? & ?))
                password [name c1] sched c2) as Hlogin.
  destruct (login env password [name c1] sched c2) as [[id | e |] c3].
  - destruct Hlogin as (H1 & H2 & H3); [by repeat split |].
    simpl in *. by repeat split.
  - destruct Hlogin as (H1 & H2 & H3); [by repeat split |].
    simpl in H1. unfold disconnect. rewrite H1. simpl.
    split; [done | apply as_login_failure_is_login_failure].
  - destruct Hlogin as (H1 & H2 & H3); [by repeat split |]. exact H1.
Qed.

(** X17. A failure of the first request of the handshake is raised by
    [login] as it is: when the future of the challenge request fails with
    an exception, [login] raises that exception, and not a login failure
    of its own. *)
Theorem login_first_failure env password ident sched c s e :
  cxn c = Some s → alive s = true →
  future_state
    (run (flattenPacket env) (io_challenge sched)
       (set_queue (queue s ++
          [CmdPacket (Num (MANAGER_ID env)) (0, 0) (flattenRecords env [])
             (Some (nextFuture c))]) s))
    (nextFuture c) = Failed (CauseExc e) →
  (login env password ident sched c).1 = Raise e.
Proof.
  intros Hc Ha Hf. unfold login. unfold bind at 1.
  unfold sendRequest. unfold bind at 1.
  rewrite (_lookupNames_cached env (Num (MANAGER_ID env)) [] c)
    by (first [by eapply cxn_caches | apply needs_lookup_numeric; constructor]).
  rewrite cached_settings_numeric by constructor.
  assert (Hs : cached_server c (Num (MANAGER_ID env)) = Num (MANAGER_ID env)).
  { unfold cached_server. by destruct (serverCache c). }
  rewrite Hs.
  unfold _sendRequestNoLookup. unfold bind at 1.
  erewrite _sendPacket_alive; [| exact Hc | exact Ha].
  unfold ret. unfold bind at 1. unfold result.
  erewrite cxn_set_cxn; [| exact Hc | reflexivity].
  by rewrite Hf.
Qed.


(** X19. A request and its reply through the facade: on a live engine, for
    a target and settings that need no lookup, when the I/O thread
    flushes the queue and then reads a reply whose tag is minus the ID
    that the flush gave the request, [result()] on the future of
    [sendRequest] raises the first error of the reply, or returns its
    records when it has none. *)
Theorem request_round_trip env pick sent source ctx replies target records
    context c s :
  cxn c = Some s → alive s = true →
  needs_lookup c target records = false →
  let d := nextFuture c in
  let n := (startRequest pick d (flushCommands (flattenPacket env) pick s).1).1 in
  ((let* d := sendRequest env target records context None in
    result env d [EvWrite pick sent; EvRead [mkPacket source ctx (- n) replies]])
     c).1 =
  match error_payloads replies with
  | e :: _ => Raise e
  | [] => Ok replies
  end.
Proof.
  intros Hc Ha Hn d n.
  unfold bind at 1. unfold sendRequest. unfold bind at 1.
  rewrite (_lookupNames_cached env _ _ _ (cxn_caches c s Hc) Hn).
  unfold _sendRequestNoLookup. unfold bind at 1.
  erewrite _sendPacket_alive; [| exact Hc | exact Ha].
  unfold ret. unfold result.
  erewrite cxn_set_cxn; [| exact Hc | reflexivity].
  set (target' := cached_server c target).
  set (flat := flattenRecords env (cached_settings c target' records)).
  set (s1 := set_queue (queue s ++ [CmdPacket target' context flat (Some d)]) s).
  cbn [run step handle_read foldl p_request p_records].
  set (x := handle_write (flattenPacket env) pick sent s1).
  assert (Hx : requests x !! n = Some d).
  { destruct (drain_snoc_request (flattenPacket env) pick (queue s)
                (queue s ++ [CmdPacket target' context flat (Some d)]) s
                target' context flat d) as (Hr & _).
    fold s1 in Hr.
    assert (Hw : requests x =
                 requests (drain (flattenPacket env) pick
                             (queue s ++ [CmdPacket target' context flat (Some d)])
                             s1).1).
    { unfold x, handle_write, flushCommands.
      change (queue s1) with (queue s ++ [CmdPacket target' context flat (Some d)]).
      by destruct (drain (flattenPacket env) pick
                     (queue s ++ [CmdPacket target' context flat (Some d)]) s1)
        as [s2 [|]]. }
    rewrite Hw, Hr. apply lookup_insert_eq. }
  destruct (handleResponse_hit (- n) replies x d) as (_ & _ & Hf & _).
  { by rewrite Z.opp_involutive. }
  fold d. fold s1. fold x.
  unfold future_state. rewrite Hf, lookup_insert_eq. simpl.
  by destruct (error_payloads replies).
Qed.


(** * The bound on the request IDs on concrete inputs *)

(** C8 on three round trips made one after the other: never more than one
    request is outstanding, the counter ends at 2 and the only ID is 1;
    and on the sample run, where the reply to request 1 has put ID 1 into
    the pool. *)
Lemma C8_witness :
  NoDup (enqueued three_round_trips) ∧
  (max_outstanding sample_flattenPacket three_round_trips ≤ 1)%nat ∧
  nextRequest (run sample_flattenPacket three_round_trips init) ≤ 2 ∧
  (size (ever_allocated sample_flattenPacket three_round_trips init) ≤ 1)%nat ∧
  pool sample_state ≠ ∅ ∧
  (startRequest sample_pick 9%nat sample_state).1 ∈ pool sample_state ∧
  requests sample_pending !! 1 = Some 7%nat ∧
  nextRequest
    (startRequest sample_pick 9%nat
       (handleResponse (- 1) [(3, DWord 4)] sample_pending)).2 =
    nextRequest sample_pending.
Proof.
  assert (H1 : NoDup (enqueued three_round_trips)).
  { apply (bool_decide_unpack _). vm_compute. exact I. }
  assert (H2 : (max_outstanding sample_flattenPacket three_round_trips ≤ 1)%nat).
  { vm_compute. lia. }
  assert (H3 : pool sample_state ≠ ∅).
  { intros H. assert (Hin : 1 ∈ pool sample_state) by (vm_compute; reflexivity).
    rewrite H in Hin. set_solver. }
  assert (H4 : requests sample_pending !! 1 = Some 7%nat)
    by (vm_compute; reflexivity).
  destruct (C8_id_pool_bound sample_flattenPacket three_round_trips 1 H1 H2)
    as (P1 & P2 & _ & P4 & P5 & _).
  split_and!; [exact H1 | exact H2 | exact P1 | exact P2 | exact H3 | |
               exact H4 |].
  - apply (P4 sample_pick 9%nat sample_state H3).
  - apply (P5 sample_pick 7%nat 9%nat 1 [(3, DWord 4)] sample_pending H4).
Defined.


(** * The further properties on concrete inputs *)

(** X1 on the sample run and a packet with tag 0. *)
Lemma handleResponse_ignores_nonnegative_witness :
  reachable sample_flattenPacket sample_state ∧ 0 ≤ 0 ∧
  handleResponse 0 [(3, DWord 4)] sample_state = sample_state.
Proof.
  assert (H : reachable sample_flattenPacket sample_state).
  { apply reachable_run, reachable_init. }
  assert (H0 : 0 ≤ 0) by lia.
  split_and!; [exact H | exact H0 |].
  exact (handleResponse_ignores_nonnegative sample_flattenPacket 0
           [(3, DWord 4)] sample_state H H0).
Defined.

(** X3 on the sample run: ID 1 is answered and given to the next request. *)
Lemma released_id_is_reused_witness :
  pool sample_pending = ∅ ∧ requests sample_pending !! 1 = Some 7%nat ∧
  (startRequest sample_pick 9%nat
     (handleResponse (- 1) [(3, DWord 4)] sample_pending)).1 = 1.
Proof.
  assert (H1 : pool sample_pending = ∅) by reflexivity.
  assert (H2 : requests sample_pending !! 1 = Some 7%nat) by reflexivity.
  split_and!; [exact H1 | exact H2 |].
  destruct (released_id_is_reused sample_pick 1 7%nat 9%nat [(3, DWord 4)]
              sample_pending H1 H2) as (P & _).
  exact P.
Defined.

(** X4 on the sample run. *)
Lemma alive_iff_open_witness :
  reachable sample_flattenPacket sample_state ∧
  alive sample_state = negb (closed sample_state).
Proof.
  assert (H : reachable sample_flattenPacket sample_state).
  { apply reachable_run, reachable_init. }
  split; [exact H |].
  exact (alive_iff_open sample_flattenPacket sample_state H).
Defined.

(** X5 on a message queued on a fresh engine. *)
Lemma writable_after_witness :
  alive init = true ∧
  writable (enqueue (Num 5) (0, 1) "a" None init).2 = true.
Proof.
  assert (H : alive init = true) by reflexivity.
  split; [exact H |].
  destruct (writable_after sample_flattenPacket sample_pick 0 (CauseStr "")
              (Num 5) (0, 1) "a" None init) as (_ & _ & _ & P).
  exact (P H).
Defined.

(** X6 on two requests. *)
Lemma flush_in_batches_witness :
  (CmdNone ∉ [CmdPacket (Num 5) (0, 1) "a" (Some 7%nat)]) ∧
  (flushCommands sample_flattenPacket sample_pick
     (set_queue ([CmdPacket (Num 5) (0, 1) "a" (Some 7%nat)] ++
                 [CmdPacket (Num 5) (0, 1) "b" (Some 8%nat)]) init) =
   flushCommands sample_flattenPacket sample_pick
     (set_queue [CmdPacket (Num 5) (0, 1) "b" (Some 8%nat)]
        (flushCommands sample_flattenPacket sample_pick
           (set_queue [CmdPacket (Num 5) (0, 1) "a" (Some 7%nat)] init)).1)).
Proof.
  assert (H : CmdNone ∉ [CmdPacket (Num 5) (0, 1) "a" (Some 7%nat)]).
  { intros Hin. apply list_elem_of_singleton in Hin. discriminate Hin. }
  split; [exact H |].
  exact (flush_in_batches sample_flattenPacket sample_pick
           [CmdPacket (Num 5) (0, 1) "a" (Some 7%nat)]
           [CmdPacket (Num 5) (0, 1) "b" (Some 8%nat)] init H).
Defined.

(** X7 on a message of three bytes of which one is sent. *)
Lemma handle_write_keeps_unsent_witness :
  (CmdNone ∉ queue (enqueue (Num 5) (0, 1) "abc" None init).2) ∧
  (string_upto 1
     (buffer (flushCommands sample_flattenPacket sample_pick
                (enqueue (Num 5) (0, 1) "abc" None init).2).1) +:+
   buffer (handle_write sample_flattenPacket sample_pick 1
             (enqueue (Num 5) (0, 1) "abc" None init).2) =
   buffer (flushCommands sample_flattenPacket sample_pick
             (enqueue (Num 5) (0, 1) "abc" None init).2).1).
Proof.
  assert (H : CmdNone ∉ queue (enqueue (Num 5) (0, 1) "abc" None init).2).
  { simpl. intros Hin. apply list_elem_of_singleton in Hin. discriminate Hin. }
  split; [exact H |].
  destruct (handle_write_keeps_unsent sample_flattenPacket sample_pick 1
              (enqueue (Num 5) (0, 1) "abc" None init).2 H) as (_ & P & _).
  exact P.
Defined.

(** X8 on an engine that was told to drop. *)
Lemma handle_write_sentinel_sends_nothing_witness :
  CmdNone ∈ queue (drop init) ∧
  handle_write sample_flattenPacket sample_pick 5 (drop init) =
  (flushCommands sample_flattenPacket sample_pick (drop init)).1.
Proof.
  assert (H : CmdNone ∈ queue (drop init)) by (simpl; apply list_elem_of_here).
  split; [exact H |].
  destruct (handle_write_sentinel_sends_nothing sample_flattenPacket sample_pick 5
              (drop init) H) as (P & _).
  exact P.
Defined.

(** X9 on the two requests of the sample run, answered in reverse order. *)
Lemma replies_reach_their_futures_witness :
  NoDup (p_request <$> sample_replies) ∧
  mkPacket 5 (0, 1) (-1) [(3, DWord 4)] ∈ sample_replies ∧
  requests sample_pending !! 1 = Some 7%nat ∧
  future_state (handle_read sample_replies sample_pending) 7%nat =
    delivered [(3, DWord 4)].
Proof.
  assert (H1 : NoDup (p_request <$> sample_replies)).
  { simpl. repeat constructor; set_solver. }
  assert (H2 : mkPacket 5 (0, 1) (-1) [(3, DWord 4)] ∈ sample_replies).
  { right. left. }
  assert (H3 : requests sample_pending !! (- p_request (mkPacket 5 (0, 1) (-1) [(3, DWord 4)]))
               = Some 7%nat) by reflexivity.
  assert (H4 : ∀ p' d', p' ∈ sample_replies →
                 p_request p' ≠ p_request (mkPacket 5 (0, 1) (-1) [(3, DWord 4)]) →
                 requests sample_pending !! (- p_request p') = Some d' → d' ≠ 7%nat).
  { intros p' d' Hin Hne Hl.
    apply elem_of_cons in Hin as [-> | Hin].
    - vm_compute in Hl. inversion Hl. discriminate.
    - apply list_elem_of_singleton in Hin as ->. by destruct Hne. }
  split_and!; [exact H1 | exact H2 | exact H3 |].
  destruct (replies_reach_their_futures sample_replies sample_pending
              (mkPacket 5 (0, 1) (-1) [(3, DWord 4)]) 7%nat H1 H2 H3 H4)
    as (P & _).
  exact P.
Defined.

(** X10 on the first request of the sample run: once answered, its future
    keeps the result when the connection is lost afterwards; not answered,
    it is failed by the loss of the connection and failed again by an error
    callback. *)
Lemma unheld_future_untouched_witness :
  Forall (λ ev, ¬ enqueues 7%nat ev) [EvClose sample_pick] ∧
  ¬ held 7%nat sample_state ∧
  future_state (run sample_flattenPacket [EvClose sample_pick] sample_state) 7%nat =
    future_state sample_state 7%nat ∧
  requests sample_pending !! 1 = Some 7%nat ∧
  (∀ m, m ≠ 1 → requests sample_pending !! m ≠ Some 7%nat) ∧
  (∀ target context flatrecs,
     CmdPacket target context flatrecs (Some 7%nat) ∉ queue sample_pending) ∧
  future_state
    (run sample_flattenPacket [EvClose sample_pick]
       (handleResponse (- 1) [(3, DWord 4)] sample_pending)) 7%nat =
    delivered [(3, DWord 4)] ∧
  inv sample_pending ∧
  future_state
    (handle_error sample_flattenPacket sample_pick
       (handle_close sample_flattenPacket sample_pick sample_pending)) 7%nat =
    Failed (CauseExc (Exception "AsyncoreProtocol error")).
Proof.
  assert (H1 : ¬ held 7%nat sample_state).
  { intros [(t & c & r & H) | [n Hn]].
    - vm_compute in H. inversion H.
    - change (requests sample_state) with ({[2 := 8%nat]} : gmap Z Fid) in Hn.
      apply lookup_singleton_Some in Hn as [_ Hn]. discriminate Hn. }
  assert (H2 : Forall (λ ev, ¬ enqueues 7%nat ev) [EvClose sample_pick]).
  { repeat constructor. intros (t & c & r & H). discriminate H. }
  assert (H3 : requests sample_pending !! 1 = Some 7%nat)
    by (vm_compute; reflexivity).
  assert (H4 : ∀ m, m ≠ 1 → requests sample_pending !! m ≠ Some 7%nat).
  { intros m Hm.
    change (requests sample_pending)
      with (<[1 := 7%nat]> ({[2 := 8%nat]} : gmap Z Fid)).
    rewrite lookup_insert_ne by done. intros Hl.
    apply lookup_singleton_Some in Hl as [_ Hl]. discriminate Hl. }
  assert (H5 : ∀ target context flatrecs,
            CmdPacket target context flatrecs (Some 7%nat) ∉ queue sample_pending).
  { intros t c r H. vm_compute in H. inversion H. }
  assert (H6 : inv sample_pending) by apply run_inv, inv_init.
  destruct (unheld_future_untouched sample_flattenPacket [EvClose sample_pick]
              sample_state 7%nat H2) as (P1 & _).
  destruct (unheld_future_untouched sample_flattenPacket [EvClose sample_pick]
              sample_pending 7%nat H2) as (_ & P2 & P3).
  split_and!; [exact H2 | exact H1 | exact (proj1 (P1 H1)) | exact H3 | exact H4 |
               exact H5 | exact (P2 1 [(3, DWord 4)] H3 H4 H5) | exact H6 |].
  destruct (P3 1 sample_pick sample_pick H6 H3) as (_ & _ & P4). exact P4.
Defined.

(** X11 on an engine that lost its connection and is then given a request. *)
Lemma dead_engine_starts_nothing_witness :
  reachable sample_flattenPacket (step sample_flattenPacket (EvClose sample_pick) init) ∧
  alive (step sample_flattenPacket (EvClose sample_pick) init) = false ∧
  nextRequest
    (run sample_flattenPacket
       [EvEnqueue (Num 5) (0, 1) "a" (Some 7%nat); EvWrite sample_pick 0]
       (step sample_flattenPacket (EvClose sample_pick) init)) =
  nextRequest (step sample_flattenPacket (EvClose sample_pick) init).
Proof.
  assert (H1 : reachable sample_flattenPacket
                 (step sample_flattenPacket (EvClose sample_pick) init)).
  { apply reachable_step, reachable_init. }
  assert (H2 : alive (step sample_flattenPacket (EvClose sample_pick) init) = false)
    by reflexivity.
  split_and!; [exact H1 | exact H2 |].
  destruct (dead_engine_starts_nothing sample_flattenPacket
              [EvEnqueue (Num 5) (0, 1) "a" (Some 7%nat); EvWrite sample_pick 0]
              (step sample_flattenPacket (EvClose sample_pick) init) H1 H2)
    as (P & _).
  exact P.
Defined.

(** X13 on one record with numeric IDs: on the sample connection, and on
    an object that was never connected. *)
Lemma _lookupNames_numeric_witness :
  Forall (λ r : Record_, is_Name r.1 = false) [(Num 3, (DNone, []))] ∧
  is_Some (settingCache sample_connection) ∧
  _lookupNames sample_env (Num 5) [(Num 3, (DNone, []))] sample_connection =
  (Ok (Num 5, [(Num 3, (DNone, []))]), sample_connection) ∧
  settingCache (new_connection "cli") = None ∧
  _lookupNames sample_env (Num 5) [(Num 3, (DNone, []))] (new_connection "cli") =
  (Raise (AttributeError
     "'AsyncoreConnection' object has no attribute 'settingCache'"),
   new_connection "cli").
Proof.
  assert (H : Forall (λ r : Record_, is_Name r.1 = false) [(Num 3, (DNone, []))]).
  { repeat constructor. }
  assert (H1 : is_Some (settingCache sample_connection)) by (simpl; eauto).
  assert (H2 : settingCache (new_connection "cli") = None) by reflexivity.
  split_and!; [exact H | exact H1 | | exact H2 |].
  - exact (proj1 (_lookupNames_numeric sample_env 5 [(Num 3, (DNone, []))]
                    sample_connection H) H1).
  - exact (proj2 (_lookupNames_numeric sample_env 5 [(Num 3, (DNone, []))]
                    (new_connection "cli") H) H2).
Defined.

(** X14 on a message to a server given by name. *)
Lemma names_are_never_resolved_witness :
  needs_lookup sample_connection (Name "Lakeshore 218") [] = true ∧
  ∃ e, (sendMessage sample_env (Name "Lakeshore 218") [] (0, 0)
          sample_connection).1 = Raise e.
Proof.
  assert (H : needs_lookup sample_connection (Name "Lakeshore 218") [] = true)
    by reflexivity.
  split; [exact H |].
  destruct (names_are_never_resolved sample_env (Name "Lakeshore 218") [] (0, 0)
              None sample_connection H) as (_ & P & _).
  exact P.
Defined.


(** X16 on the wrong password of the sample schedule. *)
Lemma connect_outcome_witness :
  check_tls_mode sample_env "off" = Ok "off" ∧
  String.eqb "off" "on" = false ∧
  connected (connect sample_env "localhost" None None (Some "bad") "off"
               wrong_password (new_connection "cli")).2 = false.
Proof.
  assert (H1 : check_tls_mode sample_env "off" = Ok "off") by reflexivity.
  assert (H2 : String.eqb "off" "on" = false) by reflexivity.
  split_and!; [exact H1 | exact H2 |].
  pose proof (connect_outcome sample_env "localhost" None None (Some "bad") "off"
                "off" wrong_password (new_connection "cli") H1 H2) as P.
  cbv zeta in P.
  assert (E : (connect sample_env "localhost" None None (Some "bad") "off"
                 wrong_password (new_connection "cli")).1 =
              Raise (LoginFailedError (ArgStr "Incorrect password.")))
    by (vm_compute; reflexivity).
  rewrite E in P. exact (proj1 P).
Defined.

(** X17 when the connection is lost during the first wait. *)
Lemma login_first_failure_witness :
  cxn sample_connection = Some init ∧ alive init = true ∧
  future_state
    (run (flattenPacket sample_env) (io_challenge connection_lost)
       (set_queue (queue init ++
          [CmdPacket (Num (MANAGER_ID sample_env)) (0, 0)
             (flattenRecords sample_env []) (Some (nextFuture sample_connection))])
          init))
    (nextFuture sample_connection) =
    Failed (CauseExc (Exception "Connection lost")) ∧
  (login sample_env None ["cli"] connection_lost sample_connection).1 =
    Raise (Exception "Connection lost").
Proof.
  assert (H1 : cxn sample_connection = Some init) by reflexivity.
  assert (H2 : alive init = true) by reflexivity.
  assert (H3 : future_state
                 (run (flattenPacket sample_env) (io_challenge connection_lost)
                    (set_queue (queue init ++
                       [CmdPacket (Num (MANAGER_ID sample_env)) (0, 0)
                          (flattenRecords sample_env [])
                          (Some (nextFuture sample_connection))]) init))
                 (nextFuture sample_connection) =
               Failed (CauseExc (Exception "Connection lost"))) by reflexivity.
  split_and!; [exact H1 | exact H2 | exact H3 |].
  exact (login_first_failure sample_env None ["cli"] connection_lost
           sample_connection init (Exception "Connection lost") H1 H2 H3).
Defined.


(** X19 on one record with numeric IDs and its reply. *)
Lemma request_round_trip_witness :
  cxn sample_connection = Some init ∧ alive init = true ∧
  needs_lookup sample_connection (Num 5) [(Num 3, (DNone, []))] = false ∧
  ((let* d := sendRequest sample_env (Num 5) [(Num 3, (DNone, []))] (0, 0) None in
    result sample_env d
      [EvWrite sample_pick 1; EvRead [mkPacket 5 (0, 0) (- 1) [(3, DWord 4)]]])
     sample_connection).1 = Ok [(3, DWord 4)].
Proof.
  assert (H1 : cxn sample_connection = Some init) by reflexivity.
  assert (H2 : alive init = true) by reflexivity.
  assert (H3 : needs_lookup sample_connection (Num 5) [(Num 3, (DNone, []))] = false)
    by reflexivity.
  split_and!; [exact H1 | exact H2 | exact H3 |].
  exact (request_round_trip sample_env sample_pick 1 5 (0, 0) [(3, DWord 4)]
           (Num 5) [(Num 3, (DNone, []))] (0, 0) sample_connection init H1 H2 H3).
Defined.
